(** * Verification of the warehouse robot path planner

    A shallow embedding of [warehouse_robot.cc]: the occupancy grid, the two
    searches ([findPath], breadth first, and [findPathA], A* over a
    [std::priority_queue]), the layout file input and output, and the event
    loop of [main], followed by the properties proved about them. *)

From Stdlib Require Import ZArith Lia ZifyNat Bool Ascii.
From Stdlib Require String DecimalString DecimalPos.
From stdpp Require Import prelude.

Local Open Scope Z_scope.

(** ** Constants of the program *)

Definition SCREEN_WIDTH : Z := 800.
Definition SCREEN_HEIGHT : Z := 600.
Definition GRID_SIZE : Z := 40.
Definition ROWS : Z := SCREEN_HEIGHT ÷ GRID_SIZE.
Definition COLS : Z := SCREEN_WIDTH ÷ GRID_SIZE.
Definition INT_MAX : Z := 2147483647.

(** [int] arithmetic: the result of an operation on 32-bit signed integers,
    brought back into the range of [int]. *)
Definition int_wrap (z : Z) : Z := (z + 2147483648) `mod` 4294967296 - 2147483648.

(** ** Outcomes

    A run of a piece of the program either returns a value, or reads or
    writes a [std::vector] outside its range (undefined behaviour in C++,
    a fault here), or is cut by the step budget of a loop. *)

Inductive Res (A : Type) : Type :=
| Ok (a : A)
| OutOfBounds
| OutOfFuel.
Arguments Ok {A} a.
Arguments OutOfBounds {A}.
Arguments OutOfFuel {A}.

Definition bind {A B : Type} (m : Res A) (k : A → Res B) : Res B :=
  match m with
  | Ok a => k a
  | OutOfBounds => OutOfBounds
  | OutOfFuel => OutOfFuel
  end.

Notation "x <- m ;; k" := (bind m (λ x, k))
  (at level 100, m at next level, right associativity).

(** ** Points and two-dimensional vectors *)

Record Point : Type := mkPoint { px : Z; py : Z }.

Global Instance Point_eq_dec : EqDecision Point.
Proof. solve_decision. Defined.

(** [a[y][x]] on a [std::vector<std::vector<A>>], checked. *)
Definition get2 {A} (a : list (list A)) (x y : Z) : Res A :=
  if (0 <=? y) && (0 <=? x) then
    match a !! Z.to_nat y with
    | Some row =>
        match row !! Z.to_nat x with
        | Some v => Ok v
        | None => OutOfBounds
        end
    | None => OutOfBounds
    end
  else OutOfBounds.

(** [a[y][x] = v], checked. *)
Definition set2 {A} (a : list (list A)) (x y : Z) (v : A) : Res (list (list A)) :=
  if (0 <=? y) && (0 <=? x) then
    match a !! Z.to_nat y with
    | Some row =>
        if decide (Z.to_nat x < length row)%nat
        then Ok (<[Z.to_nat y := <[Z.to_nat x := v]> row]> a)
        else OutOfBounds
    | None => OutOfBounds
    end
  else OutOfBounds.

(** [std::vector<std::vector<A>>(ROWS, std::vector<A>(COLS, v))]. *)
Definition make2 {A} (v : A) : list (list A) :=
  replicate (Z.to_nat ROWS) (replicate (Z.to_nat COLS) v).

(** The occupancy grid [warehouseGrid]: 0 is free, 1 is an obstacle. *)
Abbreviation Grid := (list (list Z)).

Definition isValidGridPosition (g : Grid) (x y : Z) : Res bool :=
  if (x >=? 0) && (x <? COLS) && (y >=? 0) && (y <? ROWS)
  then v <- get2 g x y;; Ok (v =? 0)
  else Ok false.

(** The neighbour offsets [dx], [dy], in the order of the source. *)
Definition dx : list Z := [0; 1; 0; -1].
Definition dy : list Z := [-1; 0; 1; 0].
Definition dirs : list (Z * Z) := zip dx dy.

Definition neighbour (c : Point) (d : Z * Z) : Point :=
  mkPoint (int_wrap (px c + d.1)) (int_wrap (py c + d.2)).

(** A [for] loop over a list whose body may fault. *)
Fixpoint for_each {S D : Type} (body : S → D → Res S) (ds : list D) (s : S) : Res S :=
  match ds with
  | [] => Ok s
  | d :: ds' => s' <- body s d;; for_each body ds' s'
  end.

(** ** Path reconstruction, shared by both searches

    [while (!(current == start)) { path.push_back(current);
    current = parents[current.y][current.x]; }], then [std::reverse]. *)
Fixpoint reconstruct (fuel : nat) (parents : list (list Point)) (start current : Point)
    (path : list Point) : Res (list Point) :=
  match fuel with
  | O => OutOfFuel
  | S fuel' =>
      if decide (current = start) then Ok (rev path)
      else
        p <- get2 parents (px current) (py current);;
        reconstruct fuel' parents start p (path ++ [current])
  end.

(** Step budgets of the loops; the theorems below show that they are never
    exhausted. *)
Definition cells : nat := Z.to_nat (ROWS * COLS).
Definition walk_fuel : nat := S cells.

(** ** Breadth-first search: [findPath] *)

Record BfsState : Type := mkBfs {
  queue : list Point;
  visited : list (list bool);
  parents : list (list Point)
}.

(** One pass of the [for (i = 0; i < 4; ++i)] body. *)
Definition bfs_visit (g : Grid) (current : Point) (st : BfsState) (d : Z * Z) : Res BfsState :=
  let n := neighbour current d in
  ok <- isValidGridPosition g (px n) (py n);;
  if ok then
    seen <- get2 (visited st) (px n) (py n);;
    if negb seen then
      vis <- set2 (visited st) (px n) (py n) true;;
      par <- set2 (parents st) (px n) (py n) current;;
      Ok (mkBfs (queue st ++ [n]) vis par)
    else Ok st
  else Ok st.

Fixpoint bfs_loop (fuel : nat) (g : Grid) (start goal : Point) (st : BfsState)
    : Res (list Point) :=
  match fuel with
  | O => OutOfFuel
  | S fuel' =>
      match queue st with
      | [] => Ok ([] : list Point)
      | current :: rest =>
          if decide (current = goal) then
            reconstruct walk_fuel (parents st) start current []
          else
            st' <- for_each (bfs_visit g current) dirs
                    (mkBfs rest (visited st) (parents st));;
            bfs_loop fuel' g start goal st'
      end
  end.

Definition bfs_fuel : nat := S cells.

Definition findPath (g : Grid) (start goal : Point) : Res (list Point) :=
  vis <- set2 (make2 false) (px start) (py start) true;;
  bfs_loop bfs_fuel g start goal (mkBfs [start] vis (make2 (mkPoint (-1) (-1)))).

(** ** The open list of A*

    [std::priority_queue<std::pair<Point,int>, ..., comparator>]: an entry is
    a cell with its f-cost, and [comparator a b] is [a.second > b.second], so
    the top is an entry of least f-cost. The C++ standard fixes no more than
    that; the search is written over any implementation of the interface. *)

Abbreviation entry := (Point * Z)%type.

Definition comparator (a b : entry) : bool := b.2 <? a.2.

Class OpenList : Type := {
  pq : Type;
  pq_new : pq;
  (** [push] *)
  pq_push : pq → entry → pq;
  (** [top] followed by [pop]; [None] when [empty()] *)
  pq_take : pq → option (entry * pq)
}.

(** *** The binary heap of libstdc++ ([bits/stl_heap.h]) over a vector

    [std::priority_queue] keeps its entries in a [std::vector] ordered as a
    binary heap: [push] is [push_back] then [std::push_heap], [top] is
    [front], and [pop] is [std::pop_heap] then [pop_back].  Indices are
    distances from [first], never negative, and kept in [nat].  The two
    loops carry a step budget they cannot use up: the hole moves strictly
    towards the root in one and strictly away from it in the other. *)

(** [*(first + i)], for [i] within the vector. *)
Definition vget (v : list entry) (i : nat) (d : entry) : entry := default d (v !! i).

(** [std::__push_heap(first, holeIndex, topIndex, value, comp)]: the hole
    climbs while its parent compares above [value]. *)
Fixpoint push_heap_loop (fuel : nat) (v : list entry) (holeIndex topIndex : nat)
    (value : entry) : list entry :=
  let parent := ((holeIndex - 1) / 2)%nat in
  match fuel with
  | O => <[holeIndex := value]> v
  | S fuel' =>
      if bool_decide (topIndex < holeIndex)%nat && comparator (vget v parent value) value
      then push_heap_loop fuel' (<[holeIndex := vget v parent value]> v) parent topIndex value
      else <[holeIndex := value]> v
  end.

Definition push_heap_aux (v : list entry) (holeIndex topIndex : nat) (value : entry) :=
  push_heap_loop (S holeIndex) v holeIndex topIndex value.

(** [std::push_heap(first, last, comp)]: the new element is the last one. *)
Definition push_heap (v : list entry) : list entry :=
  match last v with
  | Some value => push_heap_aux v (length v - 1) 0 value
  | None => v
  end.

(** The [while] loop of [std::__adjust_heap]: the hole sinks to the child
    that [comp] does not put below the other. *)
Fixpoint adjust_heap_loop (fuel : nat) (v : list entry) (holeIndex secondChild len : nat)
    (value : entry) : list entry * nat * nat :=
  match fuel with
  | O => (v, holeIndex, secondChild)
  | S fuel' =>
      if bool_decide (secondChild < (len - 1) / 2)%nat then
        let sc := (2 * (secondChild + 1))%nat in
        let sc := if comparator (vget v sc value) (vget v (sc - 1) value)
                  then (sc - 1)%nat else sc in
        adjust_heap_loop fuel' (<[holeIndex := vget v sc value]> v) sc sc len value
      else (v, holeIndex, secondChild)
  end.

(** [std::__adjust_heap(first, holeIndex, len, value, comp)]; the lone left
    child of an even [len] is tried after the loop ([(len - 2) / 2] is
    negative in the source when [len] is 0), then [value] climbs back from
    the hole. *)
Definition adjust_heap (v : list entry) (holeIndex len : nat) (value : entry) : list entry :=
  let topIndex := holeIndex in
  let '(v1, hole1, sc1) := adjust_heap_loop len v holeIndex holeIndex len value in
  let '(v2, hole2) :=
    if Nat.even len && bool_decide (2 ≤ len ∧ sc1 = (len - 2) / 2)%nat then
      let sc := (2 * (sc1 + 1))%nat in
      (<[hole1 := vget v1 (sc - 1) value]> v1, (sc - 1)%nat)
    else (v1, hole1) in
  push_heap_aux v2 hole2 topIndex value.

(** [std::pop_heap(first, last, comp)] followed by [pop_back()]. *)
Definition pop_heap (v : list entry) : list entry :=
  match v with
  | first :: _ =>
      if bool_decide (1 < length v)%nat then
        let lst := (length v - 1)%nat in
        let value := vget v lst first in
        adjust_heap (<[lst := first]> v) 0 lst value
      else v
  | [] => v
  end.

Definition heap_take (v : list entry) : option (entry * list entry) :=
  match v with
  | [] => None
  | top :: _ => Some (top, removelast (pop_heap v))
  end.

Definition HeapOpenList : OpenList :=
  {| pq := list entry;
     pq_new := [];
     pq_push := λ v e, push_heap (v ++ [e]);
     pq_take := heap_take |}.

(** *** The open list the specification asks for: least f-cost first, and
    among equal f-costs the entry inserted first. *)

Fixpoint fifo_insert (e : entry) (q : list entry) : list entry :=
  match q with
  | [] => [e]
  | x :: q' => if x.2 <=? e.2 then x :: fifo_insert e q' else e :: q
  end.

Definition FifoOpenList : OpenList :=
  {| pq := list entry;
     pq_new := [];
     pq_push := λ q e, fifo_insert e q;
     pq_take := λ q, match q with [] => None | e :: q' => Some (e, q') end |}.

(** ** A* search: [findPathA] *)

Section AStar.
Context {Q : OpenList}.

Record AStarState : Type := mkAStar {
  openList : pq;
  a_visited : list (list bool);
  a_parents : list (list Point);
  gCost : list (list Z)
}.

Definition heuristic (x y : Z) (goal : Point) : Z :=
  int_wrap (Z.abs (int_wrap (x - px goal)) + Z.abs (int_wrap (y - py goal))).

(** One pass of the [for (i = 0; i < 4; ++i)] body. *)
Definition astar_visit (g : Grid) (goal current : Point) (st : AStarState) (d : Z * Z)
    : Res AStarState :=
  let n := neighbour current d in
  ok <- isValidGridPosition g (px n) (py n);;
  if ok then
    seen <- get2 (a_visited st) (px n) (py n);;
    if negb seen then
      gc <- get2 (gCost st) (px current) (py current);;
      let newGCost := int_wrap (gc + 1) in
      let hCost := heuristic (px n) (py n) goal in
      let fCost := int_wrap (newGCost + hCost) in
      gn <- get2 (gCost st) (px n) (py n);;
      if newGCost <? gn then
        par <- set2 (a_parents st) (px n) (py n) current;;
        gco <- set2 (gCost st) (px n) (py n) newGCost;;
        Ok (mkAStar (pq_push (openList st) (n, fCost)) (a_visited st) par gco)
      else Ok st
    else Ok st
  else Ok st.

Fixpoint astar_loop (fuel : nat) (g : Grid) (start goal : Point) (st : AStarState)
    : Res (list Point) :=
  match fuel with
  | O => OutOfFuel
  | S fuel' =>
      match pq_take (openList st) with
      | None => Ok ([] : list Point)
      | Some ((current, _), rest) =>
          if decide (current = goal) then
            reconstruct walk_fuel (a_parents st) start current []
          else
            vis <- set2 (a_visited st) (px current) (py current) true;;
            st' <- for_each (astar_visit g goal current) dirs
                    (mkAStar rest vis (a_parents st) (gCost st));;
            astar_loop fuel' g start goal st'
      end
  end.

Definition astar_fuel : nat := S (S (4 * cells)).

Definition findPathA (g : Grid) (start goal : Point) : Res (list Point) :=
  gco <- set2 (make2 INT_MAX) (px start) (py start) 0;;
  astar_loop astar_fuel g start goal
    (mkAStar (pq_push pq_new (start, 0)) (make2 false) (make2 (mkPoint (-1) (-1))) gco).

End AStar.
Arguments AStarState : clear implicits.
Arguments findPathA : clear implicits.

(** ** Layout files: [saveLayout] and [loadLayout]

    The file [warehouse_layout.txt] is a list of characters when it can be
    opened for reading; [writable] tells whether opening it for writing
    succeeds. What the two functions print is kept as a message. *)

Record Disk : Type := mkDisk {
  layout_file : option (list ascii);
  writable : bool
}.

Inductive Message : Type :=
| LayoutSaved     (* cout: Layout saved to ... *)
| SaveError       (* cerr: Error saving layout to file! *)
| LayoutLoaded    (* cout: Layout loaded from ... *)
| LoadError.      (* cerr: Error loading layout from file! *)

Definition newline : ascii := ascii_of_nat 10.
Definition space : ascii := ascii_of_nat 32.

(** [ofs << cell]: the decimal digits of an [int], with a minus sign when
    it is negative. *)
Definition print_int (z : Z) : list ascii :=
  String.list_ascii_of_string (DecimalString.NilZero.string_of_int (Z.to_int z)).

Definition write_row (row : list Z) : list ascii :=
  concat (map (λ cell, print_int cell ++ [space]) row) ++ [newline].

Definition write_grid (g : Grid) : list ascii := concat (map write_row g).

Definition saveLayout (g : Grid) (d : Disk) : Disk * Message :=
  if writable d then (mkDisk (Some (write_grid g)) true, LayoutSaved)
  else (d, SaveError).

(** [ifs >> n] for an [int]: white space is skipped, then an optional sign
    and decimal digits are read. [Parsed v rest]: [v] is stored and the
    stream stays good. [Failed (Some v)]: the stream fails after storing [v]
    (0 when no digit was found, the nearest bound when the number does not
    fit in an [int]). [Failed None]: the end of the file came first, the
    stream fails and nothing is stored. *)
Inductive Extraction : Type :=
| Parsed (v : Z) (rest : list ascii)
| Failed (stored : option Z).

Definition INT_MIN : Z := -2147483648.

Definition is_space (c : ascii) : bool :=
  let n := nat_of_ascii c in
  (n =? 32)%nat || ((9 <=? n)%nat && (n <=? 13)%nat).

Definition digit_of (c : ascii) : option Z :=
  let n := Z.of_nat (nat_of_ascii c) in
  if (48 <=? n) && (n <=? 57) then Some (n - 48) else None.

Fixpoint skip_space (s : list ascii) : list ascii :=
  match s with
  | c :: s' => if is_space c then skip_space s' else s
  | [] => []
  end.

Fixpoint read_digits (s : list ascii) (acc : Z) : Z * list ascii :=
  match s with
  | c :: s' =>
      match digit_of c with
      | Some d => read_digits s' (10 * acc + d)
      | None => (acc, s)
      end
  | [] => (acc, [])
  end.

Definition extract_int (s : list ascii) : Extraction :=
  match skip_space s with
  | [] => Failed None
  | c :: s' =>
      let '(negative, body) :=
        if (nat_of_ascii c =? 45)%nat then (true, s')            (* '-' *)
        else if (nat_of_ascii c =? 43)%nat then (false, s')      (* '+' *)
        else (false, c :: s') in
      match body with
      | d :: _ =>
          match digit_of d with
          | Some _ =>
              let '(magnitude, rest) := read_digits body 0 in
              let v := if negative then - magnitude else magnitude in
              if v <? INT_MIN then Failed (Some INT_MIN)
              else if INT_MAX <? v then Failed (Some INT_MAX)
              else Parsed v rest
          | None => Failed (Some 0)
          end
      | [] => Failed (Some 0)
      end
  end.

(** [ifs >> warehouseGrid[i][j]]; the stream is [None] once it has failed,
    and a failed stream stores nothing any more. *)
Definition read_cell (i : Z) (st : Grid * option (list ascii)) (j : Z)
    : Res (Grid * option (list ascii)) :=
  let '(g, ifs) := st in
  _ <- get2 g j i;;
  match ifs with
  | None => Ok (g, None)
  | Some s =>
      match extract_int s with
      | Parsed v rest => g' <- set2 g j i v;; Ok (g', Some rest)
      | Failed (Some v) => g' <- set2 g j i v;; Ok (g', None)
      | Failed None => Ok (g, None)
      end
  end.

Definition loadLayout (d : Disk) (g : Grid) : Res (Grid * Message) :=
  match layout_file d with
  | None => Ok (g, LoadError)
  | Some content =>
      r <- for_each (λ st i, for_each (read_cell i) (seqZ 0 COLS) st)
             (seqZ 0 ROWS) (g, Some content);;
      Ok (r.1, LayoutLoaded)
  end.

(** ** The event loop of [main] *)

(** The state the loop works on: the globals and the locals of [main].
    Of the robot only [gridPos] is kept; its continuous position decides
    nothing but when it arrives at a waypoint, which is an input of
    [advance] below. [searches] is a log of the calls made to the two
    searches (A* or not, start, goal); the program has no such variable. *)
Record State : Type := mkState {
  warehouseGrid : Grid;
  gridPos : Point;
  destination : Point;
  hasDestination : bool;
  useAStar : bool;
  path : list Point;
  currentPathIndex : nat;
  quit : bool;
  disk : Disk;
  console : list Message;
  searches : list (bool * Point * Point)
}.

Inductive Event : Type :=
| Quit                       (* SDL_QUIT *)
| LeftClick (x y : Z)        (* SDL_MOUSEBUTTONDOWN, SDL_BUTTON_LEFT, at pixel (x, y) *)
| RightClick (x y : Z)       (* SDL_MOUSEBUTTONDOWN, SDL_BUTTON_RIGHT *)
| OtherClick (x y : Z)       (* any other button *)
| KeyR | KeyT | KeyS | KeyL  (* SDL_KEYDOWN *)
| OtherKey.

Section Main.
Context {Q : OpenList}.

(** [if (useAStar) path = findPathA(robot.gridPos, destination);
    else path = findPath(robot.gridPos, destination);
    currentPathIndex = 0;] *)
Definition replan (st : State) : Res State :=
  p <- (if useAStar st
        then findPathA Q (warehouseGrid st) (gridPos st) (destination st)
        else findPath (warehouseGrid st) (gridPos st) (destination st));;
  Ok (mkState (warehouseGrid st) (gridPos st) (destination st) (hasDestination st)
        (useAStar st) p 0%nat (quit st) (disk st) (console st)
        (searches st ++ [(useAStar st, gridPos st, destination st)])).

Definition handle_event (st : State) (e : Event) : Res State :=
  match e with
  | Quit =>
      Ok (mkState (warehouseGrid st) (gridPos st) (destination st) (hasDestination st)
            (useAStar st) (path st) (currentPathIndex st) true (disk st) (console st)
            (searches st))
  | LeftClick x y =>
      let gridX := x ÷ GRID_SIZE in
      let gridY := y ÷ GRID_SIZE in
      ok <- isValidGridPosition (warehouseGrid st) gridX gridY;;
      if ok then
        replan (mkState (warehouseGrid st) (gridPos st) (mkPoint gridX gridY) true
                  (useAStar st) (path st) (currentPathIndex st) (quit st) (disk st)
                  (console st) (searches st))
      else Ok st
  | RightClick x y =>
      let gridX := x ÷ GRID_SIZE in
      let gridY := y ÷ GRID_SIZE in
      v <- get2 (warehouseGrid st) gridX gridY;;
      g' <- set2 (warehouseGrid st) gridX gridY (int_wrap (1 - v));;
      let st' := mkState g' (gridPos st) (destination st) (hasDestination st)
                   (useAStar st) (path st) (currentPathIndex st) (quit st) (disk st)
                   (console st) (searches st) in
      if hasDestination st then replan st' else Ok st'
  | OtherClick _ _ => Ok st
  | KeyR =>
      Ok (mkState (warehouseGrid st) (gridPos st) (destination st) false
            (useAStar st) [] (currentPathIndex st) (quit st) (disk st) (console st)
            (searches st))
  | KeyT =>
      let st' := mkState (warehouseGrid st) (gridPos st) (destination st)
                   (hasDestination st) (negb (useAStar st)) (path st)
                   (currentPathIndex st) (quit st) (disk st) (console st)
                   (searches st) in
      if hasDestination st then replan st' else Ok st'
  | KeyS =>
      let '(d, msg) := saveLayout (warehouseGrid st) (disk st) in
      Ok (mkState (warehouseGrid st) (gridPos st) (destination st) (hasDestination st)
            (useAStar st) (path st) (currentPathIndex st) (quit st) d
            (console st ++ [msg]) (searches st))
  | KeyL =>
      r <- loadLayout (disk st) (warehouseGrid st);;
      let st' := mkState r.1 (gridPos st) (destination st) (hasDestination st)
                   (useAStar st) (path st) (currentPathIndex st) (quit st) (disk st)
                   (console st ++ [r.2]) (searches st) in
      if hasDestination st then replan st' else Ok st'
  | OtherKey => Ok st
  end.

(** The movement step that ends every pass of the loop.
    [Robot::moveToward] sets [gridPos] to the waypoint when the robot is
    within one step of it ([arrives], a comparison of doubles) and leaves
    it alone otherwise. *)
Definition advance (arrives : bool) (st : State) : Res State :=
  if hasDestination st && bool_decide (currentPathIndex st < length (path st))%nat then
    match path st !! currentPathIndex st with
    | None => OutOfBounds
    | Some target =>
        let pos := if arrives then target else gridPos st in
        Ok (mkState (warehouseGrid st) pos (destination st) (hasDestination st)
              (useAStar st) (path st)
              (if decide (pos = target) then S (currentPathIndex st)
               else currentPathIndex st)
              (quit st) (disk st) (console st) (searches st))
    end
  else Ok st.

(** One pass of [while (!quit)]: the pending events, then the movement. *)
Definition frame (st : State) (f : list Event * bool) : Res State :=
  st' <- for_each handle_event f.1 st;;
  advance f.2 st'.

(** The loop, over the passes it is given; it stops once [quit] is set. *)
Fixpoint run (frames : list (list Event * bool)) (st : State) : Res State :=
  match frames with
  | [] => Ok st
  | f :: frames' =>
      if quit st then Ok st
      else st' <- frame st f;; run frames' st'
  end.

End Main.

(** The state [main] starts from. *)
Definition initial (d : Disk) : State :=
  mkState (make2 0) (mkPoint 0 0) (mkPoint 0 0) false false [] 0%nat false d [] [].

(** * Properties

    ** Vectors of the fixed grid dimensions *)

Definition inb (x y : Z) : Prop := 0 ≤ x < COLS ∧ 0 ≤ y < ROWS.
Definition inbP (c : Point) : Prop := inb (px c) (py c).

(** The shape every vector of the program has: [ROWS] rows of [COLS] cells. *)
Definition shape {A} (a : list (list A)) : Prop :=
  length a = Z.to_nat ROWS ∧ Forall (λ row, length row = Z.to_nat COLS) a.

Lemma ROWS_eq : ROWS = 15.
Proof. reflexivity. Qed.

Lemma COLS_eq : COLS = 20.
Proof. reflexivity. Qed.

Lemma cells_eq : cells = 300%nat.
Proof. reflexivity. Qed.

(** Linear arithmetic that knows the grid dimensions. *)
Ltac grid_lia :=
  unfold inbP, inb in *; pose proof ROWS_eq; pose proof COLS_eq; lia.

Lemma inb_iff x y : inb x y ↔ 0 ≤ x < 20 ∧ 0 ≤ y < 15.
Proof. unfold inb. rewrite ROWS_eq, COLS_eq. tauto. Qed.

Lemma int_wrap_small z : -2147483648 ≤ z < 2147483648 → int_wrap z = z.
Proof.
  intros Hz. unfold int_wrap.
  rewrite Z.mod_small by lia. lia.
Qed.

Lemma shape_row {A} (a : list (list A)) y :
  shape a → 0 ≤ y < ROWS → ∃ row, a !! Z.to_nat y = Some row ∧ length row = Z.to_nat COLS.
Proof.
  intros [Hlen Hrows] Hy.
  destruct (lookup_lt_is_Some_2 a (Z.to_nat y)) as [row Hrow]; [lia|].
  exists row. split; [done|].
  by eapply (Forall_lookup_1 _ _ _ _ Hrows).
Qed.

Lemma get2_inb {A} (a : list (list A)) x y :
  shape a → inb x y → ∃ v, get2 a x y = Ok v.
Proof.
  intros Hs [Hx Hy]. unfold get2.
  destruct (shape_row a y Hs Hy) as (row & -> & Hlen).
  destruct (lookup_lt_is_Some_2 row (Z.to_nat x)) as [v ->]; [lia|].
  replace (0 <=? y) with true by lia. replace (0 <=? x) with true by lia.
  by exists v.
Qed.

Lemma get2_Ok_inb {A} (a : list (list A)) x y v :
  shape a → get2 a x y = Ok v → inb x y.
Proof.
  intros [Hlen Hrows]. unfold get2.
  destruct (0 <=? y) eqn:Hy, (0 <=? x) eqn:Hx; simpl; try done.
  destruct (a !! Z.to_nat y) as [row|] eqn:Hrow; [|done].
  destruct (row !! Z.to_nat x) as [w|] eqn:Hw; [|done].
  intros _. apply lookup_lt_Some in Hw as Hw'. apply lookup_lt_Some in Hrow as Hrow'.
  rewrite (Forall_lookup_1 _ _ _ _ Hrows Hrow) in Hw'.
  unfold inb. lia.
Qed.

Lemma set2_inb {A} (a : list (list A)) x y v :
  shape a → inb x y → ∃ a', set2 a x y v = Ok a'.
Proof.
  intros Hs [Hx Hy]. unfold set2.
  destruct (shape_row a y Hs Hy) as (row & -> & Hlen).
  replace (0 <=? y) with true by lia. replace (0 <=? x) with true by lia. simpl.
  destruct (decide _) as [|Hn]; [eauto|]. lia.
Qed.

Lemma set2_shape {A} (a a' : list (list A)) x y v :
  shape a → set2 a x y v = Ok a' → shape a'.
Proof.
  intros [Hlen Hrows]. unfold set2.
  destruct ((0 <=? y) && (0 <=? x)); [|done].
  destruct (a !! Z.to_nat y) as [row|] eqn:Hrow; [|done].
  destruct (decide _); [|done]. intros [= <-]. split.
  - by rewrite length_insert.
  - apply Forall_insert; [done|]. rewrite length_insert.
    by eapply (Forall_lookup_1 _ _ _ _ Hrows).
Qed.

Lemma get2_set2_eq {A} (a a' : list (list A)) x y v :
  set2 a x y v = Ok a' → get2 a' x y = Ok v.
Proof.
  unfold set2, get2.
  destruct ((0 <=? y) && (0 <=? x)); [|done].
  destruct (a !! Z.to_nat y) as [row|] eqn:Hrow; [|done].
  destruct (decide _) as [Hlt|]; [|done]. intros [= <-].
  apply lookup_lt_Some in Hrow as Hrow'.
  rewrite list_lookup_insert_eq by done.
  by rewrite list_lookup_insert_eq by done.
Qed.

Lemma get2_set2_ne {A} (a a' : list (list A)) x y v x' y' :
  set2 a x y v = Ok a' → x' ≠ x ∨ y' ≠ y → get2 a' x' y' = get2 a x' y'.
Proof.
  unfold set2, get2.
  destruct (0 <=? y) eqn:Hy, (0 <=? x) eqn:Hx; simpl; try done.
  destruct (a !! Z.to_nat y) as [row|] eqn:Hrow; [|done].
  destruct (decide _) as [Hlt|]; [|done]. intros [= <-] Hne.
  destruct (0 <=? y') eqn:Hy', (0 <=? x') eqn:Hx'; simpl; try done.
  destruct (decide (Z.to_nat y' = Z.to_nat y)) as [Heq|Hney].
  - rewrite Heq, Hrow. apply lookup_lt_Some in Hrow as Hrow'.
    rewrite list_lookup_insert_eq by done.
    rewrite list_lookup_insert_ne by lia. done.
  - rewrite list_lookup_insert_ne by done. done.
Qed.

Lemma make2_shape {A} (v : A) : shape (make2 v).
Proof.
  split.
  - unfold make2. by rewrite length_replicate.
  - unfold make2. apply Forall_replicate. by rewrite length_replicate.
Qed.

Lemma get2_make2 {A} (v : A) x y : inb x y → get2 (make2 v) x y = Ok v.
Proof.
  intros [Hx Hy]. unfold get2, make2.
  replace (0 <=? y) with true by lia. replace (0 <=? x) with true by lia.
  rewrite andb_true_l.
  rewrite lookup_replicate_2 by lia.
  by rewrite lookup_replicate_2 by lia.
Qed.

(** ** The grid as a graph *)

(** Two cells one 4-connected step apart. *)
Definition adjacent (a b : Point) : Prop :=
  Z.abs (px a - px b) + Z.abs (py a - py b) = 1.

Definition offset (c : Point) (d : Z * Z) : Point := mkPoint (px c + d.1) (py c + d.2).

(** A free cell of the grid, and a cell a search may step on. *)
Definition free (g : Grid) (c : Point) : Prop := get2 g (px c) (py c) = Ok 0.
Definition traversable (g : Grid) (c : Point) : Prop :=
  isValidGridPosition g (px c) (py c) = Ok true.

(** [route g a p]: the cells of [p], in order, are a walk from [a] ([a] itself
    left out) over traversable cells, each one step from the one before. *)
Fixpoint route (g : Grid) (a : Point) (p : list Point) : Prop :=
  match p with
  | [] => True
  | b :: p' => adjacent a b ∧ traversable g b ∧ route g b p'
  end.

(** [p] is a route from [s] that ends at [e] (the empty route ends at [s]). *)
Definition route_to (g : Grid) (s e : Point) (p : list Point) : Prop :=
  route g s p ∧ last (s :: p) = Some e.

(** [reach g s n c]: some route of [n] steps leads from [s] to [c]. *)
Inductive reach (g : Grid) (s : Point) : nat → Point → Prop :=
| reach_here : reach g s 0 s
| reach_step n c c' :
    reach g s n c → adjacent c c' → traversable g c' → reach g s (S n) c'.

Lemma dirs_elem d : d ∈ dirs ↔ d = (0, -1) ∨ d = (1, 0) ∨ d = (0, 1) ∨ d = (-1, 0).
Proof.
  unfold dirs, dx, dy. simpl. rewrite !elem_of_cons, elem_of_nil. tauto.
Qed.

Lemma adjacent_offset a b : adjacent a b ↔ ∃ d, d ∈ dirs ∧ b = offset a d.
Proof.
  unfold adjacent, offset. split.
  - intros H. destruct a as [ax ay], b as [bx by_]. simpl in *.
    assert ((bx = ax ∧ by_ = ay - 1) ∨ (bx = ax + 1 ∧ by_ = ay) ∨
            (bx = ax ∧ by_ = ay + 1) ∨ (bx = ax - 1 ∧ by_ = ay)) as Hc by lia.
    destruct Hc as [ [-> ->] | [ [-> ->] | [ [-> ->] | [-> ->] ] ] ].
    + exists (0, -1). rewrite dirs_elem. split; [tauto|]. simpl. f_equal; lia.
    + exists (1, 0). rewrite dirs_elem. split; [tauto|]. simpl. f_equal; lia.
    + exists (0, 1). rewrite dirs_elem. split; [tauto|]. simpl. f_equal; lia.
    + exists (-1, 0). rewrite dirs_elem. split; [tauto|]. simpl. f_equal; lia.
  - intros (d & Hd & ->). apply dirs_elem in Hd.
    destruct Hd as [-> | [-> | [-> | ->] ] ]; cbn [px py fst snd]; lia.
Qed.

Lemma neighbour_offset c d : inbP c → d ∈ dirs → neighbour c d = offset c d.
Proof.
  intros Hc Hd. apply dirs_elem in Hd.
  unfold neighbour, offset.
  destruct Hd as [-> | [-> | [-> | ->] ] ]; cbn [fst snd];
    (rewrite (int_wrap_small (px c + _)) by grid_lia);
    (rewrite (int_wrap_small (py c + _)) by grid_lia); done.
Qed.

Lemma isValid_total g x y : shape g → ∃ b, isValidGridPosition g x y = Ok b.
Proof.
  intros Hg. unfold isValidGridPosition.
  destruct ((x >=? 0) && (x <? COLS) && (y >=? 0) && (y <? ROWS)) eqn:Hb; [|eauto].
  destruct (get2_inb g x y Hg) as [v ->]; [unfold inb; lia|]. simpl. eauto.
Qed.

Lemma isValid_true_inb g x y : isValidGridPosition g x y = Ok true → inb x y.
Proof.
  unfold isValidGridPosition.
  destruct ((x >=? 0) && (x <? COLS) && (y >=? 0) && (y <? ROWS)) eqn:Hb; [|done].
  intros _. unfold inb. lia.
Qed.

Lemma traversable_iff g c : traversable g c ↔ inbP c ∧ free g c.
Proof.
  unfold traversable, free, inbP. split.
  - intros H. split; [by eapply isValid_true_inb|].
    revert H. unfold isValidGridPosition.
    destruct (_ && _); [|done].
    destruct (get2 g (px c) (py c)) as [v| |]; simpl; try done.
    intros [= Hv]. f_equal. lia.
  - intros [Hin Hf]. unfold isValidGridPosition.
    replace ((px c >=? 0) && (px c <? COLS) && (py c >=? 0) && (py c <? ROWS))
      with true by (unfold inb in Hin; lia).
    by rewrite Hf.
Qed.

Lemma traversable_inb g c : traversable g c → inbP c.
Proof. intros H. by apply traversable_iff in H as [? _]. Qed.

Lemma route_app g a p c :
  route g a p → (∃ b, last (a :: p) = Some b ∧ adjacent b c) → traversable g c →
  route g a (p ++ [c]).
Proof.
  revert a. induction p as [|b p IH]; intros a Hr (e & Hl & Hadj) Hc; simpl in *.
  - injection Hl as ->. done.
  - destruct Hr as (Hab & Hb & Hr). split_and!; [done..|].
    apply IH; [done| |done]. exists e. split; [|done].
    by destruct p.
Qed.

Lemma reach_cons g s b n e :
  adjacent s b → traversable g b → reach g b n e → reach g s (S n) e.
Proof.
  intros Hsb Hb Hr. induction Hr as [|n c c' _ IH Hadj Hc'].
  - by eapply reach_step; [apply reach_here|..].
  - by eapply reach_step.
Qed.

Lemma route_reach g s e p : route_to g s e p → reach g s (length p) e.
Proof.
  revert s. induction p as [|b p IH]; intros s [Hr Hl]; simpl in *.
  - injection Hl as ->. constructor.
  - destruct Hr as (Hab & Hb & Hr). eapply reach_cons; [done..|].
    apply IH. split; [done|]. by destruct p.
Qed.

Lemma reach_route g s n e : reach g s n e → ∃ p, route_to g s e p ∧ length p = n.
Proof.
  induction 1 as [|n c c' _ (p & [Hr Hl] & Hlen) Hadj Hc'].
  - exists []. by repeat split.
  - exists (p ++ [c']). split; [split|].
    + apply route_app; eauto.
    + change (s :: p ++ [c']) with ((s :: p) ++ [c']). by rewrite last_snoc.
    + rewrite length_app. simpl. lia.
Qed.

(** Every cell lies in the enumeration of the grid, which bounds the length
    of a duplicate-free list of cells. *)
Definition all_cells : list Point :=
  x ← seqZ 0 COLS; y ← seqZ 0 ROWS; [mkPoint x y].

Lemma all_cells_length : length all_cells = cells.
Proof. reflexivity. Qed.

Lemma elem_of_all_cells c : inbP c → c ∈ all_cells.
Proof.
  intros [Hx Hy]. unfold all_cells.
  apply list_elem_of_bind. exists (px c). split; [|apply elem_of_seqZ; lia].
  apply list_elem_of_bind. exists (py c). split; [|apply elem_of_seqZ; lia].
  destruct c. simpl. apply list_elem_of_singleton. done.
Qed.

Lemma nodup_cells_length (l : list Point) :
  NoDup l → (∀ c, c ∈ l → inbP c) → (length l ≤ cells)%nat.
Proof.
  intros Hnd Hin. rewrite <- all_cells_length.
  apply submseteq_length, NoDup_submseteq; [done|].
  intros c Hc. by apply elem_of_all_cells, Hin.
Qed.

Lemma point_neq (c n : Point) : c ≠ n → px c ≠ px n ∨ py c ≠ py n.
Proof.
  intros Hne. destruct c as [cx cy], n as [nx ny]. simpl.
  destruct (decide (cx = nx)) as [->|]; [|auto].
  destruct (decide (cy = ny)) as [->|]; [|auto]. done.
Qed.

(** ** What a search owes its caller

    Either the goal can be reached and the path is a shortest route to it
    that leaves the start cell out, or it cannot and the path is empty. *)
Definition search_post (g : Grid) (start goal : Point) (p : list Point) : Prop :=
  ((∃ n, reach g start n goal) ∧ route_to g start goal p ∧ (start ∉ p) ∧
   ∀ n, reach g start n goal → (length p ≤ n)%nat)
  ∨ ((∀ n, ¬ reach g start n goal) ∧ p = []).

(** ** Walking the parent pointers back to the start *)

Section Reconstruct.
Variables (g : Grid) (start : Point) (par : list (list Point)).
Variables (known : Point → Prop) (lev : Point → nat).
Hypothesis lev_start : lev start = 0%nat.
Hypothesis chain : ∀ c, known c → c ≠ start →
  traversable g c ∧
  ∃ p, get2 par (px c) (py c) = Ok p ∧ known p ∧ adjacent p c ∧ lev c = S (lev p).

Lemma reconstruct_chain k : ∀ c acc fuel,
  known c → lev c = k → (k < fuel)%nat →
  ∃ fwd, reconstruct fuel par start c acc = Ok (fwd ++ rev acc) ∧
         route_to g start c fwd ∧ length fwd = k ∧ start ∉ fwd.
Proof.
  induction k as [|k IH]; intros c acc fuel Hc Hlev Hfuel;
    (destruct fuel as [|fuel]; [lia|]); cbn [reconstruct].
  - destruct (decide (c = start)) as [->|Hne].
    + exists []. split_and!; [done| |done|apply not_elem_of_nil]. by split.
    + destruct (chain c Hc Hne) as (_ & p & _ & _ & _ & Hp). lia.
  - destruct (decide (c = start)) as [->|Hne]; [lia|].
    destruct (chain c Hc Hne) as (Ht & p & Hp & Hkp & Hadj & Hl).
    rewrite Hp. cbn [bind].
    destruct (IH p (acc ++ [c]) fuel Hkp) as (fwd & Hrec & [Hr Hlast] & Hlen & Hns);
      [lia..|].
    exists (fwd ++ [c]). split_and!.
    + rewrite Hrec, rev_unit, <- app_assoc. done.
    + split.
      * apply route_app; [done| |done]. by exists p.
      * change (start :: fwd ++ [c]) with ((start :: fwd) ++ [c]). apply last_snoc.
    + rewrite length_app. simpl. lia.
    + intros Hin. apply elem_of_app in Hin as [Hin|Hin]; [done|].
      apply list_elem_of_singleton in Hin. done.
Qed.

End Reconstruct.

(** ** Breadth-first search: the loop invariant *)

(** The queue holds its cells by non-decreasing level. *)
Fixpoint mono (lev : Point → nat) (l : list Point) : Prop :=
  match l with
  | [] => True
  | a :: l' => (∀ b, b ∈ l' → (lev a ≤ lev b)%nat) ∧ mono lev l'
  end.

Lemma mono_snoc lev l n :
  mono lev l → (∀ a, a ∈ l → (lev a ≤ lev n)%nat) → mono lev (l ++ [n]).
Proof.
  induction l as [|a l IH]; simpl; intros Hm Hle.
  - split; [|done]. intros b Hb. by apply elem_of_nil in Hb.
  - destruct Hm as [Ha Hm]. split.
    + intros b Hb. apply elem_of_app in Hb as [Hb|Hb]; [by apply Ha|].
      apply list_elem_of_singleton in Hb as ->. apply Hle. by left.
    + apply IH; [done|]. intros b Hb. apply Hle. by right.
Qed.

Lemma mono_ext lev lev' l :
  (∀ a, a ∈ l → lev' a = lev a) → mono lev l → mono lev' l.
Proof.
  induction l as [|a l IH]; simpl; [done|]. intros Heq [Ha Hm]. split.
  - intros b Hb. rewrite !Heq; [by apply Ha|by right|by left].
  - apply IH; [|done]. intros b Hb. apply Heq. by right.
Qed.

Section BfsCorrect.
Variables (g : Grid) (start goal : Point).
Hypothesis Hg : shape g.
Hypothesis Hstart : inbP start.

(** [popped]: the cells taken from the queue so far, in order; [lev]: the
    level at which each seen cell was found; [cur]: the cell being expanded
    and [todo] the offsets it has still to try. *)
Record bfs_inv (popped : list Point) (lev : Point → nat) (cur : Point)
    (todo : list (Z * Z)) (st : BfsState) : Prop := mk_bfs_inv {
  bi_shape_v : shape (visited st);
  bi_shape_p : shape (parents st);
  bi_nodup : NoDup (popped ++ queue st);
  bi_inb : ∀ c, c ∈ popped ++ queue st → inbP c;
  bi_vis : ∀ c, inbP c →
    (get2 (visited st) (px c) (py c) = Ok true ↔ c ∈ popped ++ queue st);
  bi_start : start ∈ popped ++ queue st;
  bi_lev0 : lev start = 0%nat;
  bi_par : ∀ c, c ∈ popped ++ queue st → c ≠ start →
    traversable g c ∧
    ∃ p, get2 (parents st) (px c) (py c) = Ok p ∧ p ∈ popped ∧
         adjacent p c ∧ lev c = S (lev p);
  bi_sound : ∀ c, c ∈ popped ++ queue st → reach g start (lev c) c;
  bi_min : ∀ c n, c ∈ popped ++ queue st → reach g start n c → (lev c ≤ n)%nat;
  bi_compl : ∀ c d, c ∈ popped → d ∈ dirs → traversable g (offset c d) →
    offset c d ∈ popped ++ queue st ∨ (c = cur ∧ d ∈ todo);
  bi_cur : todo ≠ [] → cur ∈ popped;
  bi_level : ∀ q, q ∈ queue st → (lev cur ≤ lev q ≤ S (lev cur))%nat;
  bi_mono : mono lev (queue st);
  bi_goal : goal ∉ popped;
  bi_bound : ∀ c, c ∈ popped ++ queue st → (lev c < length (popped ++ queue st))%nat
}.

(** A cell not seen yet lies beyond the level of the cell being expanded. *)
Lemma bfs_frontier popped lev cur todo st n c :
  bfs_inv popped lev cur todo st → reach g start n c →
  c ∈ popped ++ queue st ∨ (lev cur < n)%nat.
Proof.
  intros Hinv Hr. induction Hr as [|n c c' Hr IH Hadj Hc'].
  - left. apply (bi_start _ _ _ _ _ Hinv).
  - destruct IH as [Hc|Hlt]; [|right; lia].
    pose proof (bi_min _ _ _ _ _ Hinv c n Hc Hr) as Hmin.
    apply elem_of_app in Hc as [Hc|Hc].
    + apply adjacent_offset in Hadj as (d & Hd & ->).
      destruct (bi_compl _ _ _ _ _ Hinv c d Hc Hd Hc') as [?|[-> _]]; [by left|].
      right. lia.
    + right. pose proof (bi_level _ _ _ _ _ Hinv c Hc). lia.
Qed.

(** When the queue has run empty every reachable cell has been popped. *)
Lemma bfs_closed popped lev cur st n c :
  bfs_inv popped lev cur [] st → queue st = [] → reach g start n c → c ∈ popped.
Proof.
  intros Hinv Hq Hr. induction Hr as [|n c c' Hr IH Hadj Hc'].
  - pose proof (bi_start _ _ _ _ _ Hinv) as Hs. rewrite Hq, app_nil_r in Hs. done.
  - apply adjacent_offset in Hadj as (d & Hd & ->).
    destruct (bi_compl _ _ _ _ _ Hinv c d IH Hd Hc') as [Hin|[_ Hin]].
    + by rewrite Hq, app_nil_r in Hin.
    + by apply elem_of_nil in Hin.
Qed.

Lemma bfs_visit_inv popped lev cur d todo st :
  bfs_inv popped lev cur (d :: todo) st → d ∈ dirs →
  ∃ st' lev', bfs_visit g cur st d = Ok st' ∧ bfs_inv popped lev' cur todo st'.
Proof.
  intros Hinv Hd.
  assert (Hcur : cur ∈ popped) by (by apply (bi_cur _ _ _ _ _ Hinv)).
  assert (Hcin : inbP cur).
  { apply (bi_inb _ _ _ _ _ Hinv), elem_of_app. by left. }
  unfold bfs_visit. rewrite (neighbour_offset _ _ Hcin Hd).
  set (n := offset cur d).
  destruct (isValid_total g (px n) (py n) Hg) as [b Hb]. rewrite Hb. cbn [bind].
  destruct b.
  2: { exists st, lev. split; [done|]. destruct Hinv. split; try done.
       intros c d' Hc Hd' Ht.
       destruct (bi_compl0 c d' Hc Hd' Ht) as [?|[-> Hin]]; [by left|].
       apply elem_of_cons in Hin as [->|Hin]; [|by right].
       unfold traversable in Ht. fold n in Ht. congruence. }
  assert (Hn : inbP n) by (by apply isValid_true_inb in Hb).
  destruct (get2_inb (visited st) (px n) (py n) (bi_shape_v _ _ _ _ _ Hinv) Hn)
    as [seen Hseen].
  rewrite Hseen. cbn [bind]. destruct seen; cbn [negb].
  { exists st, lev. split; [done|]. destruct Hinv. split; try done.
    intros c d' Hc Hd' Ht.
    destruct (bi_compl0 c d' Hc Hd' Ht) as [?|[-> Hin]]; [by left|].
    apply elem_of_cons in Hin as [->|Hin]; [|by right].
    left. by apply bi_vis0. }
  assert (Hnew : n ∉ popped ++ queue st).
  { intros Hin. apply (bi_vis _ _ _ _ _ Hinv n Hn) in Hin. congruence. }
  destruct (set2_inb (visited st) (px n) (py n) true (bi_shape_v _ _ _ _ _ Hinv) Hn)
    as [vis Hvis].
  destruct (set2_inb (parents st) (px n) (py n) cur (bi_shape_p _ _ _ _ _ Hinv) Hn)
    as [par Hpar].
  rewrite Hvis. cbn [bind]. rewrite Hpar. cbn [bind].
  exists (mkBfs (queue st ++ [n]) vis par),
    (λ c, if decide (c = n) then S (lev cur) else lev c).
  split; [done|].
  assert (Hmem : ∀ c, c ∈ popped ++ queue st ++ [n] ↔ c ∈ popped ++ queue st ∨ c = n).
  { intros c. rewrite app_assoc, elem_of_app, list_elem_of_singleton. done. }
  assert (Hold : ∀ c, c ∈ popped ++ queue st → c ≠ n) by (intros c Hc ->; done).
  assert (Hcn : cur ≠ n) by (apply Hold, elem_of_app; by left).
  assert (Hfront : ∀ m, reach g start m n → (S (lev cur) ≤ m)%nat).
  { intros m Hm. destruct (bfs_frontier _ _ _ _ _ _ _ Hinv Hm); [done|lia]. }
  destruct Hinv. split; cbn [queue visited parents].
  - by eapply set2_shape.
  - by eapply set2_shape.
  - rewrite app_assoc. apply NoDup_app. split_and!; [done| |apply NoDup_singleton].
    intros c Hc Hc'. apply list_elem_of_singleton in Hc'. by apply (Hold c).
  - intros c Hc. apply Hmem in Hc as [Hc| ->]; [by apply bi_inb0|done].
  - intros c Hc. rewrite Hmem. destruct (decide (c = n)) as [->|Hne].
    + rewrite (get2_set2_eq _ _ _ _ _ Hvis). split; [by right|done].
    + rewrite (get2_set2_ne _ _ _ _ _ _ _ Hvis (point_neq _ _ Hne)).
      rewrite bi_vis0 by done. split; [by left|]. by intros [?|?].
  - apply Hmem. by left.
  - rewrite decide_False; [done|]. by apply Hold.
  - intros c Hc Hcs. apply Hmem in Hc as [Hc| ->].
    + destruct (bi_par0 c Hc Hcs) as (Ht & p & Hp & Hpin & Hadj & Hlev).
      split; [done|]. exists p.
      rewrite (get2_set2_ne _ _ _ _ _ _ _ Hpar (point_neq _ _ (Hold c Hc))).
      split_and!; [done..|].
      rewrite decide_False by (by apply Hold).
      rewrite decide_False; [done|]. apply Hold, elem_of_app. by left.
    + split; [done|]. exists cur. rewrite (get2_set2_eq _ _ _ _ _ Hpar).
      split_and!; [done..| |].
      * apply adjacent_offset. by exists d.
      * rewrite decide_True by done. by rewrite decide_False.
  - intros c Hc. apply Hmem in Hc as [Hc| ->].
    + rewrite decide_False by (by apply Hold). by apply bi_sound0.
    + rewrite decide_True by done. eapply reach_step.
      * apply bi_sound0, elem_of_app. left. apply Hcur.
      * apply adjacent_offset. by exists d.
      * done.
  - intros c m Hc Hm. apply Hmem in Hc as [Hc| ->].
    + rewrite decide_False by (by apply Hold). by apply bi_min0.
    + rewrite decide_True by done. by apply Hfront.
  - intros c d' Hc Hd' Ht. rewrite Hmem.
    destruct (bi_compl0 c d' Hc Hd' Ht) as [?|[-> Hin]]; [by left; left|].
    apply elem_of_cons in Hin as [->|Hin]; [left; by right|by right].
  - intros _. done.
  - intros q Hq. rewrite (decide_False (P := cur = n)) by done.
    apply elem_of_app in Hq as [Hq|Hq].
    + rewrite decide_False; [by apply bi_level0|].
      apply Hold, elem_of_app. by right.
    + apply list_elem_of_singleton in Hq as ->. rewrite decide_True by done. lia.
  - apply mono_snoc.
    + eapply mono_ext; [|done]. intros a Ha. cbn beta.
      rewrite decide_False; [done|]. apply Hold, elem_of_app. by right.
    + intros a Ha. rewrite (decide_True (P := n = n)) by done.
      rewrite decide_False by (apply Hold, elem_of_app; by right).
      pose proof (bi_level0 a Ha). lia.
  - done.
  - intros c Hc. rewrite app_assoc, length_app. simpl.
    apply Hmem in Hc as [Hc| ->].
    + rewrite decide_False by (by apply Hold). pose proof (bi_bound0 c Hc). lia.
    + rewrite decide_True by done.
      assert (lev cur < length (popped ++ queue st))%nat; [|lia].
      apply bi_bound0, elem_of_app. by left.
Qed.

Lemma bfs_for_each_inv popped cur todo : ∀ st lev,
  bfs_inv popped lev cur todo st → (∀ d, d ∈ todo → d ∈ dirs) →
  ∃ st' lev', for_each (bfs_visit g cur) todo st = Ok st' ∧
              bfs_inv popped lev' cur [] st'.
Proof.
  induction todo as [|d todo IH]; intros st lev Hinv Hdirs; cbn [for_each].
  - by exists st, lev.
  - destruct (bfs_visit_inv _ _ _ _ _ _ Hinv) as (st1 & lev1 & Hv & Hinv1).
    { apply Hdirs. by left. }
    rewrite Hv. cbn [bind]. apply (IH st1 lev1 Hinv1).
    intros d' Hd'. apply Hdirs. by right.
Qed.

Lemma bfs_pop_inv popped lev cur c rest vis par :
  bfs_inv popped lev cur [] (mkBfs (c :: rest) vis par) → c ≠ goal →
  bfs_inv (popped ++ [c]) lev c dirs (mkBfs rest vis par).
Proof.
  intros Hinv Hcg.
  assert (Happ : (popped ++ [c]) ++ rest = popped ++ c :: rest).
  { by rewrite <- app_assoc. }
  destruct Hinv. cbn [queue visited parents] in *.
  split; cbn [queue visited parents]; rewrite ?Happ; try done.
  - intros c' Hc' Hne. destruct (bi_par0 c' Hc' Hne) as (Ht & p & Hp & Hpin & Hrest).
    split; [done|]. exists p. split_and!; [done| |apply Hrest..]. apply elem_of_app. by left.
  - intros c' d Hc' Hd Ht. apply elem_of_app in Hc' as [Hc'|Hc'].
    + destruct (bi_compl0 c' d Hc' Hd Ht) as [?|[_ Hin]]; [by left|].
      by apply elem_of_nil in Hin.
    + apply list_elem_of_singleton in Hc' as ->. by right.
  - intros _. apply elem_of_app. right. by left.
  - intros q Hq. destruct bi_mono0 as [Hhead _].
    pose proof (Hhead q Hq).
    pose proof (bi_level0 c ltac:(by left)).
    pose proof (bi_level0 q ltac:(by right)). lia.
  - by destruct bi_mono0.
  - intros Hin. apply elem_of_app in Hin as [Hin|Hin]; [done|].
    apply list_elem_of_singleton in Hin. done.
Qed.

Lemma bfs_seen_bound popped lev cur todo st :
  bfs_inv popped lev cur todo st → (length (popped ++ queue st) ≤ cells)%nat.
Proof.
  intros Hinv. apply nodup_cells_length.
  - apply (bi_nodup _ _ _ _ _ Hinv).
  - apply (bi_inb _ _ _ _ _ Hinv).
Qed.

Lemma bfs_loop_post fuel : ∀ popped lev cur st,
  bfs_inv popped lev cur [] st → (cells < length popped + fuel)%nat →
  ∃ p, bfs_loop fuel g start goal st = Ok p ∧ search_post g start goal p.
Proof.
  induction fuel as [|fuel IH]; intros popped lev cur st Hinv Hfuel.
  - pose proof (bfs_seen_bound _ _ _ _ _ Hinv) as Hb.
    rewrite length_app in Hb. lia.
  - cbn [bfs_loop]. destruct st as [q vis par]. cbn [queue visited parents].
    destruct q as [|c rest].
    + exists []. split; [done|]. right. split; [|done].
      intros n Hn. apply (bi_goal _ _ _ _ _ Hinv).
      by eapply bfs_closed.
    + pose proof (bfs_seen_bound _ _ _ _ _ Hinv) as Hb. cbn [queue] in Hb.
      assert (Hcin : c ∈ popped ++ c :: rest).
      { apply elem_of_app. right. by left. }
      destruct (decide (c = goal)) as [->|Hne].
      * destruct (reconstruct_chain g start par (λ c, c ∈ popped ++ goal :: rest) lev
                    (bi_lev0 _ _ _ _ _ Hinv)) with (k := lev goal) (c := goal)
          (acc := @nil Point) (fuel := walk_fuel)
          as (fwd & Hrec & Hroute & Hlen & Hns); [|done|done| |].
        { intros c Hc Hcs.
          destruct (bi_par _ _ _ _ _ Hinv c Hc Hcs) as (Ht & p & Hp & Hpin & Hrest).
          split; [done|]. exists p. split_and!; [done| |apply Hrest..].
          apply elem_of_app. by left. }
        { pose proof (bi_bound _ _ _ _ _ Hinv goal Hcin) as Hl.
          cbn [queue] in Hl. unfold walk_fuel. lia. }
        exists fwd. rewrite Hrec. simpl. rewrite app_nil_r. split; [done|].
        left. split_and!; [|done..|].
        -- exists (lev goal). by apply (bi_sound _ _ _ _ _ Hinv).
        -- intros n Hn. rewrite Hlen. by apply (bi_min _ _ _ _ _ Hinv).
      * pose proof (bfs_pop_inv _ _ _ _ _ _ _ Hinv Hne) as Hinv1.
        destruct (bfs_for_each_inv _ _ _ _ _ Hinv1) as (st' & lev' & Hfe & Hinv');
          [done|].
        rewrite Hfe. cbn [bind]. apply (IH _ _ _ _ Hinv').
        rewrite length_app. simpl. lia.
Qed.

(** [findPath] returns, and what it returns meets [search_post]. *)
Lemma findPath_post :
  ∃ p, findPath g start goal = Ok p ∧ search_post g start goal p.
Proof.
  unfold findPath.
  destruct (set2_inb (make2 false) (px start) (py start) true (make2_shape _) Hstart)
    as [vis Hvis].
  rewrite Hvis. cbn [bind].
  apply (bfs_loop_post bfs_fuel [] (λ _, 0%nat) start); [|unfold bfs_fuel; simpl; lia].
  split; cbn [queue visited parents app].
  - eapply set2_shape; [|exact Hvis]. apply make2_shape.
  - apply make2_shape.
  - apply NoDup_singleton.
  - intros c Hc. by apply list_elem_of_singleton in Hc as ->.
  - intros c Hc. rewrite list_elem_of_singleton.
    destruct (decide (c = start)) as [->|Hne].
    + by rewrite (get2_set2_eq _ _ _ _ _ Hvis).
    + rewrite (get2_set2_ne _ _ _ _ _ _ _ Hvis (point_neq _ _ Hne)).
      rewrite get2_make2 by done. split; [done|]. intros ->. done.
  - by left.
  - done.
  - intros c Hc Hne. by apply list_elem_of_singleton in Hc.
  - intros c Hc. apply list_elem_of_singleton in Hc as ->. constructor.
  - intros. lia.
  - intros c d Hc. by apply elem_of_nil in Hc.
  - done.
  - intros q Hq. lia.
  - split; [|done]. intros b Hb. by apply elem_of_nil in Hb.
  - apply not_elem_of_nil.
  - intros c Hc. simpl. lia.
Qed.

End BfsCorrect.

(** ** The contract of [std::priority_queue]

    [pq_elems] is the multiset of entries held (as a list up to permutation)
    and [pq_ok] the representation invariant. What the C++ standard promises,
    and all the searches below rely on: [top] is an entry no other entry
    beats under the comparator, and [pop] removes that entry alone. *)
Class OpenListLaws (Q : OpenList) : Type := {
  pq_ok : pq → Prop;
  pq_elems : pq → list entry;
  pq_new_ok : pq_ok pq_new;
  pq_new_elems : pq_elems pq_new = [];
  pq_push_ok q e : pq_ok q → pq_ok (pq_push q e);
  pq_push_elems q e : pq_ok q → pq_elems (pq_push q e) ≡ₚ e :: pq_elems q;
  pq_take_none q : pq_ok q → pq_take q = None → pq_elems q = [];
  pq_take_some q e q' : pq_ok q → pq_take q = Some (e, q') →
    pq_ok q' ∧ pq_elems q ≡ₚ e :: pq_elems q' ∧
    ∀ e', e' ∈ pq_elems q → e.2 ≤ e'.2
}.

(** ** A*: the loop invariant *)

(** The g-cost recorded for a cell ([INT_MAX] where none is). *)
Definition gat (a : list (list Z)) (c : Point) : Z :=
  match get2 a (px c) (py c) with
  | Ok v => v
  | _ => INT_MAX
  end.

Definition manhattan (c goal : Point) : Z :=
  Z.abs (px c - px goal) + Z.abs (py c - py goal).

Lemma heuristic_manhattan c goal :
  inbP c → inbP goal → heuristic (px c) (py c) goal = manhattan c goal.
Proof.
  intros Hc Hg. unfold heuristic, manhattan.
  rewrite (int_wrap_small (px c - px goal)) by grid_lia.
  rewrite (int_wrap_small (py c - py goal)) by grid_lia.
  apply int_wrap_small. grid_lia.
Qed.

Lemma manhattan_adjacent a b goal :
  adjacent a b → manhattan a goal ≤ manhattan b goal + 1.
Proof. unfold adjacent, manhattan. lia. Qed.

Lemma manhattan_bound c goal :
  inbP c → inbP goal → 0 ≤ manhattan c goal ≤ 40.
Proof. unfold manhattan. intros. grid_lia. Qed.

Lemma gat_get2 (a : list (list Z)) c :
  shape a → inbP c → get2 a (px c) (py c) = Ok (gat a c).
Proof.
  intros Ha Hc. unfold gat. by destruct (get2_inb a _ _ Ha Hc) as [v ->].
Qed.

Lemma gat_set2_eq (a a' : list (list Z)) c v :
  set2 a (px c) (py c) v = Ok a' → gat a' c = v.
Proof. intros H. unfold gat. by rewrite (get2_set2_eq _ _ _ _ _ H). Qed.

Lemma gat_set2_ne (a a' : list (list Z)) c c' v :
  set2 a (px c) (py c) v = Ok a' → c' ≠ c → gat a' c' = gat a c'.
Proof.
  intros H Hne. unfold gat.
  by rewrite (get2_set2_ne _ _ _ _ _ _ _ H (point_neq _ _ Hne)).
Qed.

Lemma gat_known_inb (a : list (list Z)) c : shape a → gat a c < INT_MAX → inbP c.
Proof.
  intros Ha. unfold gat.
  destruct (get2 a (px c) (py c)) as [v| |] eqn:Hv; [|lia..].
  intros _. by eapply get2_Ok_inb.
Qed.

(** Every expansion step that pushes an entry: a cell with an offset. *)
Definition all_events : list (Point * (Z * Z)) :=
  c ← all_cells; d ← dirs; [(c, d)].

Lemma all_events_length : length all_events = (4 * cells)%nat.
Proof. reflexivity. Qed.

Lemma nodup_events_length (l : list (Point * (Z * Z))) :
  NoDup l → (∀ e, e ∈ l → inbP e.1 ∧ e.2 ∈ dirs) → (length l ≤ 4 * cells)%nat.
Proof.
  intros Hnd Hin. rewrite <- all_events_length.
  apply submseteq_length, NoDup_submseteq; [done|].
  intros [c d] He. destruct (Hin _ He) as [Hc Hd]. simpl in *.
  unfold all_events.
  apply list_elem_of_bind. exists c. split; [|by apply elem_of_all_cells].
  apply list_elem_of_bind. exists d. split; [|done].
  by apply list_elem_of_singleton.
Qed.

Section AStarCorrect.
Context {Q : OpenList} {L : OpenListLaws Q}.
Variables (g : Grid) (start goal : Point).
Hypothesis Hg : shape g.
Hypothesis Hstart : inbP start.
Hypothesis Hgoal : inbP goal.

Local Abbreviation known st c := (gat (gCost st) c < INT_MAX).
Local Abbreviation h c := (manhattan c goal).

(** [vlist]: the cells marked visited; [events]: the pushes made so far,
    each by the cell expanded and the offset tried; [npop]: how many
    entries were taken; [cur], [todo]: the cell being expanded and the
    offsets it has still to try. *)
Record astar_inv (vlist : list Point) (events : list (Point * (Z * Z))) (npop : nat)
    (cur : Point) (todo : list (Z * Z)) (st : AStarState Q) : Prop := mk_astar_inv {
  ai_shape_v : shape (a_visited st);
  ai_shape_p : shape (a_parents st);
  ai_shape_g : shape (gCost st);
  ai_ok : pq_ok (openList st);
  ai_nodup : NoDup vlist;
  ai_inb : ∀ c, c ∈ vlist → inbP c;
  ai_vis : ∀ c, inbP c → (get2 (a_visited st) (px c) (py c) = Ok true ↔ c ∈ vlist);
  ai_start : start ∈ vlist;
  ai_gstart : gat (gCost st) start = 0;
  ai_entries : ∀ e, e ∈ pq_elems (openList st) → known st e.1;
  ai_range : ∀ c, known st c → 0 ≤ gat (gCost st) c ≤ Z.of_nat (length vlist);
  ai_vrange : ∀ c, c ∈ vlist → gat (gCost st) c < Z.of_nat (length vlist);
  ai_par : ∀ c, known st c → c ≠ start →
    traversable g c ∧
    ∃ p, get2 (a_parents st) (px c) (py c) = Ok p ∧ p ∈ vlist ∧
         adjacent p c ∧ gat (gCost st) c = gat (gCost st) p + 1;
  ai_sound : ∀ c, known st c → reach g start (Z.to_nat (gat (gCost st) c)) c;
  ai_opt : ∀ c n, c ∈ vlist → reach g start n c → gat (gCost st) c ≤ Z.of_nat n;
  ai_front : ∀ c, known st c → c ∉ vlist →
    (c, gat (gCost st) c + h c) ∈ pq_elems (openList st);
  ai_lb : ∀ e, e ∈ pq_elems (openList st) → e.1 ∉ vlist →
    gat (gCost st) e.1 + h e.1 ≤ e.2;
  ai_relax : ∀ c d, c ∈ vlist → d ∈ dirs → traversable g (offset c d) →
    offset c d ∉ vlist →
    gat (gCost st) (offset c d) ≤ gat (gCost st) c + 1 ∨ (c = cur ∧ d ∈ todo);
  ai_cur : todo ≠ [] → cur ∈ vlist;
  ai_goal : goal ∉ vlist;
  ai_ev_nodup : NoDup events;
  ai_ev : ∀ e, e ∈ events →
    e.1 ∈ vlist ∧ e.2 ∈ dirs ∧ gat (gCost st) (offset e.1 e.2) ≤ gat (gCost st) e.1 + 1;
  ai_count : (npop + length (pq_elems (openList st)) = 1 + length events)%nat
}.

Lemma astar_vlist_bound vlist events npop cur todo st :
  astar_inv vlist events npop cur todo st → (length vlist ≤ cells)%nat.
Proof.
  intros Hinv. apply nodup_cells_length.
  - apply (ai_nodup _ _ _ _ _ _ Hinv).
  - apply (ai_inb _ _ _ _ _ _ Hinv).
Qed.

Lemma astar_visited_small vlist events npop cur todo st c :
  astar_inv vlist events npop cur todo st → c ∈ vlist → gat (gCost st) c < 300.
Proof.
  intros Hinv Hc.
  pose proof (ai_vrange _ _ _ _ _ _ Hinv c Hc).
  pose proof (astar_vlist_bound _ _ _ _ _ _ Hinv).
  pose proof cells_eq. lia.
Qed.

(** Between two expansions: a cell not yet visited is no closer than some
    entry of the open list says. *)
Lemma astar_frontier vlist events npop cur st n c :
  astar_inv vlist events npop cur [] st → reach g start n c →
  c ∈ vlist ∨
  ∃ w, known st w ∧ (w ∉ vlist) ∧ gat (gCost st) w + h w ≤ Z.of_nat n + h c.
Proof.
  intros Hinv Hr. induction Hr as [|n c c' Hr IH Hadj Hc'].
  - left. apply (ai_start _ _ _ _ _ _ Hinv).
  - pose proof (manhattan_adjacent c c' goal Hadj) as Hh.
    destruct IH as [Hc|(w & Hw & Hwv & Hle)].
    + destruct (decide (c' ∈ vlist)) as [?|Hnv]; [by left|]. right.
      apply adjacent_offset in Hadj as (d & Hd & ->).
      destruct (ai_relax _ _ _ _ _ _ Hinv c d Hc Hd Hc' Hnv) as [Hle|[_ Hin]];
        [|by apply elem_of_nil in Hin].
      pose proof (ai_opt _ _ _ _ _ _ Hinv c n Hc Hr).
      pose proof (astar_visited_small _ _ _ _ _ _ _ Hinv Hc).
      exists (offset c d). split_and!; [unfold INT_MAX; lia|done|lia].
    + right. exists w. split_and!; [done..|lia].
Qed.

(** The entry taken carries the true distance of its cell. *)
Lemma astar_pop_optimal vlist events npop cur st c f rest n :
  astar_inv vlist events npop cur [] st →
  pq_take (openList st) = Some ((c, f), rest) → c ∉ vlist →
  reach g start n c → gat (gCost st) c ≤ Z.of_nat n.
Proof.
  intros Hinv Htake Hcv Hr.
  destruct (pq_take_some _ _ _ (ai_ok _ _ _ _ _ _ Hinv) Htake) as (_ & Hperm & Hmin).
  destruct (astar_frontier _ _ _ _ _ _ _ Hinv Hr) as [?|(w & Hw & Hwv & Hle)]; [done|].
  pose proof (ai_front _ _ _ _ _ _ Hinv w Hw Hwv) as Hwin.
  pose proof (Hmin _ Hwin) as Hfw. cbn [snd] in Hfw.
  assert (Hcin : (c, f) ∈ pq_elems (openList st)) by (rewrite Hperm; by left).
  pose proof (ai_lb _ _ _ _ _ _ Hinv _ Hcin Hcv) as Hlb. cbn [fst snd] in Hlb.
  lia.
Qed.

(** When the open list has run empty every reachable cell was visited. *)
Lemma astar_closed vlist events npop cur st n c :
  astar_inv vlist events npop cur [] st → pq_elems (openList st) = [] →
  reach g start n c → c ∈ vlist.
Proof.
  intros Hinv Hq Hr. induction Hr as [|n c c' Hr IH Hadj Hc'].
  - apply (ai_start _ _ _ _ _ _ Hinv).
  - destruct (decide (c' ∈ vlist)) as [?|Hnv]; [done|]. exfalso.
    apply adjacent_offset in Hadj as (d & Hd & ->).
    destruct (ai_relax _ _ _ _ _ _ Hinv c d IH Hd Hc' Hnv) as [Hle|[_ Hin]];
      [|by apply elem_of_nil in Hin].
    pose proof (astar_visited_small _ _ _ _ _ _ _ Hinv IH) as Hk.
    assert (Hk' : known st (offset c d)) by (unfold INT_MAX; lia).
    pose proof (ai_front _ _ _ _ _ _ Hinv _ Hk' Hnv) as Hin.
    rewrite Hq in Hin. by apply elem_of_nil in Hin.
Qed.

Lemma astar_visit_inv vlist events npop cur d todo st :
  astar_inv vlist events npop cur (d :: todo) st → d ∈ dirs →
  ∃ st' events', astar_visit g goal cur st d = Ok st' ∧
                 astar_inv vlist events' npop cur todo st'.
Proof.
  intros Hinv Hd.
  assert (Hcur : cur ∈ vlist) by (by apply (ai_cur _ _ _ _ _ _ Hinv)).
  assert (Hcin : inbP cur) by (by apply (ai_inb _ _ _ _ _ _ Hinv)).
  unfold astar_visit. rewrite (neighbour_offset _ _ Hcin Hd).
  set (n := offset cur d).
  destruct (isValid_total g (px n) (py n) Hg) as [b Hb]. rewrite Hb. cbn [bind].
  destruct b.
  2: { exists st, events. split; [done|]. destruct Hinv. split; try done.
       intros c d' Hc Hd' Ht Hnv.
       destruct (ai_relax0 c d' Hc Hd' Ht Hnv) as [?|[-> Hin]]; [by left|].
       apply elem_of_cons in Hin as [->|Hin]; [|by right].
       unfold traversable in Ht. fold n in Ht. congruence. }
  assert (Hn : inbP n) by (by apply isValid_true_inb in Hb).
  destruct (get2_inb (a_visited st) (px n) (py n) (ai_shape_v _ _ _ _ _ _ Hinv) Hn)
    as [seen Hseen].
  rewrite Hseen. cbn [bind]. destruct seen; cbn [negb].
  { exists st, events. split; [done|]. destruct Hinv. split; try done.
    intros c d' Hc Hd' Ht Hnv.
    destruct (ai_relax0 c d' Hc Hd' Ht Hnv) as [?|[-> Hin]]; [by left|].
    apply elem_of_cons in Hin as [->|Hin]; [|by right].
    exfalso. apply Hnv. by apply ai_vis0. }
  assert (Hnv : n ∉ vlist).
  { intros Hin. apply (ai_vis _ _ _ _ _ _ Hinv n Hn) in Hin. congruence. }
  pose proof (astar_visited_small _ _ _ _ _ _ _ Hinv Hcur) as Hsmall.
  assert (Hkcur : known st cur) by (unfold INT_MAX; lia).
  pose proof (ai_range _ _ _ _ _ _ Hinv cur Hkcur) as Hrange.
  pose proof (ai_vrange _ _ _ _ _ _ Hinv cur Hcur) as Hvr.
  pose proof (manhattan_bound n goal Hn Hgoal) as Hhb.
  rewrite (gat_get2 (gCost st) cur (ai_shape_g _ _ _ _ _ _ Hinv) Hcin). cbn [bind].
  rewrite (gat_get2 (gCost st) n (ai_shape_g _ _ _ _ _ _ Hinv) Hn). cbn [bind].
  rewrite (heuristic_manhattan n goal Hn Hgoal).
  rewrite (int_wrap_small (gat (gCost st) cur + 1)) by lia.
  rewrite (int_wrap_small (gat (gCost st) cur + 1 + h n)) by lia.
  destruct (Z.ltb_spec (gat (gCost st) cur + 1) (gat (gCost st) n)) as [Hlt|Hge].
  2: { exists st, events. split; [done|]. destruct Hinv. split; try done.
       intros c d' Hc Hd' Ht Hnv'.
       destruct (ai_relax0 c d' Hc Hd' Ht Hnv') as [?|[-> Hin]]; [by left|].
       apply elem_of_cons in Hin as [->|Hin]; [|by right].
       left. fold n. lia. }
  destruct (set2_inb (a_parents st) (px n) (py n) cur (ai_shape_p _ _ _ _ _ _ Hinv) Hn)
    as [par Hpar].
  destruct (set2_inb (gCost st) (px n) (py n) (gat (gCost st) cur + 1)
              (ai_shape_g _ _ _ _ _ _ Hinv) Hn) as [gco Hgco].
  rewrite Hpar. cbn [bind]. rewrite Hgco. cbn [bind].
  set (f := gat (gCost st) cur + 1 + h n).
  exists (mkAStar (pq_push (openList st) (n, f)) (a_visited st) par gco),
    ((cur, d) :: events).
  split; [done|].
  pose proof (gat_set2_eq _ _ _ _ Hgco) as Hgn.
  assert (Hgo : ∀ c, c ≠ n → gat gco c = gat (gCost st) c).
  { intros c Hc. by apply (gat_set2_ne _ _ _ _ _ Hgco). }
  assert (Hvn : ∀ c, c ∈ vlist → c ≠ n) by (intros c Hc ->; done).
  assert (Hgle : ∀ c, gat gco c ≤ gat (gCost st) c).
  { intros c. destruct (decide (c = n)) as [->|Hne]; [lia|]. rewrite Hgo by done. lia. }
  pose proof (pq_push_elems _ (n, f) (ai_ok _ _ _ _ _ _ Hinv)) as Hperm.
  destruct Hinv. split; cbn [openList a_visited a_parents gCost].
  - done.
  - by eapply set2_shape.
  - by eapply set2_shape.
  - by apply pq_push_ok.
  - done.
  - done.
  - done.
  - done.
  - rewrite Hgo; [done|]. by apply Hvn.
  - intros e He. specialize (Hgle e.1). rewrite Hperm in He.
    apply elem_of_cons in He as [->|He]; [cbn [fst]; unfold INT_MAX; lia|].
    specialize (ai_entries0 e He). lia.
  - intros c Hc. destruct (decide (c = n)) as [->|Hne]; [lia|].
    rewrite Hgo in * by done. by apply ai_range0.
  - intros c Hc. rewrite Hgo by (by apply Hvn). by apply ai_vrange0.
  - intros c Hc Hcs. destruct (decide (c = n)) as [->|Hne].
    + split; [done|]. exists cur. rewrite (get2_set2_eq _ _ _ _ _ Hpar).
      split_and!; [done..| |].
      * apply adjacent_offset. by exists d.
      * rewrite Hgn. rewrite Hgo by (by apply Hvn). done.
    + rewrite Hgo in Hc by done.
      destruct (ai_par0 c Hc Hcs) as (Ht & p & Hp & Hpin & Hadj & Hgp).
      split; [done|]. exists p.
      rewrite (get2_set2_ne _ _ _ _ _ _ _ Hpar (point_neq _ _ Hne)).
      split_and!; [done..|]. rewrite !Hgo; [done|by apply Hvn|done].
  - intros c Hc. destruct (decide (c = n)) as [->|Hne].
    + rewrite Hgn. replace (Z.to_nat (gat (gCost st) cur + 1))
        with (S (Z.to_nat (gat (gCost st) cur))) by lia.
      eapply reach_step; [by apply ai_sound0| |done].
      apply adjacent_offset. by exists d.
    + rewrite Hgo in * by done. by apply ai_sound0.
  - intros c m Hc Hm. rewrite Hgo by (by apply Hvn). by apply ai_opt0.
  - intros c Hc Hcv. rewrite Hperm. destruct (decide (c = n)) as [->|Hne].
    + rewrite Hgn. by left.
    + right. rewrite Hgo in * by done. by apply ai_front0.
  - intros e He Hev. rewrite Hperm in He. apply elem_of_cons in He as [->|He].
    + cbn [fst snd]. rewrite Hgn. unfold f. lia.
    + specialize (ai_lb0 e He Hev). specialize (Hgle e.1). lia.
  - intros c d' Hc Hd' Ht Hnv'.
    rewrite (Hgo c) by (by apply Hvn).
    destruct (ai_relax0 c d' Hc Hd' Ht Hnv') as [Hle|[-> Hin]].
    + left. specialize (Hgle (offset c d')). lia.
    + apply elem_of_cons in Hin as [->|Hin]; [|by right].
      left. fold n. lia.
  - done.
  - done.
  - apply NoDup_cons. split; [|done]. intros Hin.
    destruct (ai_ev0 _ Hin) as (_ & _ & Hle). cbn [fst snd] in Hle. fold n in Hle. lia.
  - intros e He. apply elem_of_cons in He as [->|He].
    + cbn [fst snd]. fold n. rewrite (Hgo cur) by (by apply Hvn).
      split_and!; [done..|lia].
    + destruct (ai_ev0 _ He) as (Hev & Hed & Hle).
      split_and!; [done..|]. rewrite (Hgo e.1) by (by apply Hvn).
      specialize (Hgle (offset e.1 e.2)). lia.
  - rewrite Hperm. simpl. lia.
Qed.

Lemma astar_for_each_inv vlist npop cur todo : ∀ st events,
  astar_inv vlist events npop cur todo st → (∀ d, d ∈ todo → d ∈ dirs) →
  ∃ st' events', for_each (astar_visit g goal cur) todo st = Ok st' ∧
                 astar_inv vlist events' npop cur [] st'.
Proof.
  induction todo as [|d todo IH]; intros st events Hinv Hdirs; cbn [for_each].
  - by exists st, events.
  - destruct (astar_visit_inv _ _ _ _ _ _ _ Hinv) as (st1 & ev1 & Hv & Hinv1).
    { apply Hdirs. by left. }
    rewrite Hv. cbn [bind]. apply (IH st1 ev1 Hinv1).
    intros d' Hd'. apply Hdirs. by right.
Qed.

Lemma astar_pop_inv vlist events npop cur st c f rest vis :
  astar_inv vlist events npop cur [] st →
  pq_take (openList st) = Some ((c, f), rest) → c ≠ goal →
  set2 (a_visited st) (px c) (py c) true = Ok vis →
  ∃ vlist', astar_inv vlist' events (S npop) c dirs
              (mkAStar rest vis (a_parents st) (gCost st)).
Proof.
  intros Hinv Htake Hcg Hvis.
  destruct (pq_take_some _ _ _ (ai_ok _ _ _ _ _ _ Hinv) Htake) as (Hok & Hperm & Hmin).
  assert (Hcin : (c, f) ∈ pq_elems (openList st)) by (rewrite Hperm; by left).
  pose proof (ai_entries _ _ _ _ _ _ Hinv _ Hcin) as Hck. cbn [fst] in Hck.
  pose proof (gat_known_inb _ _ (ai_shape_g _ _ _ _ _ _ Hinv) Hck) as Hcb.
  assert (Hsub : ∀ e, e ∈ pq_elems rest → e ∈ pq_elems (openList st)).
  { intros e He. rewrite Hperm. by right. }
  assert (Hlen : length (pq_elems (openList st)) = S (length (pq_elems rest))).
  { by rewrite Hperm. }
  destruct (decide (c ∈ vlist)) as [Hcv|Hcv].
  - exists vlist. destruct Hinv.
    split; cbn [openList a_visited a_parents gCost] in *; try done.
    + by eapply set2_shape.
    + intros c' Hc'. destruct (decide (c' = c)) as [->|Hne].
      * by rewrite (get2_set2_eq _ _ _ _ _ Hvis).
      * rewrite (get2_set2_ne _ _ _ _ _ _ _ Hvis (point_neq _ _ Hne)).
        by apply ai_vis0.
    + intros e He. by apply ai_entries0, Hsub.
    + intros c' Hc' Hnv. pose proof (ai_front0 c' Hc' Hnv) as Hin.
      rewrite Hperm in Hin. apply elem_of_cons in Hin as [[= -> _]|Hin]; done.
    + intros e He. by apply ai_lb0, Hsub.
    + intros c' d Hc' Hd Ht Hnv.
      destruct (ai_relax0 c' d Hc' Hd Ht Hnv) as [?|[_ Hin]]; [by left|].
      by apply elem_of_nil in Hin.
    + lia.
  - exists (c :: vlist).
    pose proof (λ n, astar_pop_optimal _ _ _ _ _ _ _ _ n Hinv Htake Hcv) as Hopt.
    destruct Hinv.
    split; cbn [openList a_visited a_parents gCost length] in *; try done.
    + by eapply set2_shape.
    + apply NoDup_cons. by split.
    + intros c' Hc'. apply elem_of_cons in Hc' as [->|Hc']; [done|by apply ai_inb0].
    + intros c' Hc'. rewrite elem_of_cons. destruct (decide (c' = c)) as [->|Hne].
      * rewrite (get2_set2_eq _ _ _ _ _ Hvis). split; [by left|done].
      * rewrite (get2_set2_ne _ _ _ _ _ _ _ Hvis (point_neq _ _ Hne)).
        rewrite ai_vis0 by done. split; [by right|]. by intros [?|?].
    + by right.
    + intros e He. by apply ai_entries0, Hsub.
    + intros c' Hc'. specialize (ai_range0 c' Hc'). lia.
    + intros c' Hc'. apply elem_of_cons in Hc' as [->|Hc'].
      * specialize (ai_range0 c Hck). lia.
      * specialize (ai_vrange0 c' Hc'). lia.
    + intros c' Hc' Hne. destruct (ai_par0 c' Hc' Hne) as (Ht & p & Hp & Hpin & Hrest).
      split; [done|]. exists p. split_and!; [done| |apply Hrest..]. by right.
    + intros c' n Hc' Hn. apply elem_of_cons in Hc' as [->|Hc'].
      * by apply Hopt.
      * by apply ai_opt0.
    + intros c' Hc' Hnv. apply not_elem_of_cons in Hnv as [Hne Hnv].
      pose proof (ai_front0 c' Hc' Hnv) as Hin.
      rewrite Hperm in Hin. apply elem_of_cons in Hin as [[= -> _]|Hin]; done.
    + intros e He Hnv. apply not_elem_of_cons in Hnv as [Hne Hnv].
      by apply ai_lb0; [apply Hsub|].
    + intros c' d Hc' Hd Ht Hnv. apply not_elem_of_cons in Hnv as [Hne Hnv].
      apply elem_of_cons in Hc' as [->|Hc']; [by right|].
      destruct (ai_relax0 c' d Hc' Hd Ht Hnv) as [?|[_ Hin]]; [by left|].
      by apply elem_of_nil in Hin.
    + intros _. by left.
    + intros Hin. apply elem_of_cons in Hin as [->|Hin]; done.
    + intros e He. destruct (ai_ev0 e He) as (Hev & Hrest).
      split; [by right|done].
    + lia.
Qed.

Lemma astar_count_bound vlist events npop cur todo st :
  astar_inv vlist events npop cur todo st → (npop ≤ 1 + 4 * cells)%nat.
Proof.
  intros Hinv.
  assert (length events ≤ 4 * cells)%nat.
  { apply nodup_events_length; [apply (ai_ev_nodup _ _ _ _ _ _ Hinv)|].
    intros e He. destruct (ai_ev _ _ _ _ _ _ Hinv e He) as (Hv & Hd & _).
    split; [|done]. by apply (ai_inb _ _ _ _ _ _ Hinv). }
  pose proof (ai_count _ _ _ _ _ _ Hinv). lia.
Qed.

Lemma astar_loop_post fuel : ∀ vlist events npop cur st,
  astar_inv vlist events npop cur [] st → (1 + 4 * cells < npop + fuel)%nat →
  ∃ p, astar_loop fuel g start goal st = Ok p ∧ search_post g start goal p.
Proof.
  induction fuel as [|fuel IH]; intros vlist events npop cur st Hinv Hfuel.
  - pose proof (astar_count_bound _ _ _ _ _ _ Hinv). lia.
  - cbn [astar_loop].
    destruct (pq_take (openList st)) as [[[c f] rest]|] eqn:Htake.
    2: { exists []. split; [done|]. right. split; [|done].
         intros n Hn. apply (ai_goal _ _ _ _ _ _ Hinv).
         eapply astar_closed; [done| |done].
         by apply pq_take_none; [apply (ai_ok _ _ _ _ _ _ Hinv)|]. }
    destruct (pq_take_some _ _ _ (ai_ok _ _ _ _ _ _ Hinv) Htake) as (Hok & Hperm & Hmin).
    assert (Hcin : (c, f) ∈ pq_elems (openList st)) by (rewrite Hperm; by left).
    pose proof (ai_entries _ _ _ _ _ _ Hinv _ Hcin) as Hck. cbn [fst] in Hck.
    pose proof (gat_known_inb _ _ (ai_shape_g _ _ _ _ _ _ Hinv) Hck) as Hcb.
    pose proof (astar_vlist_bound _ _ _ _ _ _ Hinv) as Hvb.
    destruct (decide (c = goal)) as [->|Hne].
    + pose proof (ai_range _ _ _ _ _ _ Hinv goal Hck) as Hrg.
      destruct (reconstruct_chain g start (a_parents st)
                  (λ c, known st c ∧ 0 ≤ gat (gCost st) c)
                  (λ c, Z.to_nat (gat (gCost st) c)))
        with (k := Z.to_nat (gat (gCost st) goal)) (c := goal)
          (acc := @nil Point) (fuel := walk_fuel)
        as (fwd & Hrec & Hroute & Hlen & Hns).
      * by rewrite (ai_gstart _ _ _ _ _ _ Hinv).
      * intros c [Hc Hc0] Hcs.
        destruct (ai_par _ _ _ _ _ _ Hinv c Hc Hcs) as (Ht & p & Hp & Hpin & Hadj & Hgp).
        pose proof (astar_visited_small _ _ _ _ _ _ _ Hinv Hpin).
        assert (Hkp : known st p) by (unfold INT_MAX; lia).
        pose proof (ai_range _ _ _ _ _ _ Hinv p Hkp).
        split; [done|]. exists p. split_and!; [done|done|lia|done|lia].
      * split; [done|lia].
      * done.
      * unfold walk_fuel. lia.
      * exists fwd. rewrite Hrec. simpl. rewrite app_nil_r. split; [done|].
        left. split_and!; [|done..|].
        -- exists (Z.to_nat (gat (gCost st) goal)). by apply (ai_sound _ _ _ _ _ _ Hinv).
        -- intros n Hn. rewrite Hlen.
           pose proof (astar_pop_optimal _ _ _ _ _ _ _ _ n Hinv Htake
                         (ai_goal _ _ _ _ _ _ Hinv) Hn). lia.
    + destruct (set2_inb (a_visited st) (px c) (py c) true
                  (ai_shape_v _ _ _ _ _ _ Hinv) Hcb) as [vis Hvis].
      rewrite Hvis. cbn [bind].
      destruct (astar_pop_inv _ _ _ _ _ _ _ _ _ Hinv Htake Hne Hvis) as [vlist' Hinv1].
      destruct (astar_for_each_inv _ _ _ _ _ _ Hinv1) as (st' & ev' & Hfe & Hinv');
        [done|].
      rewrite Hfe. cbn [bind]. apply (IH _ _ _ _ _ Hinv'). lia.
Qed.

(** [findPathA] returns, and what it returns meets [search_post]. *)
Lemma findPathA_post :
  ∃ p, findPathA Q g start goal = Ok p ∧ search_post g start goal p.
Proof.
  unfold findPathA.
  destruct (set2_inb (make2 INT_MAX) (px start) (py start) 0 (make2_shape _) Hstart)
    as [gco Hgco].
  rewrite Hgco. cbn [bind]. unfold astar_fuel.
  remember (S (4 * cells)) as fuel1 eqn:Hfuel1. cbn [astar_loop openList].
  pose proof (pq_push_elems pq_new (start, 0) pq_new_ok) as Hperm0.
  rewrite pq_new_elems in Hperm0.
  pose proof (pq_push_ok pq_new (start, 0) pq_new_ok) as Hok0.
  destruct (pq_take (pq_push pq_new (start, 0))) as [[[c f] rest]|] eqn:Htake.
  2: { apply pq_take_none in Htake; [|done]. rewrite Htake in Hperm0.
       by apply Permutation_nil_cons in Hperm0. }
  destruct (pq_take_some _ _ _ Hok0 Htake) as (Hok & Hperm & _).
  rewrite Hperm in Hperm0.
  apply Permutation_singleton_r in Hperm0. injection Hperm0 as -> -> Hrest.
  cbn [a_parents a_visited gCost].
  destruct (decide (start = goal)) as [<-|Hne].
  { exists []. split.
    - unfold walk_fuel. cbn [reconstruct]. by rewrite decide_True.
    - left. split_and!.
      + exists 0%nat. constructor.
      + by split.
      + apply not_elem_of_nil.
      + intros. simpl. lia. }
  destruct (set2_inb (make2 false) (px start) (py start) true (make2_shape _) Hstart)
    as [vis Hvis].
  rewrite Hvis. cbn [bind].
  assert (Hknown : ∀ c, gat gco c < INT_MAX → c = start).
  { intros c Hc. destruct (decide (c = start)) as [|Hcs]; [done|].
    rewrite (gat_set2_ne _ _ _ _ _ Hgco Hcs) in Hc.
    unfold gat in Hc.
    destruct (get2 (make2 INT_MAX) (px c) (py c)) as [v| |] eqn:Hv; [|lia..].
    rewrite get2_make2 in Hv by (eapply get2_Ok_inb; [apply make2_shape|done]).
    injection Hv as <-. lia. }
  pose proof (gat_set2_eq _ _ _ _ Hgco) as Hg0.
  assert (Hinv : astar_inv [start] [] 1 start dirs
            (mkAStar rest vis (make2 (mkPoint (-1) (-1))) gco)).
  { split; cbn [openList a_visited a_parents gCost length].
    - eapply set2_shape; [|exact Hvis]. apply make2_shape.
    - apply make2_shape.
    - eapply set2_shape; [|exact Hgco]. apply make2_shape.
    - done.
    - apply NoDup_singleton.
    - intros c Hc. by apply list_elem_of_singleton in Hc as ->.
    - intros c Hc. rewrite list_elem_of_singleton.
      destruct (decide (c = start)) as [->|Hcs].
      + by rewrite (get2_set2_eq _ _ _ _ _ Hvis).
      + rewrite (get2_set2_ne _ _ _ _ _ _ _ Hvis (point_neq _ _ Hcs)).
        rewrite get2_make2 by done. split; [done|]. intros ->. done.
    - by left.
    - done.
    - intros e He. rewrite Hrest in He. by apply elem_of_nil in He.
    - intros c Hc. apply Hknown in Hc as ->. lia.
    - intros c Hc. apply list_elem_of_singleton in Hc as ->. lia.
    - intros c Hc Hcs. by apply Hknown in Hc.
    - intros c Hc. apply Hknown in Hc as ->. rewrite Hg0. constructor.
    - intros c n Hc Hn. apply list_elem_of_singleton in Hc as ->. lia.
    - intros c Hc Hnv. apply Hknown in Hc as ->.
      exfalso. apply Hnv. by left.
    - intros e He. rewrite Hrest in He. by apply elem_of_nil in He.
    - intros c d Hc Hd _ _. apply list_elem_of_singleton in Hc as ->. by right.
    - intros _. by left.
    - intros Hin. by apply list_elem_of_singleton in Hin.
    - apply NoDup_nil_2.
    - intros e He. by apply elem_of_nil in He.
    - rewrite Hrest. done. }
  destruct (astar_for_each_inv _ _ _ _ _ _ Hinv) as (st' & ev' & Hfe & Hinv'); [done|].
  rewrite Hfe. cbn [bind]. apply (astar_loop_post _ _ _ _ _ _ Hinv'). lia.
Qed.

End AStarCorrect.

(** ** The first-in-first-out open list keeps the contract *)

Fixpoint by_cost (q : list entry) : Prop :=
  match q with
  | [] => True
  | e :: q' => (∀ e', e' ∈ q' → e.2 ≤ e'.2) ∧ by_cost q'
  end.

Lemma fifo_insert_perm e q : fifo_insert e q ≡ₚ e :: q.
Proof.
  induction q as [|x q IH]; simpl; [done|].
  destruct (x.2 <=? e.2); [|done].
  rewrite IH. apply Permutation_swap.
Qed.

Lemma fifo_insert_sorted e q : by_cost q → by_cost (fifo_insert e q).
Proof.
  induction q as [|x q IH]; simpl; intros Hq.
  - split; [|done]. intros e' He'. by apply elem_of_nil in He'.
  - destruct Hq as [Hx Hq]. destruct (Z.leb_spec x.2 e.2) as [Hle|Hgt].
    + split; [|by apply IH]. intros e' He'. rewrite fifo_insert_perm in He'.
      apply elem_of_cons in He' as [->|He']; [done|by apply Hx].
    + simpl. split_and!; [|done..]. intros e' He'.
      apply elem_of_cons in He' as [->|He']; [lia|]. specialize (Hx e' He'). lia.
Qed.

Global Program Instance FifoLaws : OpenListLaws FifoOpenList := {|
  pq_ok := by_cost;
  pq_elems := λ q, q
|}.
Next Obligation. done. Qed.
Next Obligation. done. Qed.
Next Obligation. intros q e Hq. by apply fifo_insert_sorted. Qed.
Next Obligation. intros q e Hq. apply fifo_insert_perm. Qed.
Next Obligation. intros [|e q] Hq; [done|]. simpl. discriminate. Qed.
Next Obligation.
  intros [|x q] e q' Hq; simpl; [discriminate|]. intros [= -> ->].
  destruct Hq as [Hx Hq]. split_and!; [done..|].
  intros e' He'. apply elem_of_cons in He' as [->|He']; [lia|by apply Hx].
Qed.

(** ** The binary heap keeps the contract *)

Definition parent (i : nat) : nat := ((i - 1) / 2)%nat.

Lemma parent_cases i :
  (0 < i)%nat → (i = 2 * parent i + 1 ∨ i = 2 * parent i + 2)%nat.
Proof.
  intros Hi. unfold parent. pose proof (Nat.div_mod_eq (i - 1) 2) as Hdm.
  pose proof (Nat.mod_upper_bound (i - 1) 2). lia.
Qed.

Lemma parent_child_l h : parent (2 * h + 1) = h.
Proof.
  unfold parent. replace (2 * h + 1 - 1)%nat with (h * 2)%nat by lia.
  by rewrite Nat.div_mul.
Qed.

Lemma parent_child_r h : parent (2 * h + 2) = h.
Proof.
  unfold parent. replace (2 * h + 2 - 1)%nat with (1 + h * 2)%nat by lia.
  by rewrite Nat.div_add.
Qed.

Lemma half_cases n : (n = 2 * (n / 2) ∨ n = 2 * (n / 2) + 1)%nat.
Proof.
  pose proof (Nat.div_mod_eq n 2). pose proof (Nat.mod_upper_bound n 2). lia.
Qed.

Lemma even_half n : Nat.even n = true → (n = 2 * (n / 2))%nat.
Proof.
  intros [k ->]%Nat.even_spec. replace (2 * k)%nat with (k * 2)%nat by lia.
  rewrite Nat.div_mul by done. lia.
Qed.

Lemma odd_half n : Nat.even n = false → (n = 2 * (n / 2) + 1)%nat.
Proof.
  intros Hodd. destruct (half_cases n) as [Heq|Heq]; [|done].
  rewrite Heq in Hodd. rewrite Nat.even_mul in Hodd. done.
Qed.

(** *** Heap order on the costs, as a function of the index *)

(** The first [n] entries are heap ordered: none costs less than its parent. *)
Definition heap_fn (n : nat) (K : nat → Z) : Prop :=
  ∀ i, (0 < i < n)%nat → K (parent i) ≤ K i.

(** Heap order but for the entry at [hole]: nothing is asked of the hole
    against its parent or its children, and its children do not cost less
    than its parent. *)
Definition down_fn (n : nat) (K : nat → Z) (hole : nat) : Prop :=
  (∀ i, (0 < i < n)%nat → i ≠ hole → parent i ≠ hole → K (parent i) ≤ K i) ∧
  (∀ i, (0 < i < n)%nat → parent i = hole → (0 < hole)%nat → K (parent hole) ≤ K i).

(** The same, and the hole does not cost more than its children. *)
Definition up_fn (n : nat) (K : nat → Z) (hole : nat) : Prop :=
  down_fn n K hole ∧ (∀ i, (0 < i < n)%nat → parent i = hole → K hole ≤ K i).

(** [K'] is [K] with the values at [a] and [b] exchanged. *)
Definition exchanged (K K' : nat → Z) (a b : nat) : Prop :=
  K' a = K b ∧ K' b = K a ∧ ∀ j, j ≠ a → j ≠ b → K' j = K j.

Lemma up_done n K hole :
  up_fn n K hole → hole = 0%nat ∨ K (parent hole) ≤ K hole → heap_fn n K.
Proof.
  intros [[D1 D2] U] Hroot i Hi.
  destruct (decide (i = hole)) as [->|Hne]; [destruct Hroot; [lia|done]|].
  destruct (decide (parent i = hole)) as [Heq|Hnp].
  - rewrite Heq. by apply U.
  - by apply D1.
Qed.

Lemma down_leaf n K hole : down_fn n K hole → (n ≤ 2 * hole + 1)%nat → up_fn n K hole.
Proof.
  intros Hd Hleaf. split; [done|]. intros i Hi Hp.
  pose proof (parent_cases i). lia.
Qed.

Lemma up_step n K K' hole :
  (0 < hole < n)%nat → exchanged K K' hole (parent hole) →
  up_fn n K hole → K hole < K (parent hole) → up_fn n K' (parent hole).
Proof.
  intros Hh (Kh & Kp & Ko) [[D1 D2] U] Hlt.
  pose proof (parent_cases hole) as Hhc.
  assert (Hpar : ∀ i, (0 < i < n)%nat → parent i = parent hole →
                      K hole < K' i ∧ K (parent hole) ≤ K' i).
  { intros i Hi Hip. destruct (decide (i = hole)) as [->|Hne].
    - rewrite Kh. lia.
    - pose proof (parent_cases i). rewrite Ko by lia.
      assert (K (parent i) ≤ K i) by (apply D1; [done..|lia]).
      rewrite Hip in *. lia. }
  split; [split|].
  - intros i Hi Hip Hpp. pose proof (parent_cases i) as Hic.
    assert (i ≠ hole) by (intros ->; done).
    rewrite (Ko i) by done.
    destruct (decide (parent i = hole)) as [Heq|Hnq].
    + rewrite Heq, Kh. apply D2; [done..|lia].
    + rewrite Ko by done. by apply D1.
  - intros i Hi Hip Hpos. pose proof (parent_cases (parent hole)) as Hpc.
    rewrite Ko by lia.
    assert (K (parent (parent hole)) ≤ K (parent hole)) by (apply D1; lia).
    destruct (Hpar i Hi Hip). lia.
  - intros i Hi Hip. rewrite Kp. by destruct (Hpar i Hi Hip); lia.
Qed.

Lemma down_step n K K' hole c :
  (0 < c < n)%nat → parent c = hole → exchanged K K' hole c →
  down_fn n K hole →
  (∀ i, (0 < i < n)%nat → parent i = hole → K c ≤ K i) →
  down_fn n K' c.
Proof.
  intros Hc Hpc (Kh & Kc & Ko) [D1 D2] Hmin.
  pose proof (parent_cases c) as Hcc.
  split.
  - intros i Hi Hic Hipc. pose proof (parent_cases i) as Hii.
    destruct (decide (i = hole)) as [->|Hne].
    + rewrite Kh. pose proof (parent_cases hole).
      rewrite Ko by lia. apply D2; [done..|lia].
    + rewrite (Ko i) by done.
      destruct (decide (parent i = hole)) as [Heq|Hnq].
      * rewrite Heq, Kh. by apply Hmin.
      * rewrite Ko by done. by apply D1.
  - intros i Hi Hip _. pose proof (parent_cases i) as Hii.
    rewrite Hpc, Kh. rewrite Ko by lia.
    rewrite <- Hip. apply D1; [done|lia|lia].
Qed.

Lemma heap_root_min n K : heap_fn n K → ∀ i, (i < n)%nat → K 0%nat ≤ K i.
Proof.
  intros Hheap i. induction i as [i IH] using lt_wf_ind. intros Hi.
  destruct (decide (i = 0)%nat) as [->|Hpos]; [lia|].
  pose proof (parent_cases i).
  assert (K 0%nat ≤ K (parent i)) by (apply IH; lia).
  assert (K (parent i) ≤ K i) by (apply Hheap; lia). lia.
Qed.

(** *** The vector operations of libstdc++ *)

(** The f-cost held at an index of the vector. *)
Definition cost_at (w : list entry) (i : nat) : Z :=
  match w !! i with
  | Some e => e.2
  | None => 0
  end.

Lemma cost_at_insert (w : list entry) i j x :
  (i < length w)%nat →
  cost_at (<[i := x]> w) j = if decide (i = j) then x.2 else cost_at w j.
Proof.
  intros Hi. unfold cost_at. case_decide as Hij.
  - subst. by rewrite list_lookup_insert_eq.
  - by rewrite list_lookup_insert_ne.
Qed.

Lemma cost_at_insert_eq (w : list entry) i x :
  (i < length w)%nat → cost_at (<[i := x]> w) i = x.2.
Proof. intros Hi. rewrite cost_at_insert by done. by rewrite decide_True. Qed.

Lemma cost_at_insert_ne (w : list entry) i j x :
  i ≠ j → cost_at (<[i := x]> w) j = cost_at w j.
Proof. intros Hij. unfold cost_at. by rewrite list_lookup_insert_ne. Qed.

Lemma vget_cost (v : list entry) i d : (i < length v)%nat → (vget v i d).2 = cost_at v i.
Proof.
  intros Hi. unfold vget, cost_at.
  destruct (lookup_lt_is_Some_2 v i Hi) as [e He]. by rewrite He.
Qed.

Lemma vget_lookup (v : list entry) i d : (i < length v)%nat → v !! i = Some (vget v i d).
Proof.
  intros Hi. unfold vget.
  destruct (lookup_lt_is_Some_2 v i Hi) as [e He]. by rewrite He.
Qed.

Lemma insert_front_perm {A} (l : list A) j b x :
  l !! j = Some b → b :: <[j := x]> l ≡ₚ x :: l.
Proof.
  revert j. induction l as [|y l IH]; intros [|j] Hj; try done; simpl in *.
  - injection Hj as ->. apply Permutation_swap.
  - rewrite Permutation_swap, (IH j Hj). apply Permutation_swap.
Qed.

(** Exchanging two entries of a vector permutes it. *)
Lemma swap_perm {A} (w : list A) i j a b :
  i ≠ j → w !! i = Some a → w !! j = Some b →
  <[i := b]> (<[j := a]> w) ≡ₚ w.
Proof.
  revert i j. induction w as [|x w IH]; intros [|i] [|j] Hij Hi Hj; try done;
    simpl in *.
  - injection Hi as ->. by apply insert_front_perm.
  - injection Hj as ->. by apply insert_front_perm.
  - f_equiv. apply IH; [congruence|done..].
Qed.

(** The hole written last: moving the entry at [c] into the hole and the
    value into its place exchanges the two. *)
Lemma hole_move_perm (v : list entry) hole c value :
  hole ≠ c → (hole < length v)%nat → (c < length v)%nat →
  <[c := value]> (<[hole := vget v c value]> v) ≡ₚ <[hole := value]> v.
Proof.
  intros Hne Hh Hc.
  rewrite <- (list_insert_insert_eq v hole (vget v c value) value).
  apply swap_perm.
  - done.
  - rewrite list_lookup_insert_ne by done. by apply vget_lookup.
  - by rewrite list_lookup_insert_eq.
Qed.

Lemma hole_move_exchanged (v : list entry) hole c value :
  hole ≠ c → (hole < length v)%nat → (c < length v)%nat →
  exchanged (cost_at (<[hole := value]> v))
            (cost_at (<[c := value]> (<[hole := vget v c value]> v))) hole c.
Proof.
  intros Hne Hh Hc. split_and!.
  - rewrite cost_at_insert_ne by done. rewrite cost_at_insert_eq by done.
    rewrite cost_at_insert_ne by done. by apply vget_cost.
  - rewrite cost_at_insert_eq by (by rewrite length_insert).
    by rewrite cost_at_insert_eq.
  - intros j Hjh Hjc. by rewrite !cost_at_insert_ne.
Qed.

Lemma comparator_spec (a b : entry) : comparator a b = true ↔ b.2 < a.2.
Proof. unfold comparator. apply Z.ltb_lt. Qed.

Section HeapValue.
Variables (n : nat) (value : entry).

Lemma push_heap_loop_spec fuel : ∀ v hole,
  (hole < n)%nat → (n ≤ length v)%nat → (hole ≤ fuel)%nat →
  up_fn n (cost_at (<[hole := value]> v)) hole →
  heap_fn n (cost_at (push_heap_loop fuel v hole 0 value)) ∧
  push_heap_loop fuel v hole 0 value ≡ₚ <[hole := value]> v ∧
  (∀ i, (n ≤ i)%nat → push_heap_loop fuel v hole 0 value !! i = v !! i).
Proof.
  induction fuel as [|fuel IH]; intros v hole Hh Hn Hf Hup.
  - assert (hole = 0)%nat as -> by lia. cbn [push_heap_loop].
    split_and!; [|done|].
    + eapply up_done; [done|by left].
    + intros i Hi. apply list_lookup_insert_ne. lia.
  - cbn [push_heap_loop]. change ((hole - 1) / 2)%nat with (parent hole).
    remember (parent hole) as p eqn:Hp.
    assert (Hpc : (0 < hole)%nat → (hole = 2 * p + 1 ∨ hole = 2 * p + 2)%nat).
    { rewrite Hp. apply parent_cases. }
    destruct (bool_decide (0 < hole)%nat && comparator (vget v p value) value) eqn:Hc.
    + apply andb_true_iff in Hc as [Hpos Hcmp]. apply bool_decide_eq_true in Hpos.
      specialize (Hpc Hpos).
      apply comparator_spec in Hcmp. rewrite vget_cost in Hcmp by lia.
      destruct (IH (<[hole := vget v p value]> v) p) as (Hheap & Hperm & Hrest).
      * lia.
      * by rewrite length_insert.
      * lia.
      * rewrite Hp. eapply (up_step n _ _ hole); [lia| |done|]; rewrite <- Hp.
        -- apply hole_move_exchanged; lia.
        -- rewrite cost_at_insert_eq by lia.
           rewrite cost_at_insert_ne by lia. done.
      * split_and!; [done| |].
        -- rewrite Hperm. apply hole_move_perm; lia.
        -- intros i Hi. rewrite Hrest by done. apply list_lookup_insert_ne. lia.
    + split_and!; [|done|].
      * eapply up_done; [done|].
        apply andb_false_iff in Hc as [Hc|Hc].
        { apply bool_decide_eq_false in Hc. left. lia. }
        destruct (decide (hole = 0%nat)) as [->|Hpos]; [by left|right].
        specialize (Hpc ltac:(lia)). rewrite <- Hp.
        assert (¬ value.2 < (vget v p value).2) as Hle.
        { intros Hlt. apply comparator_spec in Hlt. congruence. }
        rewrite vget_cost in Hle by lia.
        rewrite cost_at_insert_eq by lia.
        rewrite cost_at_insert_ne by lia. lia.
      * intros i Hi. apply list_lookup_insert_ne. lia.
Qed.

End HeapValue.

Lemma push_heap_spec (v : list entry) e :
  heap_fn (length v) (cost_at v) →
  heap_fn (length (push_heap (v ++ [e]))) (cost_at (push_heap (v ++ [e]))) ∧
  push_heap (v ++ [e]) ≡ₚ e :: v.
Proof.
  intros Hheap. unfold push_heap, push_heap_aux. rewrite last_snoc.
  rewrite length_app. cbn [length].
  replace (length v + 1 - 1)%nat with (length v) by lia.
  assert (Hw : <[length v := e]> (v ++ [e]) = v ++ [e]).
  { apply list_insert_id. by rewrite list_lookup_middle. }
  destruct (push_heap_loop_spec (length v + 1) e (S (length v)) (v ++ [e]) (length v))
    as (Hh & Hperm & _).
  - lia.
  - rewrite length_app. simpl. lia.
  - lia.
  - rewrite Hw. apply down_leaf; [|lia]. split.
    + intros i Hi Hne Hnp. pose proof (parent_cases i).
      unfold cost_at. rewrite !lookup_app_l by lia. apply Hheap. lia.
    + intros i Hi Hp Hpos. pose proof (parent_cases i). lia.
  - rewrite Hw in Hperm. split.
    + rewrite (Permutation_length Hperm), length_app. exact Hh.
    + rewrite Hperm. by rewrite Permutation_app_comm.
Qed.

(** Index arithmetic of [__adjust_heap]. *)
Lemma loop_child len hole :
  (hole < (len - 1) / 2)%nat → (2 * (hole + 1) < len)%nat.
Proof. intros Hlt. pose proof (half_cases (len - 1)). lia. Qed.

Lemma tail_child len hole :
  Nat.even len = true → hole = ((len - 2) / 2)%nat → (hole < len)%nat →
  (2 * (hole + 1) - 1 = len - 1 ∧ 2 ≤ len)%nat.
Proof.
  intros Heven -> Hlt. apply even_half in Heven.
  assert (len ≠ 0)%nat by lia.
  assert (len - 2 = (len / 2 - 1) * 2)%nat as Hm by lia.
  rewrite Hm. rewrite Nat.div_mul by done. lia.
Qed.

Lemma leaf_after_loop len hole :
  (hole < len)%nat → ((len - 1) / 2 ≤ hole)%nat →
  ¬ (Nat.even len = true ∧ hole = ((len - 2) / 2)%nat) →
  (len ≤ 2 * hole + 1)%nat.
Proof.
  intros Hlt Hge Hnot. destruct (Nat.even len) eqn:Hpar.
  - apply even_half in Hpar.
    assert (len - 2 = (len / 2 - 1) * 2)%nat as Hm by lia.
    assert (((len - 2) / 2)%nat = (len / 2 - 1)%nat) as Hh2.
    { rewrite Hm. by rewrite Nat.div_mul. }
    assert (len - 1 = 1 + (len / 2 - 1) * 2)%nat as Hm1 by lia.
    assert (((len - 1) / 2)%nat = (len / 2 - 1)%nat) as Hh1.
    { rewrite Hm1. by rewrite Nat.div_add. }
    destruct (decide (hole = (len / 2 - 1)%nat)) as [Heq|Hne]; [|lia].
    exfalso. apply Hnot. split; [done|]. by rewrite Hh2.
  - apply odd_half in Hpar.
    assert (len - 1 = (len / 2) * 2)%nat as Hm by lia.
    assert (((len - 1) / 2)%nat = (len / 2)%nat) as Hh1.
    { rewrite Hm. by rewrite Nat.div_mul. }
    lia.
Qed.

Section HeapAdjust.
Variables (len : nat) (value : entry).

Lemma adjust_heap_loop_spec fuel : ∀ v hole,
  (hole < len)%nat → (len ≤ length v)%nat → (len ≤ hole + fuel)%nat →
  down_fn len (cost_at (<[hole := value]> v)) hole →
  ∃ v1 h1,
    adjust_heap_loop fuel v hole hole len value = (v1, h1, h1) ∧
    (h1 < len)%nat ∧ ((len - 1) / 2 ≤ h1)%nat ∧
    down_fn len (cost_at (<[h1 := value]> v1)) h1 ∧
    <[h1 := value]> v1 ≡ₚ <[hole := value]> v ∧
    length v1 = length v ∧
    (∀ i, (len ≤ i)%nat → v1 !! i = v !! i).
Proof.
  induction fuel as [|fuel IH]; intros v hole Hh Hn Hf Hdown; [lia|].
  cbn [adjust_heap_loop]. case_bool_decide as Hloop.
  2: { exists v, hole. split_and!; [done|done|lia|done..]. }
  pose proof (loop_child len hole Hloop) as Hsc.
  set (sc := (2 * (hole + 1))%nat) in *.
  assert (Hpl : parent (sc - 1) = hole).
  { unfold sc. replace (2 * (hole + 1) - 1)%nat with (2 * hole + 1)%nat by lia.
    apply parent_child_l. }
  assert (Hpr : parent sc = hole).
  { unfold sc. replace (2 * (hole + 1))%nat with (2 * hole + 2)%nat by lia.
    apply parent_child_r. }
  assert (Hkids : ∀ i, (0 < i)%nat → parent i = hole → i = (sc - 1)%nat ∨ i = sc).
  { intros i Hi Hp. pose proof (parent_cases i Hi). unfold sc. lia. }
  set (c := if comparator (vget v sc value) (vget v (sc - 1) value)
            then (sc - 1)%nat else sc).
  assert (Hc : (c = (sc - 1)%nat ∨ c = sc) ∧ parent c = hole ∧
               ∀ i, (0 < i < len)%nat → parent i = hole →
                    cost_at (<[hole := value]> v) c ≤ cost_at (<[hole := value]> v) i).
  { assert (Hcmp : comparator (vget v sc value) (vget v (sc - 1) value) = true ↔
                   cost_at v (sc - 1) < cost_at v sc).
    { rewrite comparator_spec, !vget_cost by lia. done. }
    unfold c. destruct (comparator _ _).
    - split_and!; [by left|done|]. intros i Hi Hp.
      destruct (Hkids i ltac:(lia) Hp) as [-> | ->];
        rewrite !cost_at_insert_ne by (unfold sc; lia); [lia|].
      assert (cost_at v (sc - 1) < cost_at v sc) by (by apply Hcmp). lia.
    - split_and!; [by right|done|]. intros i Hi Hp.
      destruct (Hkids i ltac:(lia) Hp) as [-> | ->];
        rewrite !cost_at_insert_ne by (unfold sc; lia); [|lia].
      assert (¬ cost_at v (sc - 1) < cost_at v sc) by (rewrite <- Hcmp; done). lia. }
  clearbody c. destruct Hc as (Hcc & Hpc & Hmin).
  assert (Hcl : (hole < c < len)%nat) by (unfold sc in *; lia).
  destruct (IH (<[hole := vget v c value]> v) c) as (v1 & h1 & Hrun & Hh1 & Hge & Hd1 & Hperm & Hlen & Hrest).
  - lia.
  - by rewrite length_insert.
  - lia.
  - eapply (down_step len _ _ hole c); [lia|done| |done|done].
    apply hole_move_exchanged; lia.
  - exists v1, h1. split_and!; [done..| | |].
    + rewrite Hperm. apply hole_move_perm; lia.
    + by rewrite Hlen, length_insert.
    + intros i Hi. rewrite Hrest by done. apply list_lookup_insert_ne. lia.
Qed.

Lemma adjust_heap_spec v :
  (0 < len)%nat → (len ≤ length v)%nat →
  down_fn len (cost_at (<[0%nat := value]> v)) 0 →
  heap_fn len (cost_at (adjust_heap v 0 len value)) ∧
  adjust_heap v 0 len value ≡ₚ <[0%nat := value]> v ∧
  (∀ i, (len ≤ i)%nat → adjust_heap v 0 len value !! i = v !! i).
Proof.
  intros Hpos Hn Hdown. unfold adjust_heap.
  destruct (adjust_heap_loop_spec len v 0%nat) as (v1 & h1 & -> & Hh1 & Hge & Hd1 & Hperm & Hlen & Hrest);
    [lia..|done|].
  destruct (Nat.even len && bool_decide (2 ≤ len ∧ h1 = (len - 2) / 2)%nat) eqn:Htail.
  - apply andb_true_iff in Htail as [Heven Heq].
    apply bool_decide_eq_true in Heq as [_ Heq].
    destruct (tail_child len h1 Heven Heq Hh1) as [Hchild Hlen2].
    rewrite Hchild. set (c := (len - 1)%nat) in *.
    assert (Hpc : parent c = h1).
    { rewrite <- Hchild. replace (2 * (h1 + 1) - 1)%nat with (2 * h1 + 1)%nat by lia.
      apply parent_child_l. }
    assert (Hcl : (h1 < c < len)%nat) by (unfold c; lia).
    destruct (push_heap_loop_spec len value (S c) (<[h1 := vget v1 c value]> v1) c)
      as (Hheap & Hperm2 & Hrest2).
    + lia.
    + rewrite length_insert. lia.
    + lia.
    + apply down_leaf; [|unfold c; lia].
      eapply (down_step len _ _ h1 c); [lia|done| |done|].
      * apply hole_move_exchanged; lia.
      * intros i Hi Hp. pose proof (parent_cases i).
        assert (i = c) as -> by (unfold c; lia). done.
    + unfold push_heap_aux. split_and!; [done| |].
      * rewrite Hperm2, <- Hperm. apply hole_move_perm; lia.
      * intros i Hi. rewrite Hrest2 by done.
        rewrite list_lookup_insert_ne by lia. by apply Hrest.
  - assert (Hleaf : (len ≤ 2 * h1 + 1)%nat).
    { apply leaf_after_loop; [done..|]. intros [Heven Heq].
      rewrite Heven in Htail. cbn [andb] in Htail.
      apply bool_decide_eq_false in Htail. apply Htail. split; [|done].
      apply even_half in Heven. lia. }
    destruct (push_heap_loop_spec len value (S h1) v1 h1) as (Hheap & Hperm2 & Hrest2).
    + lia.
    + lia.
    + lia.
    + by apply down_leaf.
    + unfold push_heap_aux. split_and!; [done| |].
      * by rewrite Hperm2.
      * intros i Hi. rewrite Hrest2 by done. by apply Hrest.
Qed.

End HeapAdjust.

Lemma heap_fn_take n (v : list entry) :
  heap_fn n (cost_at v) → heap_fn n (cost_at (take n v)).
Proof.
  intros Hh i Hi. pose proof (parent_cases i).
  unfold cost_at. rewrite !lookup_take_lt by lia. by apply Hh.
Qed.

Lemma snoc_last {A} (r : list A) n x :
  length r = S n → r !! n = Some x → r = take n r ++ [x].
Proof.
  intros Hlen Hx. rewrite <- (take_drop n r) at 1. f_equal.
  apply list_eq. intros [|i].
  - by rewrite lookup_drop, Nat.add_0_r.
  - rewrite lookup_drop. simpl. apply lookup_ge_None_2. lia.
Qed.

Lemma pop_heap_spec (v : list entry) first rest :
  v = first :: rest → heap_fn (length v) (cost_at v) →
  heap_fn (length rest) (cost_at (removelast (pop_heap v))) ∧
  length (removelast (pop_heap v)) = length rest ∧
  v ≡ₚ first :: removelast (pop_heap v).
Proof.
  intros Hv Hheap. rewrite removelast_firstn_len.
  destruct (decide (1 < length v)%nat) as [Hlen|Hlen].
  2: { destruct rest as [|x rest]; [|subst v; simpl in Hlen; lia].
       subst v. simpl. split_and!; [|done..]. intros i Hi. simpl in Hi. lia. }
  assert (Hpop : pop_heap v =
    adjust_heap (<[(length v - 1)%nat := first]> v) 0 (length v - 1)
      (vget v (length v - 1) first)).
  { unfold pop_heap. rewrite bool_decide_eq_true_2 by done. by rewrite Hv. }
  set (lst := (length v - 1)%nat) in *.
  set (value := vget v lst first) in *.
  set (w := <[lst := first]> v) in *.
  assert (Hrest : length rest = lst) by (subst v lst; simpl; lia).
  assert (Hfirst : v !! 0%nat = Some first) by (by subst v).
  assert (Hvalue : v !! lst = Some value) by (apply vget_lookup; lia).
  assert (Hw : length w = length v) by apply length_insert.
  destruct (adjust_heap_spec lst value w) as (Hh & Hperm & Hkeep).
  - lia.
  - lia.
  - split; [|intros; lia]. intros i Hi _ Hp. pose proof (parent_cases i).
    unfold w. rewrite !cost_at_insert_ne by lia. apply Hheap. lia.
  - rewrite <- Hpop in Hh, Hperm, Hkeep. set (r := pop_heap v) in *.
    assert (Hlr : length r = S lst).
    { rewrite (Permutation_length Hperm), length_insert, Hw. lia. }
    assert (Hr : r !! lst = Some first).
    { rewrite Hkeep by done. unfold w. apply list_lookup_insert_eq. lia. }
    replace (Init.Nat.pred (length r)) with lst by lia.
    rewrite Hrest. split_and!.
    + by apply heap_fn_take.
    + rewrite length_take. lia.
    + rewrite Permutation_cons_append, <- (snoc_last r lst first Hlr Hr), Hperm.
      symmetry. apply swap_perm; [lia|done..].
Qed.

Lemma heap_top_least (v : list entry) first rest :
  v = first :: rest → heap_fn (length v) (cost_at v) →
  ∀ e, e ∈ v → first.2 ≤ e.2.
Proof.
  intros Hv Hheap e [i Hi]%list_elem_of_lookup.
  pose proof (heap_root_min _ _ Hheap i (lookup_lt_Some _ _ _ Hi)) as Hmin.
  unfold cost_at in Hmin. rewrite Hi in Hmin. by subst v.
Qed.

Global Program Instance HeapLaws : OpenListLaws HeapOpenList := {|
  pq_ok := λ v, heap_fn (length v) (cost_at v);
  pq_elems := λ v, v
|}.
Next Obligation. intros i Hi. simpl in Hi. lia. Qed.
Next Obligation. done. Qed.
Next Obligation. intros q e Hq. by apply push_heap_spec. Qed.
Next Obligation. intros q e Hq. by apply push_heap_spec. Qed.
Next Obligation. intros [|e q] Hq; [done|]. simpl. discriminate. Qed.
Next Obligation.
  intros q e q' Hq Htake. change (heap_take q = Some (e, q')) in Htake.
  destruct q as [|x q]; [done|]. unfold heap_take in Htake.
  injection Htake as -> <-.
  destruct (pop_heap_spec (e :: q) e q eq_refl Hq) as (Hh & Hlen & Hperm).
  split_and!.
  - change (heap_fn (length (removelast (pop_heap (e :: q))))
              (cost_at (removelast (pop_heap (e :: q))))).
    by rewrite Hlen.
  - exact Hperm.
  - by apply (heap_top_least (e :: q) e q).
Qed.

(** ** What the two searches return *)

(** [n] is the 4-connected hop distance from [s] to [e] over free cells. *)
Definition shortest (g : Grid) (s e : Point) (n : nat) : Prop :=
  (∃ p, route_to g s e p ∧ length p = n) ∧
  ∀ p, route_to g s e p → (n ≤ length p)%nat.

Lemma route_traversable g a p : route g a p → Forall (traversable g) p.
Proof.
  revert a. induction p as [|b p IH]; intros a Hr; [constructor|].
  destruct Hr as (_ & Hb & Hr). constructor; [done|]. by eapply IH.
Qed.

Lemma route_to_last g s e p : route_to g s e p → p ≠ [] → last p = Some e.
Proof. intros [_ Hl] Hp. by destruct p. Qed.

Lemma route_to_goal_traversable g s e p :
  route_to g s e p → p ≠ [] → traversable g e.
Proof.
  intros Hr Hp. pose proof (route_to_last _ _ _ _ Hr Hp) as Hl.
  destruct Hr as [Hr _]. apply route_traversable in Hr.
  rewrite Forall_forall in Hr. apply Hr.
  rewrite last_Some in Hl. destruct Hl as [l' ->].
  apply elem_of_app. right. by left.
Qed.

Lemma search_post_reachable g s e p :
  search_post g s e p → (∃ r, route_to g s e r) →
  route_to g s e p ∧ (s ∉ p) ∧ shortest g s e (length p).
Proof.
  intros [(_ & Hr & Hs & Hmin)|[Hno ->]] [r Hrt].
  - split_and!; [done..|]. split; [by exists p|].
    intros p' Hp'. by apply Hmin, route_reach.
  - exfalso. by eapply Hno, route_reach.
Qed.

Lemma search_post_unreachable g s e p :
  search_post g s e p → (∀ r, ¬ route_to g s e r) → p = [].
Proof.
  intros [([n Hn] & _)|[_ ->]] Hno; [|done].
  apply reach_route in Hn as (r & Hr & _). by destruct (Hno r).
Qed.

Lemma search_post_nonempty g s e p :
  search_post g s e p → p ≠ [] → route_to g s e p ∧ s ∉ p.
Proof. intros [(_ & Hr & Hs & _)|[_ ->]] Hp; done. Qed.

Lemma search_post_same g s p : search_post g s s p → p = [].
Proof.
  intros [(_ & _ & _ & Hmin)|[_ ->]]; [|done].
  specialize (Hmin 0%nat (reach_here g s)). destruct p; [done|simpl in Hmin; lia].
Qed.

Lemma shortest_unique g s e n m : shortest g s e n → shortest g s e m → n = m.
Proof.
  intros [(p & Hp & <-) Hn] [(q & Hq & <-) Hm].
  specialize (Hn q Hq). specialize (Hm p Hp). lia.
Qed.

Lemma obstacle_goal_unreachable g s e r :
  ¬ free g e → s ≠ e → ¬ route_to g s e r.
Proof.
  intros Hnf Hne Hr. destruct r as [|b r].
  - destruct Hr as [_ [= ->]]. done.
  - apply route_to_goal_traversable in Hr; [|done].
    apply traversable_iff in Hr as [_ ?]. done.
Qed.

Definition emptyGrid : Grid := make2 0.

(** Membership of a given cell in the grid. *)
Ltac solve_inb :=
  unfold inbP, inb; cbn [px py]; rewrite ROWS_eq, COLS_eq; lia.

Lemma emptyGrid_shape : shape emptyGrid.
Proof. apply make2_shape. Qed.

(** C1, as stated, fails when start and goal are the same free cell: the
    route of no step exists, and both searches return the empty path. *)
Lemma shortest_nonempty_counterexample :
  let g := emptyGrid in
  let s := mkPoint 0 0 in
  shape g ∧ inbP s ∧ free g s ∧ route_to g s s [] ∧
  findPath g s s = Ok [] ∧ findPathA HeapOpenList g s s = Ok [].
Proof.
  cbv zeta. split_and!; [apply emptyGrid_shape|solve_inb|
                         reflexivity|by split|reflexivity|reflexivity].
Qed.

(** C1 (amended): on every grid, for in-bounds free start and goal cells
    joined by a 4-connected route of free cells, [findPath] and [findPathA]
    (over any priority queue that keeps the contract of
    [std::priority_queue]) both return a route from start to goal whose
    length is the shortest hop distance, so the two lengths agree; the path
    is non-empty exactly when start and goal differ. *)
Theorem searches_return_shortest (Q : OpenList) (L : OpenListLaws Q)
    (g : Grid) (start goal : Point) :
  shape g → inbP start → free g start → inbP goal → free g goal →
  (∃ r, route_to g start goal r) →
  ∃ pb pa,
    findPath g start goal = Ok pb ∧ findPathA Q g start goal = Ok pa ∧
    route_to g start goal pb ∧ route_to g start goal pa ∧
    shortest g start goal (length pb) ∧ shortest g start goal (length pa) ∧
    length pb = length pa ∧
    (pb ≠ [] ↔ start ≠ goal) ∧ (pa ≠ [] ↔ start ≠ goal).
Proof.
  intros Hg Hs _ He _ Hroute.
  destruct (findPath_post g start goal Hg Hs) as (pb & Hpb & Hpostb).
  destruct (findPathA_post g start goal Hg Hs He) as (pa & Hpa & Hposta).
  destruct (search_post_reachable _ _ _ _ Hpostb Hroute) as (Hrb & _ & Hsb).
  destruct (search_post_reachable _ _ _ _ Hposta Hroute) as (Hra & _ & Hsa).
  assert (Hne : ∀ p, search_post g start goal p → route_to g start goal p →
                     p ≠ [] ↔ start ≠ goal).
  { intros p Hpost [_ Hlast]. split.
    - intros Hp ->. by apply Hp, (search_post_same g goal).
    - intros Hsg ->. by injection Hlast. }
  exists pb, pa. split_and!; try done.
  - by eapply shortest_unique.
  - by apply Hne.
  - by apply Hne.
Qed.

Lemma searches_return_shortest_witness :
  let g := emptyGrid in
  let s := mkPoint 0 0 in
  let e := mkPoint 2 2 in
  ∃ pb pa,
    findPath g s e = Ok pb ∧ findPathA HeapOpenList g s e = Ok pa ∧
    route_to g s e pb ∧ route_to g s e pa ∧
    shortest g s e (length pb) ∧ shortest g s e (length pa) ∧
    length pb = length pa ∧ (pb ≠ [] ↔ s ≠ e) ∧ (pa ≠ [] ↔ s ≠ e).
Proof.
  cbv zeta.
  apply (searches_return_shortest HeapOpenList HeapLaws).
  - apply emptyGrid_shape.
  - solve_inb.
  - reflexivity.
  - solve_inb.
  - reflexivity.
  - exists [mkPoint 1 0; mkPoint 2 0; mkPoint 2 1; mkPoint 2 2].
    split; [|reflexivity]. simpl.
    repeat split; reflexivity.
Defined.

(** C2: on every grid, for in-bounds start and goal, a non-empty path
    returned by [findPath] or [findPathA] leaves the start cell out, ends at
    the goal, moves by one 4-connected step at a time (its first cell one
    step from the start) and holds only cells that are in bounds and free. *)
Theorem returned_path_is_route (Q : OpenList) (L : OpenListLaws Q)
    (g : Grid) (start goal : Point) (p : list Point) :
  shape g → inbP start → inbP goal →
  findPath g start goal = Ok p ∨ findPathA Q g start goal = Ok p →
  p ≠ [] →
  (start ∉ p) ∧ last p = Some goal ∧ route g start p ∧
  Forall (λ c, inbP c ∧ free g c) p.
Proof.
  intros Hg Hs He Hfound Hp.
  assert (Hpost : search_post g start goal p).
  { destruct Hfound as [Hf|Hf].
    - destruct (findPath_post g start goal Hg Hs) as (p' & Hp' & Hpost). congruence.
    - destruct (findPathA_post g start goal Hg Hs He) as (p' & Hp' & Hpost). congruence. }
  destruct (search_post_nonempty _ _ _ _ Hpost Hp) as [Hr Hns].
  split_and!; [done|by eapply route_to_last|apply Hr|].
  destruct Hr as [Hr _]. apply route_traversable in Hr.
  eapply Forall_impl; [exact Hr|]. intros c Hc. by apply traversable_iff.
Qed.

Lemma returned_path_is_route_witness :
  let g := emptyGrid in
  let s := mkPoint 0 0 in
  let e := mkPoint 1 1 in
  let p := [mkPoint 1 0; mkPoint 1 1] in
  (s ∉ p) ∧ last p = Some e ∧ route g s p ∧ Forall (λ c, inbP c ∧ free g c) p.
Proof.
  cbv zeta.
  apply (returned_path_is_route HeapOpenList HeapLaws emptyGrid (mkPoint 0 0) (mkPoint 1 1)).
  - apply emptyGrid_shape.
  - solve_inb.
  - solve_inb.
  - left. vm_compute. reflexivity.
  - discriminate.
Defined.

(** ** A* with a goal that is not a cell of the grid

    Nothing in [findPathA] indexes a vector with the goal; the goal only
    enters the f-costs.  Whatever those are, every cell is expanded with the
    same g-cost each time it is taken, so each cell and offset pushes at
    most once, and the loop ends. *)

Section AStarOutside.
Context {Q : OpenList} {L : OpenListLaws Q}.
Variables (g : Grid) (start goal : Point).
Hypothesis Hg : shape g.

(** [events]: the pushes made so far, by the cell expanded and the offset
    tried; [npop]: how many entries were taken. *)
Record safe_inv (events : list (Point * (Z * Z))) (npop : nat) (st : AStarState Q)
    : Prop := mk_safe_inv {
  si_shape_v : shape (a_visited st);
  si_shape_p : shape (a_parents st);
  si_shape_g : shape (gCost st);
  si_ok : pq_ok (openList st);
  si_entries : ∀ e, e ∈ pq_elems (openList st) →
    inbP e.1 ∧ 0 ≤ gat (gCost st) e.1 ≤ Z.of_nat (length events);
  si_nodup : NoDup events;
  si_ev : ∀ e, e ∈ events →
    inbP e.1 ∧ e.2 ∈ dirs ∧ get2 (a_visited st) (px e.1) (py e.1) = Ok true ∧
    gat (gCost st) (neighbour e.1 e.2) ≤ gat (gCost st) e.1 + 1;
  si_count : (npop + length (pq_elems (openList st)) = 1 + length events)%nat
}.

Lemma safe_events_bound events npop st :
  safe_inv events npop st → (length events ≤ 4 * cells)%nat.
Proof.
  intros Hinv. apply nodup_events_length; [apply (si_nodup _ _ _ Hinv)|].
  intros e He. by destruct (si_ev _ _ _ Hinv e He) as (? & ? & _).
Qed.

(** One offset of the expansion of [cur], a visited cell with a g-cost. *)
Lemma safe_visit events npop cur st d :
  safe_inv events npop st → d ∈ dirs → inbP cur →
  get2 (a_visited st) (px cur) (py cur) = Ok true →
  0 ≤ gat (gCost st) cur ≤ Z.of_nat (length events) →
  ∃ st' events',
    astar_visit g goal cur st d = Ok st' ∧ safe_inv events' npop st' ∧
    get2 (a_visited st') (px cur) (py cur) = Ok true ∧
    0 ≤ gat (gCost st') cur ≤ Z.of_nat (length events').
Proof.
  intros Hinv Hd Hcur Hvis Hgc.
  pose proof Hinv as [Hsv Hsp Hsg Hok Hent Hnd Hev Hcount].
  pose proof (safe_events_bound _ _ _ Hinv) as Hbound. pose proof cells_eq as Hcells.
  unfold astar_visit. set (n := neighbour cur d).
  destruct (isValid_total g (px n) (py n) Hg) as [[|] Hv]; rewrite Hv; cbn [bind].
  2: { by exists st, events. }
  pose proof (isValid_true_inb _ _ _ Hv) as Hn.
  destruct (get2_inb (a_visited st) (px n) (py n) Hsv Hn) as [seen Hseen].
  rewrite Hseen. cbn [bind]. destruct seen; cbn [negb].
  { by exists st, events. }
  destruct (get2_inb (gCost st) (px cur) (py cur) Hsg Hcur) as [gc Hgcur].
  destruct (get2_inb (gCost st) (px n) (py n) Hsg Hn) as [gn Hgn].
  rewrite Hgcur, Hgn. cbn [bind].
  assert (Hgc' : gat (gCost st) cur = gc) by (unfold gat; by rewrite Hgcur).
  assert (Hgn' : gat (gCost st) n = gn) by (unfold gat; by rewrite Hgn).
  rewrite (int_wrap_small (gc + 1)) by lia.
  destruct (Z.ltb_spec (gc + 1) gn) as [Hlt|Hge].
  2: { by exists st, events. }
  destruct (set2_inb (a_parents st) (px n) (py n) cur Hsp Hn) as [par Hpar].
  destruct (set2_inb (gCost st) (px n) (py n) (gc + 1) Hsg Hn) as [gco Hgco].
  rewrite Hpar, Hgco. cbn [bind].
  assert (Hne : cur ≠ n) by (intros Heq; rewrite <- Heq in Hseen; congruence).
  assert (Hnew : (cur, d) ∉ events).
  { intros Hin. destruct (Hev _ Hin) as (_ & _ & _ & Hle). cbn [fst snd] in Hle.
    fold n in Hle. lia. }
  eexists _, ((cur, d) :: events). split; [reflexivity|].
  assert (Hgat_n : gat gco n = gc + 1) by exact (gat_set2_eq _ _ _ _ Hgco).
  assert (Hgat_o : ∀ c, c ≠ n → gat gco c = gat (gCost st) c).
  { intros c Hc. exact (gat_set2_ne _ _ _ _ _ Hgco Hc). }
  assert (Hgat_le : ∀ c, gat gco c ≤ gat (gCost st) c).
  { intros c. destruct (decide (c = n)) as [->|Hc]; [lia|]. by rewrite Hgat_o. }
  split_and!.
  - split; cbn [a_visited a_parents gCost openList].
    + done.
    + by eapply set2_shape.
    + by eapply set2_shape.
    + by apply pq_push_ok.
    + intros e He. rewrite pq_push_elems in He by done.
      cbn [length]. apply elem_of_cons in He as [->|He]; cbn [fst].
      * split; [done|]. lia.
      * destruct (Hent e He) as [Hin [H0 H1]]. split; [done|].
        destruct (decide (e.1 = n)) as [->|Hc]; [lia|]. rewrite Hgat_o by done. lia.
    + by constructor.
    + intros e [->|He]%elem_of_cons; cbn [fst snd].
      * fold n. split_and!; [done..|]. rewrite Hgat_n, Hgat_o by done. lia.
      * destruct (Hev e He) as (Hin & Hdir & Hvis' & Hle). split_and!; [done..|].
        assert (e.1 ≠ n) by (intros Heq; rewrite Heq in Hvis'; congruence).
        rewrite (Hgat_o e.1) by done. pose proof (Hgat_le (neighbour e.1 e.2)). lia.
    + rewrite (Permutation_length (pq_push_elems _ _ Hok)). cbn [length]. lia.
  - done.
  - rewrite Hgat_o by done. lia.
  - rewrite Hgat_o by done. cbn [length]. lia.
Qed.

Lemma safe_for_each cur ds : ∀ events npop st,
  safe_inv events npop st → (∀ d, d ∈ ds → d ∈ dirs) → inbP cur →
  get2 (a_visited st) (px cur) (py cur) = Ok true →
  0 ≤ gat (gCost st) cur ≤ Z.of_nat (length events) →
  ∃ st' events',
    for_each (astar_visit g goal cur) ds st = Ok st' ∧ safe_inv events' npop st'.
Proof.
  induction ds as [|d ds IH]; intros events npop st Hinv Hds Hcur Hvis Hgc;
    cbn [for_each].
  - by exists st, events.
  - destruct (safe_visit events npop cur st d Hinv) as (st1 & ev1 & -> & Hinv1 & Hvis1 & Hgc1);
      [apply Hds; by left|done..|].
    cbn [bind]. apply (IH ev1); [done| |done..].
    intros d' Hd'. apply Hds. by right.
Qed.

Lemma safe_loop fuel : ∀ events npop st,
  ¬ inbP goal → safe_inv events npop st → (1 + 4 * cells < npop + fuel)%nat →
  astar_loop fuel g start goal st = Ok [].
Proof.
  induction fuel as [|fuel IH]; intros events npop st Hout Hinv Hfuel.
  - pose proof (safe_events_bound _ _ _ Hinv). pose proof (si_count _ _ _ Hinv). lia.
  - cbn [astar_loop].
    destruct (pq_take (openList st)) as [[[c f] rest]|] eqn:Htake; [|done].
    pose proof Hinv as [Hsv Hsp Hsg Hok Hent Hnd Hev Hcount].
    destruct (pq_take_some _ _ _ Hok Htake) as (Hok' & Hperm & _).
    assert (Hcin : (c, f) ∈ pq_elems (openList st)) by (rewrite Hperm; by left).
    destruct (Hent _ Hcin) as [Hc Hgc]. cbn [fst] in Hc, Hgc.
    destruct (decide (c = goal)) as [->|Hne]; [done|].
    destruct (set2_inb (a_visited st) (px c) (py c) true Hsv Hc) as [vis Hvis].
    rewrite Hvis. cbn [bind].
    destruct (safe_for_each c dirs events (S npop)
                (mkAStar rest vis (a_parents st) (gCost st)))
      as (st' & ev' & -> & Hinv'); [|done|done| |done|].
    + split; cbn [a_visited a_parents gCost openList]; try done.
      * by eapply set2_shape.
      * intros e He. apply Hent. rewrite Hperm. by right.
      * intros e He. destruct (Hev e He) as (Hin & Hdir & Hvis' & Hle).
        split_and!; [done..| |done].
        destruct (decide (e.1 = c)) as [->|Hec].
        -- by rewrite (get2_set2_eq _ _ _ _ _ Hvis).
        -- by rewrite (get2_set2_ne _ _ _ _ _ _ _ Hvis (point_neq _ _ Hec)).
      * rewrite (Permutation_length Hperm) in Hcount. cbn [length] in Hcount. lia.
    + cbn [a_visited]. by rewrite (get2_set2_eq _ _ _ _ _ Hvis).
    + cbn [bind]. apply (IH ev' (S npop)); [done..|lia].
Qed.

Lemma findPathA_outside_goal :
  inbP start → ¬ inbP goal → findPathA Q g start goal = Ok [].
Proof.
  intros Hs Hout. unfold findPathA.
  destruct (set2_inb (make2 INT_MAX) (px start) (py start) 0 (make2_shape _) Hs)
    as [gco Hgco].
  rewrite Hgco. cbn [bind].
  apply (safe_loop astar_fuel [] 0%nat); [done| |unfold astar_fuel; lia].
  pose proof (pq_push_elems pq_new (start, 0) pq_new_ok) as Hperm0.
  rewrite pq_new_elems in Hperm0.
  split; cbn [a_visited a_parents gCost openList].
  - apply make2_shape.
  - apply make2_shape.
  - by eapply set2_shape, Hgco; apply make2_shape.
  - apply pq_push_ok, pq_new_ok.
  - intros e He. rewrite Hperm0 in He. apply list_elem_of_singleton in He as ->.
    cbn [fst length]. split; [done|]. rewrite (gat_set2_eq _ _ _ _ Hgco). lia.
  - constructor.
  - intros e He. by apply elem_of_nil in He.
  - rewrite (Permutation_length Hperm0). done.
Qed.

End AStarOutside.

(** C7: on every grid, for an in-bounds start cell and any goal, a cell of
    the grid or not, [findPath] and [findPathA] always return a path (no
    fault, no exhausted loop), and the path is empty when start and goal
    are the same cell, when the goal is not a free cell, and when no
    4-connected route of free cells leads from the start to the goal (a
    route counts the cells after the start, as the paths of the program
    do). *)
Theorem searches_fail_by_empty_path (Q : OpenList) (L : OpenListLaws Q)
    (g : Grid) (start goal : Point) :
  shape g → inbP start →
  (∃ pb pa, findPath g start goal = Ok pb ∧ findPathA Q g start goal = Ok pa) ∧
  (start = goal ∨ ¬ free g goal ∨ (∀ r, ¬ route_to g start goal r) →
   findPath g start goal = Ok [] ∧ findPathA Q g start goal = Ok []).
Proof.
  intros Hg Hs.
  destruct (findPath_post g start goal Hg Hs) as (pb & Hpb & Hpostb).
  assert (Hin : inbP goal ∨ ¬ inbP goal) by (unfold inbP, inb; lia).
  destruct Hin as [He|Hout].
  - destruct (findPathA_post g start goal Hg Hs He) as (pa & Hpa & Hposta).
    split; [by exists pb, pa|]. intros Hcase.
    assert (Hnil : ∀ p, search_post g start goal p → p = []).
    { intros p Hpost. destruct (decide (start = goal)) as [->|Hne].
      - by eapply search_post_same.
      - apply (search_post_unreachable _ _ _ _ Hpost).
        destruct Hcase as [?|[Hnf|Hno]]; [done| |done].
        intros r. by apply obstacle_goal_unreachable. }
    by rewrite Hpb, Hpa, (Hnil pb), (Hnil pa).
  - assert (Hb : findPath g start goal = Ok []).
    { rewrite Hpb. f_equal. apply (search_post_unreachable _ _ _ _ Hpostb).
      intros [|b r] Hr.
      - destruct Hr as [_ [= ->]]. done.
      - apply route_to_goal_traversable in Hr; [|done].
        by apply traversable_inb in Hr. }
    pose proof (findPathA_outside_goal g start goal Hg Hs Hout) as Ha.
    rewrite Hb, Ha. split; [by exists [], []|done].
Qed.

Lemma searches_fail_by_empty_path_witness :
  let g := emptyGrid in
  let s := mkPoint 3 4 in
  let e := mkPoint 20 0 in
  (∃ pb pa, findPath g s e = Ok pb ∧ findPathA HeapOpenList g s e = Ok pa) ∧
  (s = e ∨ ¬ free g e ∨ (∀ r, ¬ route_to g s e r) →
   findPath g s e = Ok [] ∧ findPathA HeapOpenList g s e = Ok []).
Proof.
  cbv zeta.
  apply (searches_fail_by_empty_path HeapOpenList HeapLaws emptyGrid (mkPoint 3 4) (mkPoint 20 0)).
  - apply emptyGrid_shape.
  - solve_inb.
Defined.

(** ** Ties among equal f-costs in the open list *)

Lemma search_post_length g s e p p' :
  search_post g s e p → search_post g s e p' → length p = length p'.
Proof.
  intros [(_ & Hr & _ & Hmin)|[Hno ->]] [(_ & Hr' & _ & Hmin')|[Hno' ->]].
  - apply route_reach in Hr, Hr'.
    specialize (Hmin _ Hr'). specialize (Hmin' _ Hr). lia.
  - apply route_reach in Hr. by destruct (Hno' _ Hr).
  - apply route_reach in Hr'. by destruct (Hno _ Hr').
  - done.
Qed.

(** C6, as stated, fails: on the grid without obstacles, from cell (1,1) to
    cell (0,3), [findPathA] over the binary heap of [std::priority_queue]
    reaches the goal through (0,2), while the A* whose open list pops equal
    f-costs oldest first reaches it through (1,3).  After (1,1), (1,2) and
    (0,1) are expanded, (1,3) and (0,2) both wait with f-cost 3, (1,3)
    inserted first; [std::pop_heap] leaves (0,2) on top. *)
Lemma heap_tie_break_counterexample :
  let g := emptyGrid in
  let s := mkPoint 1 1 in
  let e := mkPoint 0 3 in
  shape g ∧ inbP s ∧ inbP e ∧
  findPathA HeapOpenList g s e = Ok [mkPoint 1 2; mkPoint 0 2; mkPoint 0 3] ∧
  findPathA FifoOpenList g s e = Ok [mkPoint 1 2; mkPoint 1 3; mkPoint 0 3] ∧
  findPathA HeapOpenList g s e ≠ findPathA FifoOpenList g s e.
Proof.
  cbv zeta.
  assert (Hheap : findPathA HeapOpenList emptyGrid (mkPoint 1 1) (mkPoint 0 3) =
                  Ok [mkPoint 1 2; mkPoint 0 2; mkPoint 0 3]) by (vm_compute; reflexivity).
  assert (Hfifo : findPathA FifoOpenList emptyGrid (mkPoint 1 1) (mkPoint 0 3) =
                  Ok [mkPoint 1 2; mkPoint 1 3; mkPoint 0 3]) by (vm_compute; reflexivity).
  split_and!; [apply emptyGrid_shape|solve_inb|solve_inb|done|done|].
  rewrite Hheap, Hfifo. discriminate.
Qed.

(** C6 (amended): on every grid, for in-bounds start and goal cells,
    [findPathA] over the binary heap of [std::priority_queue] and the A*
    whose open list pops equal f-costs oldest first both return a path, and
    the two paths have the same length (so one is empty exactly when the
    other is); each one that is not empty is a route of free cells from the
    start to the goal.  The cells of the two paths may differ. *)
Theorem heap_astar_same_length_as_fifo (g : Grid) (start goal : Point) :
  shape g → inbP start → inbP goal →
  ∃ p p',
    findPathA HeapOpenList g start goal = Ok p ∧
    findPathA FifoOpenList g start goal = Ok p' ∧
    length p = length p' ∧ (p = [] ↔ p' = []) ∧
    (p ≠ [] → route_to g start goal p) ∧ (p' ≠ [] → route_to g start goal p').
Proof.
  intros Hg Hs He.
  destruct (findPathA_post (L := HeapLaws) g start goal Hg Hs He) as (p & Hp & Hpost).
  destruct (findPathA_post (L := FifoLaws) g start goal Hg Hs He) as (p' & Hp' & Hpost').
  pose proof (search_post_length _ _ _ _ _ Hpost Hpost') as Hlen.
  exists p, p'. split_and!; [done..| | |].
  - destruct p, p'; simpl in Hlen; try lia; done.
  - intros Hne. by apply (search_post_nonempty _ _ _ _ Hpost).
  - intros Hne. by apply (search_post_nonempty _ _ _ _ Hpost').
Qed.

Lemma heap_astar_same_length_as_fifo_witness :
  let g := emptyGrid in
  let s := mkPoint 1 1 in
  let e := mkPoint 0 3 in
  ∃ p p',
    findPathA HeapOpenList g s e = Ok p ∧ findPathA FifoOpenList g s e = Ok p' ∧
    length p = length p' ∧ (p = [] ↔ p' = []) ∧
    (p ≠ [] → route_to g s e p) ∧ (p' ≠ [] → route_to g s e p').
Proof.
  cbv zeta. apply heap_astar_same_length_as_fifo.
  - apply emptyGrid_shape.
  - solve_inb.
  - solve_inb.
Defined.

(** ** The searches never look at the start cell *)

(** Two grids that differ at most at the cell [s]. *)
Definition agree_off (s : Point) (g g' : Grid) : Prop :=
  ∀ c, c ≠ s → get2 g (px c) (py c) = get2 g' (px c) (py c).

Section StartIgnored.
Variables (g g' : Grid) (s : Point).
Hypothesis Hg : shape g.
Hypothesis Hg' : shape g'.
Hypothesis Hagree : agree_off s g g'.

Lemma isValid_agree c :
  c ≠ s → isValidGridPosition g (px c) (py c) = isValidGridPosition g' (px c) (py c).
Proof. intros Hc. unfold isValidGridPosition. by rewrite (Hagree c Hc). Qed.

Lemma isValid_start_seen {S} (vis : list (list bool)) (k : Res S) (st : Res S) grid :
  shape grid → get2 vis (px s) (py s) = Ok true →
  (ok <- isValidGridPosition grid (px s) (py s);;
   if ok then seen <- get2 vis (px s) (py s);; if negb seen then k else st else st) = st.
Proof.
  intros Hgrid Hvis. destruct (isValid_total grid (px s) (py s) Hgrid) as [b ->].
  cbn [bind]. destruct b; [|done]. by rewrite Hvis.
Qed.

Lemma bfs_visit_agree cur st d :
  get2 (visited st) (px s) (py s) = Ok true →
  bfs_visit g cur st d = bfs_visit g' cur st d.
Proof.
  intros Hvis. unfold bfs_visit.
  destruct (decide (neighbour cur d = s)) as [->|Hne].
  - by rewrite !isValid_start_seen.
  - by rewrite (isValid_agree _ Hne).
Qed.

Lemma bfs_visit_keeps grid cur st d st' :
  get2 (visited st) (px s) (py s) = Ok true →
  bfs_visit grid cur st d = Ok st' → get2 (visited st') (px s) (py s) = Ok true.
Proof.
  intros Hvis. unfold bfs_visit. set (n := neighbour cur d).
  destruct (isValidGridPosition _ _ _) as [[|]| |]; cbn [bind]; try congruence.
  destruct (get2 (visited st) (px n) (py n)) as [[|]| |]; cbn [bind negb];
    try congruence.
  destruct (set2 (visited st) _ _ _) as [vis| |] eqn:Hset; cbn [bind]; try congruence.
  destruct (set2 (parents st) _ _ _) as [par| |]; cbn [bind]; try congruence.
  intros [= <-]. cbn [visited].
  destruct (decide (s = n)) as [->|Hne].
  - by rewrite (get2_set2_eq _ _ _ _ _ Hset).
  - by rewrite (get2_set2_ne _ _ _ _ _ _ _ Hset (point_neq _ _ Hne)).
Qed.

Lemma bfs_for_each_agree cur ds : ∀ st,
  get2 (visited st) (px s) (py s) = Ok true →
  for_each (bfs_visit g cur) ds st = for_each (bfs_visit g' cur) ds st ∧
  ∀ st', for_each (bfs_visit g cur) ds st = Ok st' →
         get2 (visited st') (px s) (py s) = Ok true.
Proof.
  induction ds as [|d ds IH]; intros st Hvis; cbn [for_each].
  - split; [done|]. by intros st' [= <-].
  - rewrite <- (bfs_visit_agree cur st d Hvis).
    destruct (bfs_visit g cur st d) as [st1| |] eqn:Hv; cbn [bind]; [|done..].
    apply IH. by eapply bfs_visit_keeps.
Qed.

Lemma bfs_loop_agree goal fuel : ∀ st,
  get2 (visited st) (px s) (py s) = Ok true →
  bfs_loop fuel g s goal st = bfs_loop fuel g' s goal st.
Proof.
  induction fuel as [|fuel IH]; intros st Hvis; cbn [bfs_loop]; [done|].
  destruct (queue st) as [|cur rest]; [done|].
  destruct (decide (cur = goal)); [done|].
  destruct (bfs_for_each_agree cur dirs (mkBfs rest (visited st) (parents st)) Hvis)
    as [<- Hkeep].
  destruct (for_each (bfs_visit g cur) dirs _) as [st1| |]; cbn [bind]; [|done..].
  apply IH. by apply Hkeep.
Qed.

Lemma findPath_agree goal : findPath g s goal = findPath g' s goal.
Proof.
  unfold findPath.
  destruct (set2 (make2 false) (px s) (py s) true) as [vis| |] eqn:Hset;
    cbn [bind]; [|done..].
  apply bfs_loop_agree. cbn [visited]. by rewrite (get2_set2_eq _ _ _ _ _ Hset).
Qed.

Context {Q : OpenList} {L : OpenListLaws Q}.

Lemma astar_visit_agree goal cur st d :
  get2 (a_visited st) (px s) (py s) = Ok true →
  astar_visit g goal cur st d = astar_visit g' goal cur st d.
Proof.
  intros Hvis. unfold astar_visit.
  destruct (decide (neighbour cur d = s)) as [->|Hne].
  - by rewrite !isValid_start_seen.
  - by rewrite (isValid_agree _ Hne).
Qed.

Lemma astar_visit_keeps grid goal cur (st st' : AStarState Q) d :
  get2 (a_visited st) (px s) (py s) = Ok true →
  astar_visit grid goal cur st d = Ok st' →
  get2 (a_visited st') (px s) (py s) = Ok true.
Proof.
  intros Hvis. unfold astar_visit. set (n := neighbour cur d).
  destruct (isValidGridPosition _ _ _) as [[|]| |]; cbn [bind]; try congruence.
  destruct (get2 (a_visited st) (px n) (py n)) as [[|]| |]; cbn [bind negb];
    try congruence.
  destruct (get2 (gCost st) (px cur) (py cur)) as [gc| |]; cbn [bind]; try congruence.
  destruct (get2 (gCost st) (px n) (py n)) as [gn| |]; cbn [bind]; try congruence.
  destruct (_ <? _); [|congruence].
  destruct (set2 (a_parents st) _ _ _) as [par| |]; cbn [bind]; try congruence.
  destruct (set2 (gCost st) _ _ _) as [gco| |]; cbn [bind]; try congruence.
  by intros [= <-].
Qed.

Lemma astar_for_each_agree goal cur ds : ∀ st : AStarState Q,
  get2 (a_visited st) (px s) (py s) = Ok true →
  for_each (astar_visit g goal cur) ds st = for_each (astar_visit g' goal cur) ds st ∧
  ∀ st', for_each (astar_visit g goal cur) ds st = Ok st' →
         get2 (a_visited st') (px s) (py s) = Ok true.
Proof.
  induction ds as [|d ds IH]; intros st Hvis; cbn [for_each].
  - split; [done|]. by intros st' [= <-].
  - rewrite <- (astar_visit_agree goal cur st d Hvis).
    destruct (astar_visit g goal cur st d) as [st1| |] eqn:Hv; cbn [bind]; [|done..].
    apply IH. by eapply astar_visit_keeps.
Qed.

(** One pass of the loop, once the start cell is marked or about to be. *)
Lemma astar_loop_agree goal fuel : ∀ st : AStarState Q,
  get2 (a_visited st) (px s) (py s) = Ok true ∨
  (∃ f rest, pq_take (openList st) = Some ((s, f), rest)) →
  astar_loop fuel g s goal st = astar_loop fuel g' s goal st.
Proof.
  induction fuel as [|fuel IH]; intros st Hvis; cbn [astar_loop]; [done|].
  destruct (pq_take (openList st)) as [[[cur f] rest]|] eqn:Htake; [|done].
  destruct (decide (cur = goal)); [done|].
  destruct (set2 (a_visited st) (px cur) (py cur) true) as [vis| |] eqn:Hset;
    cbn [bind]; [|done..].
  assert (Hvis' : get2 vis (px s) (py s) = Ok true).
  { destruct Hvis as [Hvis|(f' & rest' & [= -> _ _])].
    - destruct (decide (s = cur)) as [->|Hne].
      + by rewrite (get2_set2_eq _ _ _ _ _ Hset).
      + by rewrite (get2_set2_ne _ _ _ _ _ _ _ Hset (point_neq _ _ Hne)).
    - by rewrite (get2_set2_eq _ _ _ _ _ Hset). }
  destruct (astar_for_each_agree goal cur dirs
              (mkAStar rest vis (a_parents st) (gCost st)) Hvis') as [<- Hkeep].
  destruct (for_each (astar_visit g goal cur) dirs _) as [st1| |]; cbn [bind]; [|done..].
  apply IH. left. by apply Hkeep.
Qed.

Lemma findPathA_agree goal : findPathA Q g s goal = findPathA Q g' s goal.
Proof.
  unfold findPathA.
  destruct (set2 (make2 INT_MAX) (px s) (py s) 0) as [gco| |]; cbn [bind]; [|done..].
  apply astar_loop_agree. right. cbn [openList].
  pose proof (pq_push_elems pq_new (s, 0) pq_new_ok) as Hperm0.
  rewrite pq_new_elems in Hperm0.
  pose proof (pq_push_ok pq_new (s, 0) pq_new_ok) as Hok0.
  destruct (pq_take (pq_push pq_new (s, 0))) as [[[c f] rest]|] eqn:Htake.
  - destruct (pq_take_some _ _ _ Hok0 Htake) as (_ & Hperm & _).
    rewrite Hperm in Hperm0. apply Permutation_singleton_r in Hperm0.
    injection Hperm0 as -> -> _. by exists 0, rest.
  - apply pq_take_none in Htake; [|done]. rewrite Htake in Hperm0.
    by apply Permutation_nil_cons in Hperm0.
Qed.

End StartIgnored.

(** A grid whose only obstacle sits on the cell (0, 0). *)
Definition cornerBlocked : Grid := <[0%nat := <[0%nat := 1]> (replicate (Z.to_nat COLS) 0)]> emptyGrid.

Lemma cornerBlocked_shape : shape cornerBlocked.
Proof.
  apply (set2_shape emptyGrid _ 0 0 1 emptyGrid_shape). reflexivity.
Qed.

(** C10: neither search reads the occupancy of its start cell. Run from a
    start cell that holds an obstacle (or any other value), each returns
    exactly what it returns on the grid that differs only in having the
    start cell free; and such a run can return a non-empty path of free
    cells, as from the blocked corner (0, 0) to its neighbour (1, 0). *)
Theorem start_cell_never_consulted (Q : OpenList) (L : OpenListLaws Q) :
  (∀ g g0 start goal,
     shape g → set2 g (px start) (py start) 0 = Ok g0 →
     findPath g start goal = findPath g0 start goal ∧
     findPathA Q g start goal = findPathA Q g0 start goal) ∧
  (∃ g start goal pb pa,
     shape g ∧ inbP start ∧ get2 g (px start) (py start) = Ok 1 ∧
     findPath g start goal = Ok pb ∧ findPathA Q g start goal = Ok pa ∧
     pb ≠ [] ∧ pa ≠ [] ∧ Forall (free g) pb ∧ Forall (free g) pa).
Proof.
  split.
  - intros g g0 start goal Hg Hset.
    assert (Hg0 : shape g0) by (by eapply set2_shape).
    assert (Hagree : agree_off start g g0).
    { intros c Hc. symmetry. by apply (get2_set2_ne _ _ _ _ _ _ _ Hset), point_neq. }
    split.
    + by apply findPath_agree.
    + by apply findPathA_agree.
  - assert (Hs : inbP (mkPoint 0 0)) by solve_inb.
    assert (He : inbP (mkPoint 1 0)) by solve_inb.
    set (s := mkPoint 0 0) in *. set (e := mkPoint 1 0) in *.
    assert (Hroute : route_to cornerBlocked s e [e]).
    { split; [|done]. simpl. split_and!; [reflexivity|reflexivity|done]. }
    destruct (findPathA_post (Q := Q) cornerBlocked s e cornerBlocked_shape Hs He)
      as (pa & Hpa & Hpost).
    destruct (search_post_reachable _ _ _ _ Hpost (ex_intro _ _ Hroute))
      as ([Hra Hlast] & _ & _).
    exists cornerBlocked, s, e, [e], pa.
    split_and!; [apply cornerBlocked_shape|done|reflexivity|reflexivity|done|done| | |].
    + intros ->. by injection Hlast.
    + constructor; [reflexivity|constructor].
    + apply route_traversable in Hra. eapply Forall_impl; [exact Hra|].
      intros c Hc. by apply traversable_iff in Hc as [_ ?].
Qed.

(** ** The event loop *)

Section MainProps.
Context {Q : OpenList}.

(** C9: a left click on a cell that is not traversable (an obstacle, or
    coordinates outside the grid) leaves the whole state as it was: the
    destination, [hasDestination], the path, the progress index, and the
    log of searches, so no search was called. *)
Theorem left_click_untraversable_ignored (st : State) (x y : Z) :
  shape (warehouseGrid st) →
  ¬ traversable (warehouseGrid st) (mkPoint (x ÷ GRID_SIZE) (y ÷ GRID_SIZE)) →
  handle_event st (LeftClick x y) = Ok st.
Proof.
  intros Hg Hnt. cbn [handle_event].
  destruct (isValid_total (warehouseGrid st) (x ÷ GRID_SIZE) (y ÷ GRID_SIZE) Hg)
    as [b Hb].
  rewrite Hb. cbn [bind]. destruct b; [|done].
  by destruct Hnt.
Qed.

(** C5 does not hold of the code: a right click whose cell lies outside the
    grid is not ignored.  The handler indexes [warehouseGrid] at that cell
    without the test the left click makes first, so the read is out of
    range. *)
Theorem right_click_out_of_grid_faults (st : State) (x y : Z) :
  shape (warehouseGrid st) → ¬ inb (x ÷ GRID_SIZE) (y ÷ GRID_SIZE) →
  handle_event st (RightClick x y) = OutOfBounds.
Proof.
  intros Hg Hout. cbn [handle_event].
  destruct (get2 (warehouseGrid st) _ _) as [v| |] eqn:Hv; [|done|].
  - apply get2_Ok_inb in Hv; done.
  - unfold get2 in Hv. repeat case_match; done.
Qed.

(** The progress index is within the path whenever a destination is set. *)
Definition index_ok (st : State) : Prop :=
  hasDestination st = true → (currentPathIndex st ≤ length (path st))%nat.

Lemma replan_index st st' :
  replan st = Ok st' → currentPathIndex st' = 0%nat.
Proof.
  unfold replan. destruct (if useAStar st then _ else _) as [p| |]; cbn [bind]; [|done..].
  by intros [= <-].
Qed.

Lemma replan_index_ok st st' : replan st = Ok st' → index_ok st'.
Proof. intros H%replan_index _. lia. Qed.

Lemma handle_event_index_ok st e st' :
  index_ok st → handle_event st e = Ok st' → index_ok st'.
Proof.
  intros Hok. destruct e; cbn [handle_event].
  - by intros [= <-].
  - destruct (isValidGridPosition _ _ _) as [[|]| |]; cbn [bind]; try done.
    + apply replan_index_ok.
    + by intros [= <-].
  - destruct (get2 _ _ _) as [v| |]; cbn [bind]; [|done..].
    destruct (set2 _ _ _ _) as [g'| |]; cbn [bind]; [|done..].
    destruct (hasDestination st) eqn:Hd; [apply replan_index_ok|].
    intros [= <-]. unfold index_ok. cbn. congruence.
  - by intros [= <-].
  - intros [= <-]. unfold index_ok. cbn. congruence.
  - destruct (hasDestination st) eqn:Hd; [apply replan_index_ok|].
    intros [= <-]. unfold index_ok. cbn. congruence.
  - destruct (saveLayout _ _) as [d msg]. by intros [= <-].
  - destruct (loadLayout _ _) as [r| |]; cbn [bind]; [|done..].
    destruct (hasDestination st) eqn:Hd; [apply replan_index_ok|].
    intros [= <-]. unfold index_ok. cbn. congruence.
  - by intros [= <-].
Qed.

(** [advance] moves the index by at most one, and only from below the
    length of the path. *)
Lemma advance_step arrives st st' :
  advance arrives st = Ok st' →
  path st' = path st ∧ hasDestination st' = hasDestination st ∧
  (currentPathIndex st' = currentPathIndex st ∨
   (hasDestination st = true ∧ (currentPathIndex st < length (path st))%nat ∧
    currentPathIndex st' = S (currentPathIndex st))).
Proof.
  unfold advance.
  destruct (hasDestination st) eqn:Hd; cbn [andb]; [|intros [= <-]; auto].
  case_bool_decide as Hlt; [|intros [= <-]; auto].
  destruct (path st !! currentPathIndex st) as [target|]; [|done].
  intros [= <-]. cbn. split_and!; [done..|].
  case_decide; auto.
Qed.

Lemma advance_index_ok arrives st st' :
  index_ok st → advance arrives st = Ok st' → index_ok st'.
Proof.
  intros Hok Hadv. destruct (advance_step _ _ _ Hadv) as (Hp & Hd & Hi).
  unfold index_ok. rewrite Hp, Hd. intros Hd'. specialize (Hok Hd'). lia.
Qed.

(** The states of the step relation of the loop: from the initial state,
    by any event and by the movement step, in any order. *)
Inductive reachable (d : Disk) : State → Prop :=
| reachable_initial : reachable d (initial d)
| reachable_event st e st' :
    reachable d st → handle_event st e = Ok st' → reachable d st'
| reachable_advance st arrives st' :
    reachable d st → advance arrives st = Ok st' → reachable d st'.

Lemma reachable_index_ok d st : reachable d st → index_ok st.
Proof.
  induction 1 as [|st e st' _ IH Hev|st arrives st' _ IH Hadv].
  - intros Hd. cbn in Hd. done.
  - by eapply handle_event_index_ok.
  - by eapply advance_index_ok.
Qed.

Lemma events_reachable d es : ∀ st st',
  reachable d st → for_each handle_event es st = Ok st' → reachable d st'.
Proof.
  induction es as [|e es IH]; intros st st' Hr; cbn [for_each].
  - by intros [= <-].
  - destruct (handle_event st e) as [st1| |] eqn:He; cbn [bind]; [|done..].
    apply IH. by eapply reachable_event.
Qed.

(** Every state the loop of [main] is in after a pass is one of them. *)
Lemma run_reachable d frames : ∀ st st',
  reachable d st → run frames st = Ok st' → reachable d st'.
Proof.
  induction frames as [|f frames IH]; intros st st' Hr; cbn [run].
  - by intros [= <-].
  - destruct (quit st); [by intros [= <-]|].
    unfold frame.
    destruct (for_each handle_event f.1 st) as [st1| |] eqn:Hev; cbn [bind]; [|done..].
    destruct (advance f.2 st1) as [st2| |] eqn:Hadv; cbn [bind]; [|done..].
    apply IH. eapply reachable_advance; [|done]. by eapply events_reachable.
Qed.

(** C3 (amended): in every state reachable by the step relation of the
    event loop (any event, and the movement step), the progress index is at
    most the length of the path whenever a destination is set; the reset key
    clears the destination flag and the path and leaves the index as it was;
    and [advance] increments the index by one only while a destination is
    set and the index is strictly below the length. *)
Theorem progress_index_bounded (d : Disk) (st : State) :
  reachable d st →
  (hasDestination st = true → (currentPathIndex st ≤ length (path st))%nat) ∧
  (∃ st', handle_event st KeyR = Ok st' ∧ hasDestination st' = false ∧
          path st' = [] ∧ currentPathIndex st' = currentPathIndex st) ∧
  (∀ arrives st', advance arrives st = Ok st' →
     currentPathIndex st' = currentPathIndex st ∨
     (hasDestination st = true ∧ (currentPathIndex st < length (path st))%nat ∧
      currentPathIndex st' = S (currentPathIndex st))).
Proof.
  intros Hreach. split_and!.
  - by eapply reachable_index_ok.
  - eexists. split; [reflexivity|]. done.
  - intros arrives st' Hadv. by destruct (advance_step _ _ _ Hadv) as (_ & _ & ?).
Qed.

End MainProps.

(** The pixel (800, 0) lies right of the last column: a left click there
    is ignored. *)
Lemma left_click_untraversable_ignored_witness :
  let st := initial (mkDisk None true) in
  handle_event (Q := HeapOpenList) st (LeftClick 800 0) = Ok st.
Proof.
  cbv zeta. apply left_click_untraversable_ignored.
  - apply emptyGrid_shape.
  - unfold traversable. vm_compute. discriminate.
Defined.

(** A right click at the same pixel is not ignored: it indexes
    [warehouseGrid[0][20]]. *)
Lemma right_click_out_of_grid_faults_witness :
  handle_event (Q := HeapOpenList) (initial (mkDisk None true)) (RightClick 800 0)
  = OutOfBounds.
Proof.
  apply right_click_out_of_grid_faults.
  - apply emptyGrid_shape.
  - vm_compute. intros [[_ Hx] _]. discriminate.
Defined.

(** A run of the loop: a left click on the cell (1, 0), twenty passes for
    the robot to get there, then the reset key. *)
Definition reset_after_arrival : list (list Event * bool) :=
  [([LeftClick 60 20], false)] ++ replicate 18 ([], false) ++
  [([], true); ([KeyR], false)].

(** C3, as stated, fails: after that run the path is empty and the
    progress index is still 1. *)
Lemma progress_index_counterexample :
  ∃ st, run (Q := HeapOpenList) reset_after_arrival (initial (mkDisk None true)) = Ok st ∧
        path st = [] ∧ currentPathIndex st = 1%nat ∧
        ¬ (currentPathIndex st ≤ length (path st))%nat.
Proof.
  eexists. split; [vm_compute; reflexivity|]. cbn. split_and!; [done..|lia].
Qed.

Lemma progress_index_bounded_witness :
  let st := mkState emptyGrid (mkPoint 0 0) (mkPoint 1 0) true false [mkPoint 1 0]
              0%nat false (mkDisk None true) [] [(false, mkPoint 0 0, mkPoint 1 0)] in
  (hasDestination st = true → (currentPathIndex st ≤ length (path st))%nat) ∧
  (∃ st', handle_event (Q := HeapOpenList) st KeyR = Ok st' ∧ hasDestination st' = false ∧
          path st' = [] ∧ currentPathIndex st' = currentPathIndex st) ∧
  (∀ arrives st', advance arrives st = Ok st' →
     currentPathIndex st' = currentPathIndex st ∨
     (hasDestination st = true ∧ (currentPathIndex st < length (path st))%nat ∧
      currentPathIndex st' = S (currentPathIndex st))).
Proof.
  cbv zeta.
  apply (progress_index_bounded (Q := HeapOpenList) (mkDisk None true)).
  apply (run_reachable _ [([LeftClick 60 20], false)] (initial (mkDisk None true)));
    [constructor|].
  vm_compute. reflexivity.
Defined.

(** ** Layout files *)

Definition blank (ws : list ascii) : Prop := Forall (λ c, is_space c = true) ws.

Lemma skip_space_blank ws s : blank ws → skip_space (ws ++ s) = skip_space s.
Proof.
  induction 1 as [|c ws Hc _ IH]; [done|]. simpl. by rewrite Hc.
Qed.

Lemma extract_int_blank ws s : blank ws → extract_int (ws ++ s) = extract_int s.
Proof. intros Hws. unfold extract_int. by rewrite skip_space_blank. Qed.

(** Reading back a cell that [saveLayout] wrote, for the two values an
    occupancy grid holds. *)
Lemma extract_written_cell ws v rest :
  blank ws → v = 0 ∨ v = 1 →
  extract_int (ws ++ print_int v ++ space :: rest) = Parsed v (space :: rest).
Proof.
  intros Hws Hv. rewrite extract_int_blank by done.
  destruct Hv as [-> | ->]; reflexivity.
Qed.

Lemma read_cell_total i j (g : Grid) ifs :
  shape g → inb j i → ∃ g' ifs', read_cell i (g, ifs) j = Ok (g', ifs') ∧ shape g'.
Proof.
  intros Hg Hin. unfold read_cell.
  destruct (get2_inb g j i Hg Hin) as [v0 ->]. cbn [bind].
  destruct ifs as [s|]; [|by exists g, None].
  destruct (extract_int s) as [v rest|[v|]].
  - destruct (set2_inb g j i v Hg Hin) as [g' Hset]. rewrite Hset. cbn [bind].
    exists g', (Some rest). split; [done|]. by eapply set2_shape.
  - destruct (set2_inb g j i v Hg Hin) as [g' Hset]. rewrite Hset. cbn [bind].
    exists g', None. split; [done|]. by eapply set2_shape.
  - by exists g, None.
Qed.

Lemma read_row_total i js : ∀ (g : Grid) ifs,
  shape g → 0 ≤ i < ROWS → (∀ j, j ∈ js → 0 ≤ j < COLS) →
  ∃ g' ifs', for_each (read_cell i) js (g, ifs) = Ok (g', ifs') ∧ shape g'.
Proof.
  induction js as [|j js IH]; intros g ifs Hg Hi Hjs; cbn [for_each].
  - by exists g, ifs.
  - destruct (read_cell_total i j g ifs Hg) as (g1 & ifs1 & -> & Hg1).
    { split; [|done]. apply Hjs. by left. }
    cbn [bind]. apply IH; [done..|]. intros j' Hj'. apply Hjs. by right.
Qed.

Lemma read_rows_total ixs : ∀ (g : Grid) ifs,
  shape g → (∀ i, i ∈ ixs → 0 ≤ i < ROWS) →
  ∃ g' ifs',
    for_each (λ st i, for_each (read_cell i) (seqZ 0 COLS) st) ixs (g, ifs) = Ok (g', ifs') ∧
    shape g'.
Proof.
  induction ixs as [|i ixs IH]; intros g ifs Hg His; cbn [for_each].
  - by exists g, ifs.
  - destruct (read_row_total i (seqZ 0 COLS) g ifs Hg) as (g1 & ifs1 & -> & Hg1).
    { apply His. by left. }
    { intros j Hj. apply elem_of_seqZ in Hj. lia. }
    cbn [bind]. apply IH; [done|]. intros i' Hi'. apply His. by right.
Qed.

(** C4, as stated, fails for a truncated file: the one-integer file "1"
    is loaded without an error report and the cell (0, 0) is overwritten. *)
Lemma truncated_load_counterexample :
  let d := mkDisk (Some ["1"%char]) true in
  ∃ g', loadLayout d emptyGrid = Ok (g', LayoutLoaded) ∧
        get2 g' 0 0 = Ok 1 ∧ get2 emptyGrid 0 0 = Ok 0 ∧ g' ≠ emptyGrid.
Proof.
  cbv zeta. eexists. split; [vm_compute; reflexivity|].
  split_and!; [reflexivity..|discriminate].
Qed.

(** C4 (amended): when the layout file cannot be opened, [loadLayout]
    reports the error, returns (the process goes on) and leaves
    [warehouseGrid] exactly as it was. When the file opens, [loadLayout]
    returns as well and reports success whatever the file holds: a file
    that supplies too few integers is not detected. *)
Theorem load_failure_outcomes (d : Disk) (g : Grid) :
  shape g →
  (layout_file d = None → loadLayout d g = Ok (g, LoadError)) ∧
  (∀ content, layout_file d = Some content →
     ∃ g', loadLayout d g = Ok (g', LayoutLoaded) ∧ shape g').
Proof.
  intros Hg. unfold loadLayout. split.
  - by intros ->.
  - intros content Hc. rewrite Hc.
    destruct (read_rows_total (seqZ 0 ROWS) g (Some content) Hg)
      as (g' & ifs' & Hrun & Hg').
    { intros i Hi. apply elem_of_seqZ in Hi. lia. }
    rewrite Hrun. cbn [bind fst]. by exists g'.
Qed.

Lemma load_failure_outcomes_witness :
  let d := mkDisk None true in
  (layout_file d = None → loadLayout d cornerBlocked = Ok (cornerBlocked, LoadError)) ∧
  (∀ content, layout_file d = Some content →
     ∃ g', loadLayout d cornerBlocked = Ok (g', LayoutLoaded) ∧ shape g').
Proof.
  cbv zeta. apply (load_failure_outcomes (mkDisk None true) cornerBlocked).
  apply cornerBlocked_shape.
Defined.

(** *** Reading back what [saveLayout] wrote *)

Definition bit (v : Z) : Prop := v = 0 ∨ v = 1.

Lemma blank_space : blank [space].
Proof. by repeat constructor. Qed.

Lemma blank_snoc_newline ws : blank ws → blank (ws ++ [newline]).
Proof. intros Hws. apply Forall_app. split; [done|]. by repeat constructor. Qed.

Lemma insert_middle {A} (l1 l2 : list A) x y :
  <[length l1 := x]> (l1 ++ y :: l2) = l1 ++ x :: l2.
Proof.
  replace (length l1) with (length l1 + 0)%nat by lia. by rewrite insert_app_r.
Qed.

Lemma read_written_cell i (cur : Grid) pre o old v ws rest :
  0 ≤ i → cur !! Z.to_nat i = Some (pre ++ o :: old) → blank ws → bit v →
  read_cell i (cur, Some (ws ++ print_int v ++ space :: rest)) (Z.of_nat (length pre))
  = Ok (<[Z.to_nat i := pre ++ v :: old]> cur, Some (space :: rest)).
Proof.
  intros Hi Hrow Hws Hv. unfold read_cell.
  rewrite (extract_written_cell ws v rest Hws Hv).
  unfold get2, set2.
  assert ((0 <=? i) = true) as -> by (apply Z.leb_le; lia).
  assert ((0 <=? Z.of_nat (length pre)) = true) as -> by (apply Z.leb_le; lia).
  cbn [andb]. rewrite Hrow, Nat2Z.id.
  rewrite list_lookup_middle by done. cbn [bind].
  rewrite decide_True by (rewrite length_app; simpl; lia). cbn [bind].
  by rewrite insert_middle.
Qed.

Lemma read_written_row i : ∀ (row pre old : list Z) (cur : Grid) ws tail,
  0 ≤ i → cur !! Z.to_nat i = Some (pre ++ old) → length old = length row →
  Forall bit row → blank ws →
  ∃ ws', blank ws' ∧
    for_each (read_cell i) (seqZ (Z.of_nat (length pre)) (Z.of_nat (length row)))
      (cur, Some (ws ++ concat (map (λ cell, print_int cell ++ [space]) row) ++ tail))
    = Ok (<[Z.to_nat i := pre ++ row]> cur, Some (ws' ++ tail)).
Proof.
  induction row as [|v row IH]; intros pre old cur ws tail Hi Hrow Hlen Hbits Hws.
  - destruct old; [|done]. exists ws. split; [done|]. cbn.
    by rewrite list_insert_id.
  - destruct old as [|o old]; [done|].
    apply Forall_cons in Hbits as [Hv Hbits].
    rewrite seqZ_cons by (cbn [length]; lia). cbn [for_each map concat].
    rewrite <- !app_assoc. cbn [app].
    rewrite (read_written_cell i cur pre o old v ws _ Hi Hrow Hws Hv). cbn [bind].
    destruct (IH (pre ++ [v]) old (<[Z.to_nat i := pre ++ v :: old]> cur) [space] tail)
      as (ws' & Hws' & Hrun); [done| |simpl in Hlen; lia|done|apply blank_space|].
    { rewrite list_lookup_insert_eq by (by eapply lookup_lt_Some).
      by rewrite <- app_assoc. }
    exists ws'. split; [done|].
    replace (Z.succ (Z.of_nat (length pre))) with (Z.of_nat (length (pre ++ [v])))
      by (rewrite length_app; simpl; lia).
    replace (Z.pred (Z.of_nat (length (v :: row)))) with (Z.of_nat (length row))
      by (cbn [length]; lia).
    cbn [app] in Hrun. rewrite Hrun.
    by rewrite list_insert_insert_eq, <- app_assoc.
Qed.

Lemma read_written_rows : ∀ (rows pre_rows old_rows : list (list Z)) ws,
  length old_rows = length rows →
  Forall (λ r, length r = Z.to_nat COLS) rows →
  Forall (λ r, length r = Z.to_nat COLS) old_rows →
  Forall (Forall bit) rows → blank ws →
  ∃ ws', blank ws' ∧
    for_each (λ st i, for_each (read_cell i) (seqZ 0 COLS) st)
      (seqZ (Z.of_nat (length pre_rows)) (Z.of_nat (length rows)))
      ((pre_rows ++ old_rows : Grid), Some (ws ++ write_grid rows))
    = Ok ((pre_rows ++ rows : Grid), Some ws').
Proof.
  induction rows as [|row rows IH]; intros pre_rows old_rows ws Hlen Hrows Hold Hbits Hws.
  - destruct old_rows; [|done]. exists ws. split; [done|]. cbn. by rewrite !app_nil_r.
  - destruct old_rows as [|old old_rows]; [done|].
    apply Forall_cons in Hrows as [Hrow Hrows].
    apply Forall_cons in Hold as [Hold1 Hold].
    apply Forall_cons in Hbits as [Hbit Hbits].
    rewrite (seqZ_cons (Z.of_nat (length pre_rows))) by (cbn [length]; lia).
    cbn [for_each]. unfold write_grid. cbn [map concat]. fold (write_grid rows).
    unfold write_row. rewrite <- !app_assoc. cbn [app].
    destruct (read_written_row (Z.of_nat (length pre_rows)) row [] old
                (pre_rows ++ old :: old_rows) ws (newline :: write_grid rows))
      as (ws1 & Hws1 & Hrun); [lia| |lia|done|done|].
    { rewrite Nat2Z.id. by rewrite list_lookup_middle. }
    cbn [length app] in Hrun. change (Z.of_nat 0) with 0 in Hrun.
    replace (Z.of_nat (length row)) with COLS in Hrun by grid_lia.
    rewrite Hrun. cbn [bind].
    rewrite Nat2Z.id.
    rewrite insert_middle.
    destruct (IH (pre_rows ++ [row]) old_rows (ws1 ++ [newline]))
      as (ws' & Hws' & Hrun'); [simpl in Hlen; lia|done..|by apply blank_snoc_newline|].
    exists ws'. split; [done|].
    replace (Z.succ (Z.of_nat (length pre_rows)))
      with (Z.of_nat (length (pre_rows ++ [row])))
      by (rewrite length_app; simpl; lia).
    replace (Z.pred (Z.of_nat (length (row :: rows)))) with (Z.of_nat (length rows))
      by (cbn [length]; lia).
    rewrite <- !app_assoc in Hrun'. cbn [app] in Hrun'. exact Hrun'.
Qed.

(** C8: for every occupancy grid of zeros and ones, [saveLayout] followed
    by [loadLayout] of the file it wrote gives back that grid, cell for
    cell, whatever grid is in memory when the file is loaded (the saved
    grid itself in particular), and reports the load as done. *)
Theorem save_then_load_roundtrip (g g0 : Grid) (d : Disk) :
  shape g → shape g0 → Forall (Forall bit) g → writable d = true →
  (saveLayout g d).2 = LayoutSaved ∧
  loadLayout (saveLayout g d).1 g0 = Ok (g, LayoutLoaded).
Proof.
  intros [Hlen Hrows] [Hlen0 Hrows0] Hbits Hw.
  unfold saveLayout. rewrite Hw. cbn [fst snd]. split; [done|].
  unfold loadLayout. cbn [layout_file].
  destruct (read_written_rows g [] g0 []) as (ws' & _ & Hrun);
    [lia|done..|constructor|].
  cbn [length app] in Hrun. change (Z.of_nat 0) with 0 in Hrun.
  replace (Z.of_nat (length g)) with ROWS in Hrun by grid_lia.
  rewrite Hrun. done.
Qed.

Lemma save_then_load_roundtrip_witness :
  let d := mkDisk None true in
  (saveLayout cornerBlocked d).2 = LayoutSaved ∧
  loadLayout (saveLayout cornerBlocked d).1 emptyGrid = Ok (cornerBlocked, LayoutLoaded).
Proof.
  cbv zeta. apply save_then_load_roundtrip.
  - apply cornerBlocked_shape.
  - apply emptyGrid_shape.
  - unfold bit. vm_compute. repeat (constructor; [repeat (constructor; [lia|])|]);
      repeat constructor.
  - reflexivity.
Defined.

(** * Further properties

    ** The event loop keeps the robot on a route of free cells *)

Section LoopSafety.
Context {Q : OpenList} {L : OpenListLaws Q}.

(** The waypoints the robot has not reached yet. *)
Definition remaining (st : State) : list Point :=
  drop (currentPathIndex st) (path st).

(** What every pass of the loop keeps. *)
Record loop_inv (st : State) : Prop := mkLoopInv {
  inv_shape : shape (warehouseGrid st);
  inv_robot : inbP (gridPos st);
  inv_dest : inbP (destination st);
  inv_idle : hasDestination st = false → path st = [];
  inv_index : hasDestination st = true →
              (currentPathIndex st ≤ length (path st))%nat;
  inv_route : route (warehouseGrid st) (gridPos st) (remaining st);
  inv_goal : path st ≠ [] → last (gridPos st :: remaining st) = Some (destination st)
}.

Lemma loop_inv_initial d : loop_inv (initial d).
Proof.
  split; cbn; try done. apply make2_shape.
Qed.

(** A search started by the loop returns, and what it returns is owed to
    the grid it was started on. *)
Lemma replan_post st :
  shape (warehouseGrid st) → inbP (gridPos st) → inbP (destination st) →
  ∃ p, replan st = Ok (mkState (warehouseGrid st) (gridPos st) (destination st)
                         (hasDestination st) (useAStar st) p 0%nat (quit st) (disk st)
                         (console st)
                         (searches st ++ [(useAStar st, gridPos st, destination st)])) ∧
       search_post (warehouseGrid st) (gridPos st) (destination st) p.
Proof.
  intros Hg Hs He. unfold replan. destruct (useAStar st).
  - destruct (findPathA_post (warehouseGrid st) (gridPos st) (destination st) Hg Hs He)
      as (p & -> & Hpost). by exists p.
  - destruct (findPath_post (warehouseGrid st) (gridPos st) (destination st) Hg Hs)
      as (p & -> & Hpost). by exists p.
Qed.

Lemma search_post_route g s e p : search_post g s e p → route g s p.
Proof. intros [(_ & [Hr _] & _)|[_ ->]]; done. Qed.

Lemma search_post_last g s e p :
  search_post g s e p → p ≠ [] → last (s :: p) = Some e.
Proof. intros [(_ & [_ Hl] & _)|[_ ->]] Hp; done. Qed.

Lemma replan_inv st st' :
  shape (warehouseGrid st) → inbP (gridPos st) → inbP (destination st) →
  hasDestination st = true → replan st = Ok st' → loop_inv st'.
Proof.
  intros Hg Hs He Hd Hre.
  destruct (replan_post st Hg Hs He) as (p & Heq & Hpost).
  rewrite Heq in Hre. injection Hre as <-.
  split; unfold remaining; cbn; try done.
  - congruence.
  - lia.
  - exact (search_post_route _ _ _ _ Hpost).
  - exact (search_post_last _ _ _ _ Hpost).
Qed.

Lemma loadLayout_shape d g r : shape g → loadLayout d g = Ok r → shape r.1.
Proof.
  intros Hg. unfold loadLayout.
  destruct (layout_file d) as [content|]; [|by intros [= <-]].
  destruct (read_rows_total (seqZ 0 ROWS) g (Some content) Hg)
    as (g' & ifs' & -> & Hg').
  { intros i Hi. apply elem_of_seqZ in Hi. lia. }
  cbn [bind]. by intros [= <-].
Qed.

Lemma idle_inv g pos dest a idx q d c ss :
  shape g → inbP pos → inbP dest →
  loop_inv (mkState g pos dest false a [] idx q d c ss).
Proof.
  intros Hg Hp Hd. split; unfold remaining; cbn; try done.
  by rewrite drop_nil.
Qed.

Lemma handle_event_inv st e st' :
  loop_inv st → handle_event st e = Ok st' → loop_inv st'.
Proof.
  intros [Hg Hp Hd Hidle Hidx Hroute Hgoal]. destruct e; cbn [handle_event].
  - intros [= <-]. by split.
  - destruct (isValidGridPosition _ _ _) as [[|]| |] eqn:Hv; cbn [bind]; try done.
    + apply replan_inv; cbn; try done. by apply isValid_true_inb in Hv.
    + intros [= <-]. by split.
  - destruct (get2 _ _ _) as [v| |]; cbn [bind]; [|done..].
    destruct (set2 _ _ _ _) as [g'| |] eqn:Hset; cbn [bind]; [|done..].
    assert (Hg' : shape g') by (by eapply set2_shape).
    destruct (hasDestination st) eqn:Hhas.
    + by apply replan_inv.
    + rewrite (Hidle eq_refl). intros [= <-]. by apply idle_inv.
  - intros [= <-]. by split.
  - intros [= <-]. by apply idle_inv.
  - destruct (hasDestination st) eqn:Hhas.
    + by apply replan_inv.
    + rewrite (Hidle eq_refl). intros [= <-]. by apply idle_inv.
  - destruct (saveLayout _ _) as [d' msg]. intros [= <-]. by split.
  - destruct (loadLayout _ _) as [r| |] eqn:Hload; cbn [bind]; [|done..].
    assert (Hg' : shape r.1) by (by eapply loadLayout_shape).
    destruct (hasDestination st) eqn:Hhas.
    + by apply replan_inv.
    + rewrite (Hidle eq_refl). intros [= <-]. by apply idle_inv.
  - intros [= <-]. by split.
Qed.

Lemma route_head g a b p : route g a (b :: p) → adjacent a b ∧ traversable g b ∧ route g b p.
Proof. done. Qed.

Lemma advance_inv arrives st st' :
  loop_inv st → advance arrives st = Ok st' → loop_inv st'.
Proof.
  intros Hinv. pose proof Hinv as [Hg Hp Hd Hidle Hidx Hroute Hgoal]. unfold advance.
  destruct (hasDestination st) eqn:Hhas; cbn [andb]; [|by intros [= <-]].
  case_bool_decide as Hlt; [|by intros [= <-]].
  destruct (path st !! currentPathIndex st) as [target|] eqn:Ht; [|done].
  intros [= <-].
  unfold remaining in *. rewrite (drop_S _ _ _ Ht) in Hroute, Hgoal.
  destruct Hroute as (Hadj & Htr & Hrest).
  set (pos := if arrives then target else gridPos st).
  destruct (decide (pos = target)) as [Heq|Hne].
  - rewrite Heq. split; unfold remaining; cbn; try done.
    by apply traversable_inb in Htr.
  - assert (pos = gridPos st) as -> by (unfold pos in *; by destruct arrives).
    split; unfold remaining; cbn; try done.
    + by rewrite (drop_S _ _ _ Ht).
    + by rewrite (drop_S _ _ _ Ht).
Qed.

Lemma reachable_loop_inv d st : reachable d st → loop_inv st.
Proof.
  induction 1 as [|st e st' _ IH Hev|st arrives st' _ IH Hadv].
  - apply loop_inv_initial.
  - by eapply handle_event_inv.
  - by eapply advance_inv.
Qed.

(** X1: in every state the loop reaches, the grid has its dimensions, the
    robot stands on a cell of the grid, and the waypoints it has not reached
    yet are a walk over cells that are in bounds and free in the grid as it
    is now, each one 4-connected step from the one before, the first one
    step from the robot; without a destination there is no path. *)
Theorem remaining_waypoints_free_route (d : Disk) (st : State) :
  reachable d st →
  shape (warehouseGrid st) ∧ inbP (gridPos st) ∧ inbP (destination st) ∧
  route (warehouseGrid st) (gridPos st) (remaining st) ∧
  Forall (λ c, inbP c ∧ free (warehouseGrid st) c) (remaining st) ∧
  (hasDestination st = false → path st = []).
Proof.
  intros [Hg Hp Hd Hidle Hidx Hroute Hgoal]%reachable_loop_inv.
  split_and!; try done.
  apply route_traversable in Hroute.
  eapply Forall_impl; [exact Hroute|]. intros c Hc. by apply traversable_iff.
Qed.

(** X2: the movement step moves the robot, if at all, to the waypoint at the
    progress index, which is one 4-connected step away, in bounds and free,
    and then the index goes up by one. *)
Theorem robot_moves_one_free_step (d : Disk) (st st' : State) (arrives : bool) :
  reachable d st → advance arrives st = Ok st' → gridPos st' ≠ gridPos st →
  path st !! currentPathIndex st = Some (gridPos st') ∧
  adjacent (gridPos st) (gridPos st') ∧
  inbP (gridPos st') ∧ free (warehouseGrid st') (gridPos st') ∧
  currentPathIndex st' = S (currentPathIndex st).
Proof.
  intros [Hg Hp Hd Hidle Hidx Hroute Hgoal]%reachable_loop_inv. unfold advance.
  destruct (hasDestination st) eqn:Hhas; cbn [andb]; [|by intros [= <-]].
  case_bool_decide as Hlt; [|by intros [= <-]].
  destruct (path st !! currentPathIndex st) as [target|] eqn:Ht; [|done].
  intros [= <-]. cbn.
  unfold remaining in Hroute. rewrite (drop_S _ _ _ Ht) in Hroute.
  destruct Hroute as (Hadj & Htr & _). apply traversable_iff in Htr as [Hin Hfree].
  destruct arrives; [|done]. intros _. by rewrite decide_True.
Qed.

(** X3: when the progress index has reached the end of a path that is not
    empty, the robot stands on the destination. *)
Theorem robot_ends_on_destination (d : Disk) (st : State) :
  reachable d st → path st ≠ [] → currentPathIndex st = length (path st) →
  gridPos st = destination st.
Proof.
  intros [Hg Hp Hd Hidle Hidx Hroute Hgoal]%reachable_loop_inv Hne Hend.
  specialize (Hgoal Hne). unfold remaining in Hgoal.
  rewrite Hend, drop_all in Hgoal. by injection Hgoal.
Qed.

(** X4: from a state the loop reaches, the movement step never reads the
    path out of range, and no event faults or exhausts a search but a right
    click on a pixel outside the grid. *)
Theorem only_right_click_outside_faults (d : Disk) (st : State) :
  reachable d st →
  (∀ arrives, ∃ st', advance arrives st = Ok st') ∧
  (∀ e, (∀ x y, e = RightClick x y → inb (x ÷ GRID_SIZE) (y ÷ GRID_SIZE)) →
        ∃ st', handle_event st e = Ok st').
Proof.
  intros [Hg Hp Hd Hidle Hidx Hroute Hgoal]%reachable_loop_inv. split.
  - intros arrives. unfold advance.
    destruct (hasDestination st && _) eqn:Hmove; [|by eexists].
    apply andb_true_iff in Hmove as [_ Hlt]. apply bool_decide_eq_true in Hlt.
    destruct (lookup_lt_is_Some_2 _ _ Hlt) as [target ->]. by eexists.
  - intros e He.
    assert (Hre : ∀ s, shape (warehouseGrid s) → inbP (gridPos s) →
                       inbP (destination s) → ∃ st', replan s = Ok st').
    { intros s H1 H2 H3. destruct (replan_post s H1 H2 H3) as (p & -> & _). by eexists. }
    destruct e; cbn [handle_event]; try by eexists.
    + destruct (isValid_total (warehouseGrid st) (x ÷ GRID_SIZE) (y ÷ GRID_SIZE) Hg)
        as [[|] Hv]; rewrite Hv; cbn [bind]; [|by eexists].
      apply Hre; cbn; try done. by apply isValid_true_inb in Hv.
    + specialize (He x y eq_refl).
      destruct (get2_inb (warehouseGrid st) _ _ Hg He) as [v ->]. cbn [bind].
      destruct (set2_inb (warehouseGrid st) _ _ (int_wrap (1 - v)) Hg He) as [g' Hset].
      rewrite Hset. cbn [bind].
      destruct (hasDestination st); [|by eexists].
      apply Hre; cbn; try done. by eapply set2_shape.
    + destruct (hasDestination st); [|by eexists]. by apply Hre.
    + destruct (saveLayout _ _). by eexists.
    + destruct (loadLayout (disk st) (warehouseGrid st)) as [r| |] eqn:Hload.
      * cbn [bind]. destruct (hasDestination st); [|by eexists].
        apply Hre; cbn; try done. by eapply loadLayout_shape.
      * exfalso. unfold loadLayout in Hload.
        destruct (layout_file (disk st)) as [content|]; [|done].
        destruct (read_rows_total (seqZ 0 ROWS) (warehouseGrid st) (Some content) Hg)
          as (g' & ifs' & Hrun & _).
        { intros i Hi. apply elem_of_seqZ in Hi. lia. }
        by rewrite Hrun in Hload.
      * exfalso. unfold loadLayout in Hload.
        destruct (layout_file (disk st)) as [content|]; [|done].
        destruct (read_rows_total (seqZ 0 ROWS) (warehouseGrid st) (Some content) Hg)
          as (g' & ifs' & Hrun & _).
        { intros i Hi. apply elem_of_seqZ in Hi. lia. }
        by rewrite Hrun in Hload.
Qed.

(** The events that start a search. *)
Definition replans (st : State) (e : Event) : Prop :=
  match e with
  | LeftClick x y =>
      traversable (warehouseGrid st) (mkPoint (x ÷ GRID_SIZE) (y ÷ GRID_SIZE))
  | RightClick _ _ | KeyT | KeyL => hasDestination st = true
  | _ => False
  end.

(** X5: an event that starts a search (a left click on a traversable cell;
    a right click, T or L while a destination is set) leaves the robot where
    it is, the progress index at 0, and a path computed on the grid as the
    event left it: a shortest route of free cells from the robot's cell to
    the destination when one exists, the empty path when none does. *)
Theorem replanned_path_fits_new_grid (d : Disk) (st st' : State) (e : Event) :
  reachable d st → replans st e → handle_event st e = Ok st' →
  let g' := warehouseGrid st' in
  gridPos st' = gridPos st ∧ hasDestination st' = true ∧ currentPathIndex st' = 0%nat ∧
  ((∃ r, route_to g' (gridPos st') (destination st') r) →
   route_to g' (gridPos st') (destination st') (path st') ∧
   shortest g' (gridPos st') (destination st') (length (path st'))) ∧
  ((∀ r, ¬ route_to g' (gridPos st') (destination st') r) → path st' = []).
Proof.
  intros [Hg Hp Hd Hidle Hidx Hroute Hgoal]%reachable_loop_inv Hre Hev. cbv zeta.
  assert (Hpost : ∀ s, shape (warehouseGrid s) → inbP (gridPos s) →
            inbP (destination s) → hasDestination s = true → gridPos s = gridPos st →
            replan s = Ok st' →
            gridPos st' = gridPos st ∧ hasDestination st' = true ∧
            currentPathIndex st' = 0%nat ∧
            search_post (warehouseGrid st') (gridPos st') (destination st') (path st')).
  { intros s H1 H2 H3 H4 H5 Hs. destruct (replan_post s H1 H2 H3) as (p & Heq & Hp').
    rewrite Heq in Hs. injection Hs as <-. by cbn. }
  assert (Hall : gridPos st' = gridPos st ∧ hasDestination st' = true ∧
            currentPathIndex st' = 0%nat ∧
            search_post (warehouseGrid st') (gridPos st') (destination st') (path st')).
  { destruct e; cbn [handle_event replans] in *; try done.
    - rewrite Hre in Hev. cbn [bind] in Hev. eapply Hpost; [..|exact Hev]; cbn; try done.
      by apply traversable_inb in Hre.
    - destruct (get2 _ _ _) as [v| |]; cbn [bind] in Hev; [|done..].
      destruct (set2 _ _ _ _) as [g1| |] eqn:Hset; cbn [bind] in Hev; [|done..].
      rewrite Hre in Hev. eapply Hpost; [..|exact Hev]; cbn; try done.
      by eapply set2_shape.
    - rewrite Hre in Hev. eapply Hpost; [..|exact Hev]; cbn; done.
    - destruct (loadLayout _ _) as [r| |] eqn:Hload; cbn [bind] in Hev; [|done..].
      rewrite Hre in Hev. eapply Hpost; [..|exact Hev]; cbn; try done.
      by eapply loadLayout_shape. }
  destruct Hall as (H1 & H2 & H3 & Hsp). split_and!; try done.
  - intros Hex. by destruct (search_post_reachable _ _ _ _ Hsp Hex) as (? & _ & ?).
  - intros Hno. by apply (search_post_unreachable _ _ _ _ Hsp).
Qed.

End LoopSafety.

(** A state of the loop: on the grid without obstacles, after a left click
    on the cell (2, 1). *)
Definition planned_state : State :=
  mkState emptyGrid (mkPoint 0 0) (mkPoint 2 1) true false
    [mkPoint 1 0; mkPoint 2 0; mkPoint 2 1] 0%nat false (mkDisk None true) []
    [(false, mkPoint 0 0, mkPoint 2 1)].

(** The state one arrival later. *)
Definition first_step_state : State :=
  mkState emptyGrid (mkPoint 1 0) (mkPoint 2 1) true false
    [mkPoint 1 0; mkPoint 2 0; mkPoint 2 1] 1%nat false (mkDisk None true) []
    [(false, mkPoint 0 0, mkPoint 2 1)].

(** The state after a left click on the cell (1, 0) and the arrival there. *)
Definition arrived_state : State :=
  mkState emptyGrid (mkPoint 1 0) (mkPoint 1 0) true false
    [mkPoint 1 0] 1%nat false (mkDisk None true) []
    [(false, mkPoint 0 0, mkPoint 1 0)].

Lemma planned_state_reachable :
  reachable (Q := HeapOpenList) (mkDisk None true) planned_state.
Proof.
  apply (run_reachable _ [([LeftClick 100 60], false)] (initial (mkDisk None true)));
    [constructor|].
  vm_compute. reflexivity.
Qed.

Lemma arrived_state_reachable :
  reachable (Q := HeapOpenList) (mkDisk None true) arrived_state.
Proof.
  apply (run_reachable _ [([LeftClick 60 20], true)] (initial (mkDisk None true)));
    [constructor|].
  vm_compute. reflexivity.
Qed.

Lemma remaining_waypoints_free_route_witness :
  let st := planned_state in
  shape (warehouseGrid st) ∧ inbP (gridPos st) ∧ inbP (destination st) ∧
  route (warehouseGrid st) (gridPos st) (remaining st) ∧
  Forall (λ c, inbP c ∧ free (warehouseGrid st) c) (remaining st) ∧
  (hasDestination st = false → path st = []).
Proof.
  cbv zeta.
  apply (remaining_waypoints_free_route (L := HeapLaws) (mkDisk None true)).
  apply planned_state_reachable.
Defined.

Lemma robot_moves_one_free_step_witness :
  let st := planned_state in
  let st' := first_step_state in
  path st !! currentPathIndex st = Some (gridPos st') ∧
  adjacent (gridPos st) (gridPos st') ∧
  inbP (gridPos st') ∧ free (warehouseGrid st') (gridPos st') ∧
  currentPathIndex st' = S (currentPathIndex st).
Proof.
  cbv zeta.
  apply (robot_moves_one_free_step (L := HeapLaws) (mkDisk None true) _ _ true).
  - apply planned_state_reachable.
  - reflexivity.
  - discriminate.
Defined.

Lemma robot_ends_on_destination_witness :
  gridPos arrived_state = destination arrived_state.
Proof.
  apply (robot_ends_on_destination (L := HeapLaws) (mkDisk None true)).
  - apply arrived_state_reachable.
  - discriminate.
  - reflexivity.
Defined.

Lemma only_right_click_outside_faults_witness :
  let st := planned_state in
  (∀ arrives, ∃ st', advance arrives st = Ok st') ∧
  (∀ e, (∀ x y, e = RightClick x y → inb (x ÷ GRID_SIZE) (y ÷ GRID_SIZE)) →
        ∃ st', handle_event (Q := HeapOpenList) st e = Ok st').
Proof.
  cbv zeta.
  apply (only_right_click_outside_faults (L := HeapLaws) (mkDisk None true)).
  apply planned_state_reachable.
Defined.

Lemma replanned_path_fits_new_grid_witness :
  let st' := planned_state in
  let g' := warehouseGrid st' in
  gridPos st' = mkPoint 0 0 ∧ hasDestination st' = true ∧ currentPathIndex st' = 0%nat ∧
  ((∃ r, route_to g' (gridPos st') (destination st') r) →
   route_to g' (gridPos st') (destination st') (path st') ∧
   shortest g' (gridPos st') (destination st') (length (path st'))) ∧
  ((∀ r, ¬ route_to g' (gridPos st') (destination st') r) → path st' = []).
Proof.
  cbv zeta.
  apply (replanned_path_fits_new_grid (Q := HeapOpenList) (L := HeapLaws)
           (mkDisk None true) (initial (mkDisk None true)) planned_state
           (LeftClick 100 60)).
  - constructor.
  - reflexivity.
  - vm_compute. reflexivity.
Defined.

(** ** Toggling an obstacle *)

Lemma set2_restore {A} (g g1 g2 : list (list A)) x y v w :
  get2 g x y = Ok v → set2 g x y w = Ok g1 → set2 g1 x y v = Ok g2 → g2 = g.
Proof.
  unfold get2, set2. destruct ((0 <=? y) && (0 <=? x)); [|done].
  destruct (g !! Z.to_nat y) as [row|] eqn:Hrow; [|done].
  destruct (row !! Z.to_nat x) as [v0|] eqn:Hv; [|done]. intros [= ->].
  case_decide; [|done]. intros [= <-].
  rewrite list_lookup_insert_eq by (by eapply lookup_lt_Some).
  rewrite length_insert. case_decide; [|done]. intros [= <-].
  rewrite list_insert_insert_eq, list_insert_insert_eq.
  by rewrite (list_insert_id row), list_insert_id.
Qed.

Section Toggle.
Context {Q : OpenList}.

Lemma replan_grid st st' : replan st = Ok st' → warehouseGrid st' = warehouseGrid st.
Proof.
  unfold replan. destruct (if useAStar st then _ else _) as [p| |]; cbn [bind]; [|done..].
  by intros [= <-].
Qed.

Lemma right_click_grid st st1 x y :
  handle_event st (RightClick x y) = Ok st1 →
  ∃ v, get2 (warehouseGrid st) (x ÷ GRID_SIZE) (y ÷ GRID_SIZE) = Ok v ∧
       set2 (warehouseGrid st) (x ÷ GRID_SIZE) (y ÷ GRID_SIZE) (int_wrap (1 - v))
       = Ok (warehouseGrid st1).
Proof.
  cbn [handle_event].
  destruct (get2 _ _ _) as [v| |] eqn:Hget; cbn [bind]; [|done..].
  destruct (set2 _ _ _ (int_wrap (1 - v))) as [g'| |] eqn:Hset; cbn [bind]; [|done..].
  intros Hev. exists v. split; [done|]. rewrite Hset. f_equal.
  destruct (hasDestination st).
  - symmetry. exact (replan_grid _ _ Hev).
  - by injection Hev as <-.
Qed.

(** X6: a right click that the handler survives is on a cell of the grid;
    it turns that cell from free (0) to obstacle (1) and from obstacle to
    free, leaves every other cell as it was, and a second right click on
    the same pixel gives back the grid as it was before the first. *)
Theorem right_click_flips_clicked_cell (st st1 : State) (x y : Z) :
  shape (warehouseGrid st) → handle_event st (RightClick x y) = Ok st1 →
  let c := mkPoint (x ÷ GRID_SIZE) (y ÷ GRID_SIZE) in
  let g := warehouseGrid st in
  let g1 := warehouseGrid st1 in
  inbP c ∧ shape g1 ∧
  (free g c → get2 g1 (px c) (py c) = Ok 1) ∧
  (get2 g (px c) (py c) = Ok 1 → free g1 c) ∧
  (∀ c', c' ≠ c → get2 g1 (px c') (py c') = get2 g (px c') (py c')) ∧
  (∀ st2, free g c ∨ get2 g (px c) (py c) = Ok 1 →
          handle_event st1 (RightClick x y) = Ok st2 → warehouseGrid st2 = g).
Proof.
  intros Hg Hev. cbv zeta. cbn [px py].
  destruct (right_click_grid _ _ _ _ Hev) as (v & Hget & Hset).
  split_and!.
  - by apply (get2_Ok_inb _ _ _ _ Hg Hget).
  - by eapply set2_shape.
  - unfold free. cbn [px py]. rewrite Hget. intros [= ->].
    by rewrite (get2_set2_eq _ _ _ _ _ Hset).
  - unfold free. cbn [px py]. rewrite Hget. intros [= ->].
    by rewrite (get2_set2_eq _ _ _ _ _ Hset).
  - intros c' Hc'. apply (get2_set2_ne _ _ _ _ _ _ _ Hset).
    destruct c' as [x' y']. cbn [px py].
    destruct (decide (x' = x ÷ GRID_SIZE)) as [->|]; [|by left].
    right. intros ->. done.
  - intros st2 Hbit Hev2.
    destruct (right_click_grid _ _ _ _ Hev2) as (v1 & Hget1 & Hset1).
    rewrite (get2_set2_eq _ _ _ _ _ Hset) in Hget1. injection Hget1 as <-.
    assert (Hback : int_wrap (1 - int_wrap (1 - v)) = v).
    { unfold free in Hbit. cbn [px py] in Hbit. rewrite Hget in Hbit.
      by destruct Hbit as [[= ->]|[= ->]]. }
    rewrite Hback in Hset1. by eapply set2_restore.
Qed.

End Toggle.

(** The initial state after a right click on the cell (1, 0). *)
Definition toggled_state : State :=
  mkState (<[0%nat := <[1%nat := 1]> (replicate (Z.to_nat COLS) 0)]> emptyGrid)
    (mkPoint 0 0) (mkPoint 0 0) false false [] 0%nat false (mkDisk None true) [] [].

Lemma right_click_flips_clicked_cell_witness :
  let c := mkPoint 1 0 in
  let g := emptyGrid in
  let g1 := warehouseGrid toggled_state in
  inbP c ∧ shape g1 ∧
  (free g c → get2 g1 (px c) (py c) = Ok 1) ∧
  (get2 g (px c) (py c) = Ok 1 → free g1 c) ∧
  (∀ c', c' ≠ c → get2 g1 (px c') (py c') = get2 g (px c') (py c')) ∧
  (∀ st2, free g c ∨ get2 g (px c) (py c) = Ok 1 →
          handle_event (Q := HeapOpenList) toggled_state (RightClick 60 20) = Ok st2 →
          warehouseGrid st2 = g).
Proof.
  cbv zeta.
  apply (right_click_flips_clicked_cell (Q := HeapOpenList)
           (initial (mkDisk None true)) toggled_state 60 20).
  - apply emptyGrid_shape.
  - reflexivity.
Defined.

(** ** The searches at the edges of the grid *)

Lemma set2_outside {A} (a : list (list A)) x y v :
  shape a → ¬ inb x y → set2 a x y v = OutOfBounds.
Proof.
  intros Ha Hout. destruct (set2 a x y v) as [a'| |] eqn:Hset; [|done|].
  - exfalso. apply Hout. apply (get2_Ok_inb a' x y v).
    + by eapply set2_shape.
    + by eapply get2_set2_eq.
  - unfold set2 in Hset. repeat case_match; done.
Qed.

(** X7: neither search tests its start cell against the bounds of the grid.
    Called with a start outside the grid, each one faults at its first
    write, [visited[start.y][start.x]] for [findPath] and
    [gCost[start.y][start.x]] for [findPathA], whatever the grid and the
    goal. *)
Theorem searches_fault_on_outside_start (Q : OpenList) (g : Grid) (start goal : Point) :
  ¬ inbP start →
  findPath g start goal = OutOfBounds ∧ findPathA Q g start goal = OutOfBounds.
Proof.
  intros Hout. unfold findPath, findPathA.
  by rewrite !set2_outside by (done || apply make2_shape).
Qed.

Lemma searches_fault_on_outside_start_witness :
  findPath emptyGrid (mkPoint 20 0) (mkPoint 0 0) = OutOfBounds ∧
  findPathA HeapOpenList emptyGrid (mkPoint 20 0) (mkPoint 0 0) = OutOfBounds.
Proof.
  apply searches_fault_on_outside_start.
  vm_compute. intros [[_ Hx] _]. discriminate.
Defined.

(** X8: [findPath] never indexes a vector with the goal.  With a start cell
    on the grid and a goal outside it, the search visits what it can reach,
    finds the queue empty and returns the empty path. *)
Theorem findPath_outside_goal_empty (g : Grid) (start goal : Point) :
  shape g → inbP start → ¬ inbP goal → findPath g start goal = Ok [].
Proof.
  intros Hg Hs Hout.
  destruct (findPath_post g start goal Hg Hs) as (p & -> & Hpost). f_equal.
  apply (search_post_unreachable _ _ _ _ Hpost). intros r Hr.
  destruct r as [|b r].
  - destruct Hr as [_ [= ->]]. done.
  - apply route_to_goal_traversable in Hr; [|done].
    by apply traversable_inb in Hr.
Qed.

Lemma findPath_outside_goal_empty_witness :
  findPath emptyGrid (mkPoint 0 0) (mkPoint 20 0) = Ok [].
Proof.
  apply findPath_outside_goal_empty.
  - apply emptyGrid_shape.
  - solve_inb.
  - vm_compute. intros [[_ Hx] _]. discriminate.
Defined.

(** ** Returned paths do not revisit a cell *)

Lemma route_suffix g a l1 b l2 : route g a (l1 ++ b :: l2) → route g b l2.
Proof.
  revert a. induction l1 as [|c l1 IH]; intros a; simpl.
  - by intros (_ & _ & ?).
  - intros (_ & _ & Hr). by eapply IH.
Qed.

Lemma last_suffix {A} (a b : A) l1 l2 : last (a :: l1 ++ b :: l2) = last (b :: l2).
Proof.
  revert a. induction l1 as [|c l1 IH]; intros a; [done|]. apply (IH c).
Qed.

Lemma shortest_route_nodup g e p : ∀ s,
  route_to g s e p → (∀ q, route_to g s e q → (length p ≤ length q)%nat) → NoDup p.
Proof.
  induction p as [|b p IH]; intros s [Hr Hl] Hmin; [constructor|].
  destruct Hr as (Hadj & Hb & Hr). constructor.
  - intros Hin. apply list_elem_of_split in Hin as (l1 & l2 & ->).
    assert (Hq : route_to g s e (b :: l2)).
    { split.
      - simpl. split_and!; [done..|]. by eapply route_suffix.
      - rewrite <- Hl. change (s :: b :: l1 ++ b :: l2) with (s :: (b :: l1) ++ b :: l2).
        by rewrite last_suffix. }
    specialize (Hmin _ Hq). simpl in Hmin. rewrite length_app in Hmin.
    simpl in Hmin. lia.
  - apply (IH b); [by split|].
    intros q Hq. assert (Hq' : route_to g s e (b :: q)).
    { destruct Hq as [Hqr Hql]. split; [by simpl|done]. }
    specialize (Hmin _ Hq'). simpl in Hmin. lia.
Qed.

Lemma search_post_nodup g s e p : search_post g s e p → NoDup (s :: p).
Proof.
  intros [(_ & Hr & Hs & Hmin)|[_ ->]].
  - constructor; [done|]. apply (shortest_route_nodup g e p s Hr).
    intros q Hq. by apply Hmin, route_reach.
  - constructor; [by intros ?%elem_of_nil|constructor].
Qed.

(** X9: a path returned by [findPath] or [findPathA] for a start and a goal
    on the grid holds no cell twice and never the start, so it is shorter
    than the number of cells of the grid. *)
Theorem returned_path_is_simple (Q : OpenList) (L : OpenListLaws Q)
    (g : Grid) (start goal : Point) (p : list Point) :
  shape g → inbP start → inbP goal →
  findPath g start goal = Ok p ∨ findPathA Q g start goal = Ok p →
  NoDup (start :: p) ∧ (Z.of_nat (length p) < ROWS * COLS).
Proof.
  intros Hg Hs He Hfound.
  assert (Hpost : search_post g start goal p).
  { destruct Hfound as [Hf|Hf].
    - destruct (findPath_post g start goal Hg Hs) as (p' & Hp' & Hpost). congruence.
    - destruct (findPathA_post g start goal Hg Hs He) as (p' & Hp' & Hpost). congruence. }
  pose proof (search_post_nodup _ _ _ _ Hpost) as Hnd. split; [done|].
  assert (Hlen : (length (start :: p) ≤ cells)%nat).
  { apply nodup_cells_length; [done|]. intros c [->|Hc]%elem_of_cons; [done|].
    apply search_post_route, route_traversable in Hpost.
    rewrite Forall_forall in Hpost. by eapply traversable_inb, Hpost. }
  simpl in Hlen. unfold cells in Hlen. rewrite ROWS_eq, COLS_eq in *. lia.
Qed.

Lemma returned_path_is_simple_witness :
  let p := [mkPoint 1 0; mkPoint 2 0; mkPoint 2 1] in
  NoDup (mkPoint 0 0 :: p) ∧ (Z.of_nat (length p) < ROWS * COLS).
Proof.
  cbv zeta.
  apply (returned_path_is_simple HeapOpenList HeapLaws emptyGrid (mkPoint 0 0) (mkPoint 2 1)).
  - apply emptyGrid_shape.
  - solve_inb.
  - solve_inb.
  - left. vm_compute. reflexivity.
Defined.

(** ** The heuristic of A* *)

Lemma reach_manhattan g c n x : reach g c n x → manhattan c x ≤ Z.of_nat n.
Proof.
  induction 1 as [|n x x' _ IH Hadj _].
  - unfold manhattan. lia.
  - unfold manhattan, adjacent in *. lia.
Qed.

(** X10: for cells of the grid the heuristic of [findPathA] (also
    [Point::heuristic]) is the Manhattan distance, computed without
    overflow.  It is zero at the goal only, changes by at most one between
    4-connected neighbours (consistent), and never exceeds the number of
    steps of a route of free cells to the goal (admissible). *)
Theorem heuristic_consistent_admissible (g : Grid) (c goal : Point) :
  inbP c → inbP goal →
  let h := λ p, heuristic (px p) (py p) goal in
  h c = Z.abs (px c - px goal) + Z.abs (py c - py goal) ∧
  (h c = 0 ↔ c = goal) ∧
  (∀ b, inbP b → adjacent c b → h c ≤ h b + 1 ∧ h b ≤ h c + 1) ∧
  (∀ n, reach g c n goal → h c ≤ Z.of_nat n).
Proof.
  intros Hc Hgoal. cbv beta zeta. rewrite (heuristic_manhattan c goal Hc Hgoal).
  split_and!.
  - done.
  - unfold manhattan. destruct c as [x y], goal as [gx gy]. cbn [px py]. split.
    + intros H0. f_equal; lia.
    + intros [= -> ->]. lia.
  - intros b Hb Hadj. rewrite (heuristic_manhattan b goal Hb Hgoal).
    unfold manhattan, adjacent in *. lia.
  - intros n. apply reach_manhattan.
Qed.

Lemma heuristic_consistent_admissible_witness :
  let goal := mkPoint 0 3 in
  let c := mkPoint 1 1 in
  let h := λ p, heuristic (px p) (py p) goal in
  h c = Z.abs (px c - px goal) + Z.abs (py c - py goal) ∧
  (h c = 0 ↔ c = goal) ∧
  (∀ b, inbP b → adjacent c b → h c ≤ h b + 1 ∧ h b ≤ h c + 1) ∧
  (∀ n, reach emptyGrid c n goal → h c ≤ Z.of_nat n).
Proof.
  cbv zeta. apply (heuristic_consistent_admissible emptyGrid (mkPoint 1 1) (mkPoint 0 3)); solve_inb.
Defined.

(** ** The open list between a push and a pop *)

(** The vectors a [std::priority_queue] can hold: what [push] and [pop]
    make of the empty one. *)
Inductive heap_built : list entry → Prop :=
| built_empty : heap_built []
| built_push v e : heap_built v → heap_built (push_heap (v ++ [e]))
| built_pop v e v' : heap_built v → heap_take v = Some (e, v') → heap_built v'.

Lemma heap_built_ok v : heap_built v → heap_fn (length v) (cost_at v).
Proof.
  induction 1 as [|v e _ IH|v e v' _ IH Htake].
  - exact (@pq_new_ok _ HeapLaws).
  - exact (@pq_push_ok _ HeapLaws v e IH).
  - by destruct (@pq_take_some _ HeapLaws v e v' IH Htake) as [? _].
Qed.

(** X11: with the comparator [a.second > b.second] the open list of
    [findPathA] is a min-heap. However it was filled, [push] adds the entry
    and keeps all the others, [top] is an entry of least f-cost among those
    it holds, [pop] removes that entry and no other, and the list is
    [empty()] only when it holds nothing. *)
Theorem open_list_pops_least_cost (v : list entry) :
  heap_built v →
  (∀ e, push_heap (v ++ [e]) ≡ₚ e :: v) ∧
  (heap_take v = None ↔ v = []) ∧
  (∀ e v', heap_take v = Some (e, v') →
     v ≡ₚ e :: v' ∧ ∀ e', e' ∈ v → e.2 ≤ e'.2).
Proof.
  intros Hok%heap_built_ok. split_and!.
  - intros e. exact (@pq_push_elems _ HeapLaws v e Hok).
  - split; [|by intros ->]. exact (@pq_take_none _ HeapLaws v Hok).
  - intros e v' Htake.
    by destruct (@pq_take_some _ HeapLaws v e v' Hok Htake) as (_ & ? & ?).
Qed.

Lemma open_list_pops_least_cost_witness :
  let a := (mkPoint 1 0, 5) in
  let b := (mkPoint 1 2, 3) in
  let v := push_heap (push_heap ([] ++ [a]) ++ [b]) in
  (∀ e, push_heap (v ++ [e]) ≡ₚ e :: v) ∧
  (heap_take v = None ↔ v = []) ∧
  (∀ e v', heap_take v = Some (e, v') →
     v ≡ₚ e :: v' ∧ ∀ e', e' ∈ v → e.2 ≤ e'.2).
Proof.
  cbv zeta. apply open_list_pops_least_cost.
  do 2 apply built_push. apply built_empty.
Defined.

(** ** Layout files hold any [int] *)

(** The characters [ofs << n] writes for the digits [d]. *)
Definition digits (d : Decimal.uint) : list ascii :=
  String.list_ascii_of_string (DecimalString.NilEmpty.string_of_uint d).

(** What [ifs >> n] stops at: the end of the file or a character that is
    not a digit. *)
Definition stops (rest : list ascii) : Prop :=
  match rest with
  | [] => True
  | c :: _ => digit_of c = None
  end.

Lemma read_digits_stops rest acc : stops rest → read_digits rest acc = (acc, rest).
Proof. destruct rest as [|c rest]; simpl; [done|]. by intros ->. Qed.

Lemma read_digits_acc d : ∀ acc rest,
  stops rest →
  read_digits (digits d ++ rest) (Z.pos acc) = (Z.pos (Pos.of_uint_acc d acc), rest).
Proof.
  induction d as [|d IH|d IH|d IH|d IH|d IH|d IH|d IH|d IH|d IH|d IH];
    intros acc rest Hrest;
    [by apply read_digits_stops|..];
    cbn [digits DecimalString.NilEmpty.string_of_uint String.list_ascii_of_string app
         read_digits Pos.of_uint_acc];
    fold (digits d);
    match goal with
    | |- context [digit_of ?c] =>
        let k := eval vm_compute in (digit_of c) in
        change (digit_of c) with k; cbv iota beta
    end;
    match goal with
    | |- read_digits _ ?z = (Z.pos (Pos.of_uint_acc d ?a), _) =>
        replace z with (Z.pos a) by lia
    end;
    by apply IH.
Qed.

Lemma read_digits_uint d : ∀ rest,
  stops rest → read_digits (digits d ++ rest) 0 = (Z.of_N (Pos.of_uint d), rest).
Proof.
  induction d as [|d IH|d IH|d IH|d IH|d IH|d IH|d IH|d IH|d IH|d IH];
    intros rest Hrest;
    [by apply read_digits_stops|..];
    cbn [digits DecimalString.NilEmpty.string_of_uint String.list_ascii_of_string app
         read_digits Pos.of_uint];
    fold (digits d);
    match goal with
    | |- context [digit_of ?c] =>
        let k := eval vm_compute in (digit_of c) in
        change (digit_of c) with k; cbv iota beta
    end;
    [by apply IH|..];
    match goal with
    | |- read_digits _ ?z = (Z.of_N (N.pos (Pos.of_uint_acc d ?a)), _) =>
        change z with (Z.pos a)
    end;
    by apply read_digits_acc.
Qed.

Lemma digits_first d :
  d ≠ Decimal.Nil →
  ∃ c t, digits d = c :: t ∧ is_Some (digit_of c) ∧ is_space c = false ∧
         nat_of_ascii c ≠ 45%nat ∧ nat_of_ascii c ≠ 43%nat.
Proof.
  destruct d; [done|..]; intros _; eexists _, _;
    (split; [reflexivity|]); split_and!; try done; by eexists.
Qed.

Lemma in_range_kept {A} v (a b c : A) :
  INT_MIN ≤ v ≤ INT_MAX →
  (if v <? INT_MIN then a else if INT_MAX <? v then b else c) = c.
Proof.
  intros Hv.
  destruct (Z.ltb_spec v INT_MIN); [lia|]. destruct (Z.ltb_spec INT_MAX v); [lia|done].
Qed.

Lemma extract_unsigned d rest :
  d ≠ Decimal.Nil → stops rest → Z.of_N (Pos.of_uint d) ≤ INT_MAX →
  extract_int (digits d ++ rest) = Parsed (Z.of_N (Pos.of_uint d)) rest.
Proof.
  intros Hd Hrest Hmax.
  destruct (digits_first d Hd) as (c & t & Hc & [k Hk] & Hsp & Hminus & Hplus).
  pose proof (read_digits_uint d rest Hrest) as Hread. rewrite Hc in *.
  unfold extract_int. cbn [app skip_space]. rewrite Hsp.
  rewrite (proj2 (Nat.eqb_neq _ _) Hminus), (proj2 (Nat.eqb_neq _ _) Hplus).
  rewrite Hk. cbn [app] in Hread. rewrite Hread. cbv beta iota zeta.
  apply in_range_kept. pose proof (N2Z.is_nonneg (Pos.of_uint d)).
  unfold INT_MIN, INT_MAX in *. lia.
Qed.

Lemma extract_negative d rest :
  d ≠ Decimal.Nil → stops rest → INT_MIN ≤ - Z.of_N (Pos.of_uint d) →
  extract_int (ascii_of_nat 45 :: digits d ++ rest) = Parsed (- Z.of_N (Pos.of_uint d)) rest.
Proof.
  intros Hd Hrest Hmin.
  destruct (digits_first d Hd) as (c & t & Hc & [k Hk] & Hsp & Hminus & Hplus).
  pose proof (read_digits_uint d rest Hrest) as Hread. rewrite Hc in *.
  unfold extract_int. cbn [app skip_space].
  change (is_space (ascii_of_nat 45)) with false. cbv iota.
  change (nat_of_ascii (ascii_of_nat 45) =? 45)%nat with true. cbv iota.
  rewrite Hk. cbn [app] in Hread. rewrite Hread. cbv beta iota zeta.
  apply in_range_kept. pose proof (N2Z.is_nonneg (Pos.of_uint d)).
  unfold INT_MIN, INT_MAX in *. lia.
Qed.

Lemma string_of_uint_nonnil d :
  d ≠ Decimal.Nil →
  DecimalString.NilZero.string_of_uint d = DecimalString.NilEmpty.string_of_uint d.
Proof. by destruct d. Qed.

(** Reading back an [int] that [saveLayout] wrote. *)
Lemma extract_written_int ws v rest :
  blank ws → INT_MIN ≤ v ≤ INT_MAX → stops rest →
  extract_int (ws ++ print_int v ++ rest) = Parsed v rest.
Proof.
  intros Hws Hv Hrest. rewrite extract_int_blank by done.
  destruct v as [|p|p].
  - apply (extract_unsigned (Decimal.D0 Decimal.Nil) rest); done.
  - pose proof (DecimalPos.Unsigned.to_uint_nonnil p) as Hnn.
    pose proof (DecimalPos.Unsigned.of_to p) as Hval.
    unfold print_int. cbn [Z.to_int DecimalString.NilZero.string_of_int].
    rewrite string_of_uint_nonnil by done. fold (digits (Pos.to_uint p)).
    rewrite (extract_unsigned _ rest Hnn Hrest); rewrite Hval; [done|]. cbn. lia.
  - pose proof (DecimalPos.Unsigned.to_uint_nonnil p) as Hnn.
    pose proof (DecimalPos.Unsigned.of_to p) as Hval.
    unfold print_int. cbn [Z.to_int DecimalString.NilZero.string_of_int].
    rewrite string_of_uint_nonnil by done.
    cbn [String.list_ascii_of_string app]. fold (digits (Pos.to_uint p)).
    change "-"%char with (ascii_of_nat 45).
    rewrite (extract_negative _ rest Hnn Hrest); rewrite Hval; [done|]. cbn. lia.
Qed.

Definition int_cell (v : Z) : Prop := INT_MIN ≤ v ≤ INT_MAX.

Lemma read_int_cell i (cur : Grid) pre o old v ws rest :
  0 ≤ i → cur !! Z.to_nat i = Some (pre ++ o :: old) → blank ws → int_cell v →
  read_cell i (cur, Some (ws ++ print_int v ++ space :: rest)) (Z.of_nat (length pre))
  = Ok (<[Z.to_nat i := pre ++ v :: old]> cur, Some (space :: rest)).
Proof.
  intros Hi Hrow Hws Hv. unfold read_cell.
  rewrite (extract_written_int ws v (space :: rest) Hws Hv) by done.
  unfold get2, set2.
  assert ((0 <=? i) = true) as -> by (apply Z.leb_le; lia).
  assert ((0 <=? Z.of_nat (length pre)) = true) as -> by (apply Z.leb_le; lia).
  cbn [andb]. rewrite Hrow, Nat2Z.id.
  rewrite list_lookup_middle by done. cbn [bind].
  rewrite decide_True by (rewrite length_app; simpl; lia). cbn [bind].
  by rewrite insert_middle.
Qed.

Lemma read_int_row i : ∀ (row pre old : list Z) (cur : Grid) ws tail,
  0 ≤ i → cur !! Z.to_nat i = Some (pre ++ old) → length old = length row →
  Forall int_cell row → blank ws →
  ∃ ws', blank ws' ∧
    for_each (read_cell i) (seqZ (Z.of_nat (length pre)) (Z.of_nat (length row)))
      (cur, Some (ws ++ concat (map (λ cell, print_int cell ++ [space]) row) ++ tail))
    = Ok (<[Z.to_nat i := pre ++ row]> cur, Some (ws' ++ tail)).
Proof.
  induction row as [|v row IH]; intros pre old cur ws tail Hi Hrow Hlen Hrange Hws.
  - destruct old; [|done]. exists ws. split; [done|]. cbn.
    by rewrite list_insert_id.
  - destruct old as [|o old]; [done|].
    apply Forall_cons in Hrange as [Hv Hrange].
    rewrite seqZ_cons by (cbn [length]; lia). cbn [for_each map concat].
    rewrite <- !app_assoc. cbn [app].
    rewrite (read_int_cell i cur pre o old v ws _ Hi Hrow Hws Hv). cbn [bind].
    destruct (IH (pre ++ [v]) old (<[Z.to_nat i := pre ++ v :: old]> cur) [space] tail)
      as (ws' & Hws' & Hrun); [done| |simpl in Hlen; lia|done|apply blank_space|].
    { rewrite list_lookup_insert_eq by (by eapply lookup_lt_Some).
      by rewrite <- app_assoc. }
    exists ws'. split; [done|].
    replace (Z.succ (Z.of_nat (length pre))) with (Z.of_nat (length (pre ++ [v])))
      by (rewrite length_app; simpl; lia).
    replace (Z.pred (Z.of_nat (length (v :: row)))) with (Z.of_nat (length row))
      by (cbn [length]; lia).
    cbn [app] in Hrun. rewrite Hrun.
    by rewrite list_insert_insert_eq, <- app_assoc.
Qed.

Lemma read_int_rows tail post : ∀ (rows pre_rows old_rows : list (list Z)) ws,
  length old_rows = length rows →
  Forall (λ r, length r = Z.to_nat COLS) rows →
  Forall (λ r, length r = Z.to_nat COLS) old_rows →
  Forall (Forall int_cell) rows → blank ws →
  ∃ ws', blank ws' ∧
    for_each (λ st i, for_each (read_cell i) (seqZ 0 COLS) st)
      (seqZ (Z.of_nat (length pre_rows)) (Z.of_nat (length rows)))
      ((pre_rows ++ old_rows ++ post : Grid), Some (ws ++ write_grid rows ++ tail))
    = Ok ((pre_rows ++ rows ++ post : Grid), Some (ws' ++ tail)).
Proof.
  induction rows as [|row rows IH]; intros pre_rows old_rows ws Hlen Hrows Hold Hrange Hws.
  - destruct old_rows; [|done]. exists ws. by split.
  - destruct old_rows as [|old old_rows]; [done|].
    apply Forall_cons in Hrows as [Hrow Hrows].
    apply Forall_cons in Hold as [Hold1 Hold].
    apply Forall_cons in Hrange as [Hcells Hrange].
    rewrite (seqZ_cons (Z.of_nat (length pre_rows))) by (cbn [length]; lia).
    cbn [for_each]. unfold write_grid. cbn [map concat]. fold (write_grid rows).
    unfold write_row. rewrite <- !app_assoc. cbn [app].
    destruct (read_int_row (Z.of_nat (length pre_rows)) row [] old
                (pre_rows ++ old :: old_rows ++ post) ws
                (newline :: write_grid rows ++ tail))
      as (ws1 & Hws1 & Hrun); [lia| |lia|done|done|].
    { rewrite Nat2Z.id. by rewrite list_lookup_middle. }
    cbn [length app] in Hrun. change (Z.of_nat 0) with 0 in Hrun.
    replace (Z.of_nat (length row)) with COLS in Hrun by grid_lia.
    rewrite Hrun. cbn [bind].
    rewrite Nat2Z.id.
    rewrite insert_middle.
    destruct (IH (pre_rows ++ [row]) old_rows (ws1 ++ [newline]))
      as (ws' & Hws' & Hrun'); [simpl in Hlen; lia|done..|by apply blank_snoc_newline|].
    exists ws'. split; [done|].
    replace (Z.succ (Z.of_nat (length pre_rows)))
      with (Z.of_nat (length (pre_rows ++ [row])))
      by (rewrite length_app; simpl; lia).
    replace (Z.pred (Z.of_nat (length (row :: rows)))) with (Z.of_nat (length rows))
      by (cbn [length]; lia).
    rewrite <- !app_assoc in Hrun'. cbn [app] in Hrun'. exact Hrun'.
Qed.

Lemma load_saved_ints (g g0 : Grid) (tail : list ascii) :
  shape g → shape g0 → Forall (Forall int_cell) g →
  loadLayout (mkDisk (Some (write_grid g ++ tail)) true) g0 = Ok (g, LayoutLoaded).
Proof.
  intros [Hlen Hrows] [Hlen0 Hrows0] Hrange.
  unfold loadLayout. cbn [layout_file].
  destruct (read_int_rows tail [] g [] g0 []) as (ws' & _ & Hrun);
    [lia|done..|constructor|].
  rewrite !app_nil_r in Hrun.
  cbn [length app] in Hrun. change (Z.of_nat 0) with 0 in Hrun.
  replace (Z.of_nat (length g)) with ROWS in Hrun by grid_lia.
  rewrite Hrun. done.
Qed.

(** X12: a layout file holds any [int], not only 0 and 1, and [loadLayout]
    reads no further than the [ROWS] x [COLS] integers it needs.  Loading a
    file that starts with what [saveLayout] wrote for a grid of [int]
    values, followed by anything, gives that grid cell for cell, whatever
    grid was in memory, and reports the load as done. *)
Theorem load_reads_saved_ints (g g0 : Grid) (tail : list ascii) (d : Disk) :
  shape g → shape g0 → Forall (Forall int_cell) g →
  layout_file d = Some (write_grid g ++ tail) →
  loadLayout d g0 = Ok (g, LayoutLoaded).
Proof.
  intros Hg Hg0 Hrange Hfile.
  rewrite <- (load_saved_ints g g0 tail Hg Hg0 Hrange).
  unfold loadLayout. by rewrite Hfile.
Qed.

Global Instance int_cell_dec v : Decision (int_cell v).
Proof. unfold int_cell. apply _. Defined.

(** A grid that holds a negative cell and the greatest [int]. *)
Definition oddGrid : Grid :=
  <[0%nat := <[0%nat := -7]> (<[1%nat := INT_MAX]> (replicate (Z.to_nat COLS) 0))]> emptyGrid.

Lemma load_reads_saved_ints_witness :
  loadLayout (mkDisk (Some (write_grid oddGrid ++ ["x"%char; "7"%char])) true) emptyGrid
  = Ok (oddGrid, LayoutLoaded).
Proof.
  apply (load_reads_saved_ints oddGrid emptyGrid ["x"%char; "7"%char]).
  - split; [reflexivity|]. vm_compute. repeat constructor.
  - apply emptyGrid_shape.
  - apply (bool_decide_unpack _). vm_compute. exact I.
  - reflexivity.
Defined.

(** ** A layout file that runs out of data *)

(** A stream from which no integer can be read any more without a store:
    it has failed, or only white space is left. *)
Definition spent (ifs : option (list ascii)) : Prop :=
  match ifs with
  | None => True
  | Some s => blank s
  end.

Lemma skip_space_all ws : blank ws → skip_space ws = [].
Proof. induction 1 as [|c ws Hc _ IH]; [done|]. simpl. by rewrite Hc. Qed.

Lemma read_cell_spent i j (g : Grid) ifs :
  shape g → inb j i → spent ifs → read_cell i (g, ifs) j = Ok (g, None).
Proof.
  intros Hg Hin Hsp. unfold read_cell.
  destruct (get2_inb g j i Hg Hin) as [v0 ->]. cbn [bind].
  destruct ifs as [s|]; [|done].
  unfold extract_int. by rewrite skip_space_all.
Qed.

Lemma read_row_spent i js : ∀ (g : Grid) ifs,
  shape g → 0 ≤ i < ROWS → (∀ j, j ∈ js → 0 ≤ j < COLS) → js ≠ [] → spent ifs →
  for_each (read_cell i) js (g, ifs) = Ok (g, None).
Proof.
  induction js as [|j js IH]; intros g ifs Hg Hi Hjs Hne Hsp; [done|].
  cbn [for_each]. rewrite read_cell_spent; [|done|split; [apply Hjs; by left|done]|done].
  cbn [bind]. destruct js as [|j' js']; [done|].
  apply IH; [done..| |done|done]. intros k Hk. apply Hjs. by right.
Qed.

Lemma read_rows_spent ixs : ∀ (g : Grid) ifs,
  shape g → (∀ i, i ∈ ixs → 0 ≤ i < ROWS) → ixs ≠ [] → spent ifs →
  for_each (λ st i, for_each (read_cell i) (seqZ 0 COLS) st) ixs (g, ifs) = Ok (g, None).
Proof.
  induction ixs as [|i ixs IH]; intros g ifs Hg His Hne Hsp; [done|].
  cbn [for_each]. rewrite read_row_spent; [|done|apply His; by left| |done|done].
  2: { intros j Hj. apply elem_of_seqZ in Hj. lia. }
  cbn [bind]. destruct ixs as [|i' ixs']; [done|].
  apply IH; [done| |done|done]. intros k Hk. apply His. by right.
Qed.

Lemma for_each_app {S D} (body : S → D → Res S) l1 l2 s :
  for_each body (l1 ++ l2) s = (s' <- for_each body l1 s;; for_each body l2 s').
Proof.
  revert s. induction l1 as [|d l1 IH]; intros s; cbn [app for_each bind]; [done|].
  destruct (body s d); cbn [bind]; [apply IH|done..].
Qed.

(** X13: a layout file cut short after some complete rows, or empty (then
    nothing but white space), is reported as loaded; the rows it holds
    replace the first rows of the grid, and the rows below keep the cells
    they had. *)
Theorem load_cut_after_rows (d : Disk) (g0 rows : Grid) (ws : list ascii) :
  shape g0 → (length rows ≤ Z.to_nat ROWS)%nat →
  Forall (λ r, length r = Z.to_nat COLS) rows → Forall (Forall int_cell) rows →
  blank ws → layout_file d = Some (write_grid rows ++ ws) →
  loadLayout d g0 = Ok (rows ++ drop (length rows) g0, LayoutLoaded).
Proof.
  intros [Hlen0 Hrows0] Hr Hrows Hrange Hws Hfile.
  unfold loadLayout. rewrite Hfile.
  set (r := length rows) in *. pose proof ROWS_eq as HR.
  assert (Hsplit : seqZ 0 ROWS = seqZ 0 (Z.of_nat r) ++ seqZ (Z.of_nat r) (ROWS - Z.of_nat r)).
  { replace ROWS with (Z.of_nat r + (ROWS - Z.of_nat r)) at 1 by lia.
    rewrite seqZ_app by lia. by rewrite Z.add_0_l. }
  rewrite Hsplit, for_each_app.
  destruct (read_int_rows ws (drop r g0) rows [] (take r g0) []) as (ws' & Hws' & Hrun).
  { rewrite length_take. lia. }
  { done. }
  { by apply Forall_take. }
  { done. }
  { constructor. }
  cbn [length app] in Hrun. change (Z.of_nat 0) with 0 in Hrun.
  rewrite take_drop in Hrun. fold r in Hrun. rewrite Hrun. cbn [bind].
  assert (Hshape : shape (rows ++ drop r g0)).
  { split.
    - rewrite length_app, length_drop. lia.
    - apply Forall_app. split; [done|]. by apply Forall_drop. }
  destruct (decide (Z.of_nat r = ROWS)) as [Hall|Hless].
  - rewrite (seqZ_nil (Z.of_nat r)) by lia. done.
  - rewrite read_rows_spent; try done.
    + intros i Hi. apply elem_of_seqZ in Hi. lia.
    + rewrite (seqZ_cons (Z.of_nat r)) by lia. done.
    + by apply Forall_app.
Qed.

Lemma load_cut_after_rows_witness :
  let row := <[0%nat := 1]> (replicate (Z.to_nat COLS) 0) in
  loadLayout (mkDisk (Some (write_grid [row; row] ++ [newline])) true) emptyGrid
  = Ok ([row; row] ++ drop 2 emptyGrid, LayoutLoaded).
Proof.
  cbv zeta.
  apply (load_cut_after_rows _ emptyGrid
           [<[0%nat := 1]> (replicate (Z.to_nat COLS) 0);
            <[0%nat := 1]> (replicate (Z.to_nat COLS) 0)] [newline]).
  - apply emptyGrid_shape.
  - vm_compute. lia.
  - by repeat constructor.
  - apply (bool_decide_unpack _). vm_compute. exact I.
  - by repeat constructor.
  - reflexivity.
Defined.

(** ** Saving and loading from the event loop *)

Lemma int_wrap_range z : int_cell (int_wrap z).
Proof.
  unfold int_cell, int_wrap, INT_MIN, INT_MAX.
  pose proof (Z.mod_pos_bound (z + 2147483648) 4294967296). lia.
Qed.

Lemma set2_cells (P : Z → Prop) (g g' : Grid) x y v :
  Forall (Forall P) g → P v → set2 g x y v = Ok g' → Forall (Forall P) g'.
Proof.
  intros Hg Hv. unfold set2. destruct (_ && _); [|done].
  destruct (g !! Z.to_nat y) as [row|] eqn:Hrow; [|done].
  case_decide; [|done]. intros [= <-].
  apply Forall_insert; [done|]. apply Forall_insert; [|done].
  by eapply Forall_lookup_1.
Qed.

Lemma extract_int_range s v rest : extract_int s = Parsed v rest → int_cell v.
Proof.
  unfold extract_int. destruct (skip_space s) as [|c s']; [done|].
  destruct (if (nat_of_ascii c =? 45)%nat then _ else _) as [negative body].
  destruct body as [|d body]; [done|].
  destruct (digit_of d); [|done].
  destruct (read_digits _ _) as [magnitude rest'].
  destruct (Z.ltb_spec (if negative then - magnitude else magnitude) INT_MIN); [done|].
  destruct (Z.ltb_spec INT_MAX (if negative then - magnitude else magnitude)); [done|].
  intros [= <- _]. by split.
Qed.

Lemma extract_int_stored s v : extract_int s = Failed (Some v) → int_cell v.
Proof.
  unfold extract_int. destruct (skip_space s) as [|c s']; [done|].
  destruct (if (nat_of_ascii c =? 45)%nat then _ else _) as [negative body].
  destruct body as [|d body]; [by intros [= <-]|].
  destruct (digit_of d); [|by intros [= <-]].
  destruct (read_digits _ _) as [magnitude rest'].
  destruct (_ <? _); [by intros [= <-]|].
  destruct (_ <? _); [by intros [= <-]|done].
Qed.

Lemma for_each_keeps {S D} (P : S → Prop) (body : S → D → Res S) ds :
  (∀ s d s', P s → body s d = Ok s' → P s') →
  ∀ s s', P s → for_each body ds s = Ok s' → P s'.
Proof.
  intros Hbody. induction ds as [|d ds IH]; intros s s' Hs; cbn [for_each].
  - by intros [= <-].
  - destruct (body s d) as [s1| |] eqn:Hb; cbn [bind]; [|done..].
    apply IH. by eapply Hbody.
Qed.

Lemma loadLayout_cells d g r :
  Forall (Forall int_cell) g → loadLayout d g = Ok r → Forall (Forall int_cell) r.1.
Proof.
  intros Hg. unfold loadLayout.
  destruct (layout_file d) as [content|]; [|by intros [= <-]].
  destruct (for_each _ _ _) as [st| |] eqn:Hrun; cbn [bind]; [|done..].
  intros [= <-]. cbn [fst].
  revert Hrun. apply (for_each_keeps (λ st, Forall (Forall int_cell) st.1)); [|done].
  intros s i s' Hs. apply (for_each_keeps (λ st, Forall (Forall int_cell) st.1)); [|done].
  clear. intros [g ifs] j [g' ifs'] Hg. cbn [fst] in *. unfold read_cell.
  destruct (get2 g j i); cbn [bind]; [|done..].
  destruct ifs as [s|]; [|by intros [= <- _]].
  destruct (extract_int s) as [v rest|[v|]] eqn:Hex.
  - destruct (set2 g j i v) as [g1| |] eqn:Hset; cbn [bind]; [|done..].
    intros [= <- _]. eapply set2_cells; [done| |done]. by eapply extract_int_range.
  - destruct (set2 g j i v) as [g1| |] eqn:Hset; cbn [bind]; [|done..].
    intros [= <- _]. eapply set2_cells; [done| |done]. by eapply extract_int_stored.
  - by intros [= <- _].
Qed.

Section SaveLoad.
Context {Q : OpenList} {L : OpenListLaws Q}.

Lemma handle_event_cells st e st' :
  Forall (Forall int_cell) (warehouseGrid st) → handle_event st e = Ok st' →
  Forall (Forall int_cell) (warehouseGrid st').
Proof.
  intros Hg. destruct e; cbn [handle_event].
  - by intros [= <-].
  - destruct (isValidGridPosition _ _ _) as [[|]| |]; cbn [bind]; try done.
    + intros Hre. by rewrite (replan_grid _ _ Hre).
    + by intros [= <-].
  - destruct (get2 _ _ _) as [v| |]; cbn [bind]; [|done..].
    destruct (set2 _ _ _ _) as [g'| |] eqn:Hset; cbn [bind]; [|done..].
    assert (Hg' : Forall (Forall int_cell) g').
    { eapply set2_cells; [done| |done]. apply int_wrap_range. }
    destruct (hasDestination st).
    + intros Hre. by rewrite (replan_grid _ _ Hre).
    + by intros [= <-].
  - by intros [= <-].
  - by intros [= <-].
  - destruct (hasDestination st).
    + intros Hre. by rewrite (replan_grid _ _ Hre).
    + by intros [= <-].
  - destruct (saveLayout _ _) as [d' msg]. by intros [= <-].
  - destruct (loadLayout _ _) as [r| |] eqn:Hload; cbn [bind]; [|done..].
    assert (Hg' : Forall (Forall int_cell) r.1) by (by eapply loadLayout_cells).
    destruct (hasDestination st).
    + intros Hre. by rewrite (replan_grid _ _ Hre).
    + by intros [= <-].
  - by intros [= <-].
Qed.

Lemma advance_grid arrives st st' :
  advance arrives st = Ok st' → warehouseGrid st' = warehouseGrid st.
Proof.
  unfold advance. destruct (_ && _); [|by intros [= <-]].
  destruct (path st !! currentPathIndex st); [|done]. by intros [= <-].
Qed.

Lemma reachable_cells d st : reachable d st → Forall (Forall int_cell) (warehouseGrid st).
Proof.
  induction 1 as [|st e st' _ IH Hev|st arrives st' _ IH Hadv].
  - apply (bool_decide_unpack _). vm_compute. exact I.
  - by eapply handle_event_cells.
  - by rewrite (advance_grid _ _ _ Hadv).
Qed.

(** X14: in every state the loop reaches, every cell of the grid is within
    the range of [int], and pressing S then L, when the file can be
    written, leaves the grid as it was:
    [loadLayout] reads back exactly what [saveLayout] wrote, and the two
    messages printed are those of a save and a load done. *)
Theorem save_then_load_keys_keep_grid (d : Disk) (st st1 st2 : State) :
  reachable d st → writable (disk st) = true →
  handle_event st KeyS = Ok st1 → handle_event st1 KeyL = Ok st2 →
  Forall (Forall int_cell) (warehouseGrid st) ∧
  warehouseGrid st2 = warehouseGrid st ∧
  console st2 = console st ++ [LayoutSaved; LayoutLoaded].
Proof.
  intros Hreach Hw Hsave Hload.
  pose proof (reachable_cells d st Hreach) as Hcells.
  pose proof (reachable_loop_inv d st Hreach) as [Hg _ _ _ _ _ _].
  split; [done|].
  cbn [handle_event] in Hsave. unfold saveLayout in Hsave. rewrite Hw in Hsave.
  injection Hsave as <-. cbn [handle_event disk warehouseGrid hasDestination] in Hload.
  pose proof (load_saved_ints (warehouseGrid st) (warehouseGrid st) [] Hg Hg Hcells)
    as Hback.
  rewrite app_nil_r in Hback. rewrite Hback in Hload. cbn [bind fst snd] in Hload.
  destruct (hasDestination st).
  - unfold replan in Hload. cbn in Hload.
    destruct (if useAStar st then _ else _) as [p| |]; cbn [bind] in Hload; [|done..].
    injection Hload as <-. cbn. by rewrite <- app_assoc.
  - injection Hload as <-. cbn. by rewrite <- app_assoc.
Qed.

End SaveLoad.

(** [planned_state] after S. *)
Definition saved_state : State :=
  mkState emptyGrid (mkPoint 0 0) (mkPoint 2 1) true false
    [mkPoint 1 0; mkPoint 2 0; mkPoint 2 1] 0%nat false
    (mkDisk (Some (write_grid emptyGrid)) true) [LayoutSaved]
    [(false, mkPoint 0 0, mkPoint 2 1)].

(** [saved_state] after L: the path is searched for again. *)
Definition reloaded_state : State :=
  mkState emptyGrid (mkPoint 0 0) (mkPoint 2 1) true false
    [mkPoint 1 0; mkPoint 2 0; mkPoint 2 1] 0%nat false
    (mkDisk (Some (write_grid emptyGrid)) true) [LayoutSaved; LayoutLoaded]
    [(false, mkPoint 0 0, mkPoint 2 1); (false, mkPoint 0 0, mkPoint 2 1)].

Lemma save_then_load_keys_keep_grid_witness :
  Forall (Forall int_cell) (warehouseGrid planned_state) ∧
  warehouseGrid reloaded_state = warehouseGrid planned_state ∧
  console reloaded_state = console planned_state ++ [LayoutSaved; LayoutLoaded].
Proof.
  apply (save_then_load_keys_keep_grid (Q := HeapOpenList) (L := HeapLaws)
           (mkDisk None true) planned_state saved_state reloaded_state).
  - apply planned_state_reachable.
  - reflexivity.
  - reflexivity.
  - vm_compute. reflexivity.
Defined.

(** * Drawing

    The rendering functions are kept as the list of calls they make to the
    SDL renderer, in order. *)

Record SDL_Rect : Type := mkRect { rect_x : Z; rect_y : Z; rect_w : Z; rect_h : Z }.

Inductive Draw : Type :=
| SetColor (r g b a : Z)        (* SDL_SetRenderDrawColor *)
| FillRect (r : SDL_Rect).      (* SDL_RenderFillRect *)

(** [renderObstacles]: a filled square for every cell that holds 1. *)
Definition renderObstacles (g : Grid) : Res (list Draw) :=
  for_each (λ out i,
      for_each (λ out j,
          v <- get2 g j i;;
          Ok (if v =? 1
              then out ++ [FillRect (mkRect (int_wrap (j * GRID_SIZE))
                                      (int_wrap (i * GRID_SIZE)) GRID_SIZE GRID_SIZE)]
              else out))
        (seqZ 0 COLS) out)
    (seqZ 0 ROWS) [SetColor 200 50 50 255].

(** [renderDestination]: a smaller square in the middle of the
    destination cell, when there is a destination. *)
Definition renderDestination (st : State) : list Draw :=
  if hasDestination st then
    [SetColor 50 50 200 255;
     FillRect (mkRect (int_wrap (int_wrap (px (destination st) * GRID_SIZE) + GRID_SIZE ÷ 4))
                 (int_wrap (int_wrap (py (destination st) * GRID_SIZE) + GRID_SIZE ÷ 4))
                 (GRID_SIZE ÷ 2) (GRID_SIZE ÷ 2))]
  else [].

(** [renderPath]: nothing for the empty path, else a small square in every
    cell of the path. *)
Definition renderPath (path : list Point) : list Draw :=
  match path with
  | [] => []
  | _ =>
      SetColor 255 215 0 255 ::
      map (λ p, FillRect (mkRect (int_wrap (int_wrap (px p * GRID_SIZE) + GRID_SIZE ÷ 3))
                            (int_wrap (int_wrap (py p * GRID_SIZE) + GRID_SIZE ÷ 3))
                            (GRID_SIZE ÷ 3) (GRID_SIZE ÷ 3))) path
  end.

(** ** What is drawn, and where *)

(** The square of the window that belongs to a cell. *)
Definition square (c : Point) : SDL_Rect :=
  mkRect (px c * GRID_SIZE) (py c * GRID_SIZE) GRID_SIZE GRID_SIZE.

(** [r] lies within [s]. *)
Definition within (r s : SDL_Rect) : Prop :=
  rect_x s ≤ rect_x r ∧ rect_x r + rect_w r ≤ rect_x s + rect_w s ∧
  rect_y s ≤ rect_y r ∧ rect_y r + rect_h r ≤ rect_y s + rect_h s ∧
  0 < rect_w r ∧ 0 < rect_h r.

Definition window : SDL_Rect := mkRect 0 0 SCREEN_WIDTH SCREEN_HEIGHT.

Lemma square_in_window c : inbP c → within (square c) window.
Proof.
  intros [Hx Hy]%inb_iff. unfold within, square, window.
  cbn [rect_x rect_y rect_w rect_h].
  unfold GRID_SIZE, SCREEN_WIDTH, SCREEN_HEIGHT. pose proof ROWS_eq. pose proof COLS_eq. lia.
Qed.

Lemma within_trans r s t : within r s → within s t → within r t.
Proof. unfold within. lia. Qed.

Definition is_obstacle (g : Grid) (c : Point) : bool :=
  match get2 g (px c) (py c) with
  | Ok v => v =? 1
  | _ => false
  end.

Lemma is_obstacle_spec g c : is_obstacle g c = true ↔ get2 g (px c) (py c) = Ok 1.
Proof.
  unfold is_obstacle. destruct (get2 _ _ _) as [v| |]; [|done..].
  rewrite Z.eqb_eq. split; [by intros ->|by intros [= ->]].
Qed.

(** The squares drawn for row [i], columns [js], and for rows [ixs]. *)
Definition row_squares (g : Grid) (i : Z) (js : list Z) : list Draw :=
  j ← js; if is_obstacle g (mkPoint j i) then [FillRect (square (mkPoint j i))] else [].

Definition rows_squares (g : Grid) (ixs : list Z) : list Draw :=
  i ← ixs; row_squares g i (seqZ 0 COLS).

Lemma render_row g i js : ∀ out,
  shape g → 0 ≤ i < ROWS → (∀ j, j ∈ js → 0 ≤ j < COLS) →
  for_each (λ out j,
      v <- get2 g j i;;
      Ok (if v =? 1
          then out ++ [FillRect (mkRect (int_wrap (j * GRID_SIZE))
                                  (int_wrap (i * GRID_SIZE)) GRID_SIZE GRID_SIZE)]
          else out)) js out
  = Ok (out ++ row_squares g i js).
Proof.
  intros out Hg Hi. revert out.
  induction js as [|j js IH]; intros out Hjs; cbn [for_each].
  - by rewrite app_nil_r.
  - assert (Hj : 0 ≤ j < COLS) by (apply Hjs; by left).
    destruct (get2_inb g j i Hg) as [v Hv]; [done|]. rewrite Hv. cbn [bind].
    rewrite IH by (intros k Hk; apply Hjs; by right).
    unfold row_squares. cbn [mbind list_bind]. unfold is_obstacle. cbn [px py].
    rewrite Hv. f_equal. destruct (v =? 1); [|done].
    rewrite <- app_assoc. unfold square. cbn [px py app].
    rewrite !int_wrap_small by (unfold GRID_SIZE; pose proof ROWS_eq; pose proof COLS_eq; lia).
    done.
Qed.

Lemma render_rows g ixs : ∀ out,
  shape g → (∀ i, i ∈ ixs → 0 ≤ i < ROWS) →
  for_each (λ out i,
      for_each (λ out j,
          v <- get2 g j i;;
          Ok (if v =? 1
              then out ++ [FillRect (mkRect (int_wrap (j * GRID_SIZE))
                                      (int_wrap (i * GRID_SIZE)) GRID_SIZE GRID_SIZE)]
              else out))
        (seqZ 0 COLS) out) ixs out
  = Ok (out ++ rows_squares g ixs).
Proof.
  intros out Hg. revert out.
  induction ixs as [|i ixs IH]; intros out His; cbn [for_each].
  - by rewrite app_nil_r.
  - rewrite render_row; [|done|apply His; by left|].
    2: { intros j Hj. apply elem_of_seqZ in Hj. lia. }
    cbn [bind]. rewrite IH by (intros k Hk; apply His; by right).
    unfold rows_squares. cbn [mbind list_bind]. by rewrite <- app_assoc.
Qed.

Lemma elem_of_rows_squares g d :
  d ∈ rows_squares g (seqZ 0 ROWS) ↔
  ∃ c, inbP c ∧ get2 g (px c) (py c) = Ok 1 ∧ d = FillRect (square c).
Proof.
  unfold rows_squares, row_squares. rewrite list_elem_of_bind. split.
  - intros (i & (j & Hd & Hj)%list_elem_of_bind & Hi).
    apply elem_of_seqZ in Hi, Hj.
    destruct (is_obstacle g (mkPoint j i)) eqn:Hob; [|by apply elem_of_nil in Hd].
    apply list_elem_of_singleton in Hd. exists (mkPoint j i).
    split_and!; [split; cbn; lia|by apply is_obstacle_spec in Hob|done].
  - intros (c & [Hx Hy] & Hget & ->). exists (py c). split; [|apply elem_of_seqZ; lia].
    apply list_elem_of_bind. exists (px c). split; [|apply elem_of_seqZ; lia].
    destruct c as [x y]. cbn [px py] in *.
    rewrite (proj2 (is_obstacle_spec g (mkPoint x y)) Hget). by left.
Qed.

Lemma square_inj c c' : square c = square c' → c = c'.
Proof.
  destruct c as [x y], c' as [x' y']. unfold square, GRID_SIZE. cbn [px py].
  intros [= Hx Hy]. f_equal; lia.
Qed.

Lemma get2_bit (g : Grid) x y v : Forall (Forall bit) g → get2 g x y = Ok v → bit v.
Proof.
  intros Hg. unfold get2. destruct (_ && _); [|done].
  destruct (g !! Z.to_nat y) as [row|] eqn:Hrow; [|done].
  destruct (row !! Z.to_nat x) as [v0|] eqn:Hv; [|done]. intros [= <-].
  eapply Forall_lookup_1; [|done]. by eapply Forall_lookup_1.
Qed.

Lemma elem_of_row_squares g i js d :
  d ∈ row_squares g i js → ∃ j, d = FillRect (square (mkPoint j i)).
Proof.
  unfold row_squares. intros (j & Hd & _)%list_elem_of_bind.
  destruct (is_obstacle g (mkPoint j i)); [|by apply elem_of_nil in Hd].
  apply list_elem_of_singleton in Hd. by exists j.
Qed.

Lemma rows_squares_nodup g ixs : NoDup ixs → NoDup (rows_squares g ixs).
Proof.
  intros Hixs. unfold rows_squares. apply NoDup_bind; [| |done].
  - intros i1 i2 d _ _ [j1 ->]%elem_of_row_squares [j2 Heq]%elem_of_row_squares.
    injection Heq as Heq. assert (mkPoint j1 i1 = mkPoint j2 i2) as Hc.
    { apply square_inj. unfold square. by f_equal. }
    by injection Hc.
  - intros i _. unfold row_squares. apply NoDup_bind; [| |apply NoDup_seqZ].
    + intros j1 j2 d _ _ H1 H2.
      destruct (is_obstacle g (mkPoint j1 i)); [|by apply elem_of_nil in H1].
      destruct (is_obstacle g (mkPoint j2 i)); [|by apply elem_of_nil in H2].
      apply list_elem_of_singleton in H1, H2. rewrite H1 in H2.
      injection H2 as Heq. assert (mkPoint j1 i = mkPoint j2 i) as Hc.
      { apply square_inj. unfold square. by f_equal. }
      by injection Hc.
    + intros j _. destruct (is_obstacle g (mkPoint j i)); [|constructor].
      apply NoDup_singleton.
Qed.

(** X15: on a grid of the fixed dimensions [renderObstacles] reads no cell
    out of range, sets the colour once and fills one square per cell that
    holds 1, no square twice: exactly the squares of those cells, each
    inside the window.  A
    cell drawn as an obstacle is never traversable; on a grid of zeros and
    ones a cell not drawn is traversable (a cell holding another value
    blocks the searches without being drawn). *)
Theorem obstacles_drawn_are_the_ones (g : Grid) :
  shape g →
  ∃ out, renderObstacles g = Ok (SetColor 200 50 50 255 :: out) ∧
    NoDup out ∧
    (∀ d, d ∈ out ↔
          ∃ c, inbP c ∧ get2 g (px c) (py c) = Ok 1 ∧ d = FillRect (square c)) ∧
    (∀ c, FillRect (square c) ∈ out → within (square c) window ∧ ¬ traversable g c) ∧
    (Forall (Forall bit) g →
     ∀ c, inbP c → FillRect (square c) ∉ out → traversable g c).
Proof.
  intros Hg. exists (rows_squares g (seqZ 0 ROWS)). split_and!.
  - unfold renderObstacles. rewrite render_rows; [done..|].
    intros i Hi. apply elem_of_seqZ in Hi. lia.
  - apply rows_squares_nodup, NoDup_seqZ.
  - apply elem_of_rows_squares.
  - intros c (c' & Hin & Hget & Heq)%elem_of_rows_squares.
    injection Heq as Heq. assert (c = c') as <-.
    { apply square_inj. unfold square. by f_equal. }
    split; [by apply square_in_window|].
    intros [_ Hfree]%traversable_iff. unfold free in Hfree. congruence.
  - intros Hbits c Hin Hnot. apply traversable_iff. split; [done|].
    destruct (get2_inb g (px c) (py c) Hg Hin) as [v Hv].
    destruct (get2_bit g _ _ v Hbits Hv) as [->| ->]; [done|].
    destruct Hnot. apply elem_of_rows_squares. by exists c.
Qed.

Lemma obstacles_drawn_are_the_ones_witness :
  ∃ out, renderObstacles cornerBlocked = Ok (SetColor 200 50 50 255 :: out) ∧
    NoDup out ∧
    (∀ d, d ∈ out ↔
          ∃ c, inbP c ∧ get2 cornerBlocked (px c) (py c) = Ok 1 ∧ d = FillRect (square c)) ∧
    (∀ c, FillRect (square c) ∈ out →
          within (square c) window ∧ ¬ traversable cornerBlocked c) ∧
    (Forall (Forall bit) cornerBlocked →
     ∀ c, inbP c → FillRect (square c) ∉ out → traversable cornerBlocked c).
Proof.
  apply obstacles_drawn_are_the_ones. apply cornerBlocked_shape.
Defined.

Section Markers.
Context {Q : OpenList} {L : OpenListLaws Q}.

Lemma replan_path_inb s st' :
  shape (warehouseGrid s) → inbP (gridPos s) → inbP (destination s) →
  replan s = Ok st' → Forall inbP (path st').
Proof.
  intros H1 H2 H3 Hre. destruct (replan_post s H1 H2 H3) as (p & Heq & Hpost).
  rewrite Heq in Hre. injection Hre as <-. cbn [path].
  apply search_post_route, route_traversable in Hpost.
  eapply Forall_impl; [exact Hpost|]. intros c. apply traversable_inb.
Qed.

Lemma handle_event_path_inb st e st' :
  loop_inv st → Forall inbP (path st) → handle_event st e = Ok st' →
  Forall inbP (path st').
Proof.
  intros [Hg Hp Hd _ _ _ _] Hpath. destruct e; cbn [handle_event].
  - by intros [= <-].
  - destruct (isValidGridPosition _ _ _) as [[|]| |] eqn:Hv; cbn [bind]; try done.
    + apply replan_path_inb; cbn; try done. by apply isValid_true_inb in Hv.
    + by intros [= <-].
  - destruct (get2 _ _ _) as [v| |]; cbn [bind]; [|done..].
    destruct (set2 _ _ _ _) as [g'| |] eqn:Hset; cbn [bind]; [|done..].
    destruct (hasDestination st).
    + apply replan_path_inb; cbn; try done. by eapply set2_shape.
    + by intros [= <-].
  - by intros [= <-].
  - intros [= <-]. constructor.
  - destruct (hasDestination st).
    + by apply replan_path_inb.
    + by intros [= <-].
  - destruct (saveLayout _ _) as [d' msg]. by intros [= <-].
  - destruct (loadLayout _ _) as [r| |] eqn:Hload; cbn [bind]; [|done..].
    destruct (hasDestination st).
    + apply replan_path_inb; cbn; try done. by eapply loadLayout_shape.
    + by intros [= <-].
  - by intros [= <-].
Qed.

Lemma advance_path arrives st st' : advance arrives st = Ok st' → path st' = path st.
Proof.
  unfold advance. destruct (_ && _); [|by intros [= <-]].
  destruct (path st !! currentPathIndex st); [|done]. by intros [= <-].
Qed.

Lemma reachable_path_inb d st : reachable d st → Forall inbP (path st).
Proof.
  induction 1 as [|st e st' Hr IH Hev|st arrives st' _ IH Hadv].
  - constructor.
  - eapply handle_event_path_inb; [|done..]. by eapply reachable_loop_inv.
  - by rewrite (advance_path _ _ _ Hadv).
Qed.

(** X16: in every state the loop reaches, every square that [renderPath]
    and [renderDestination] fill lies inside the square of a cell of the
    grid, so inside the window, and its coordinates are computed without
    overflow; [renderPath] fills one square for each cell of the path. *)
Theorem markers_drawn_inside_cells (d : Disk) (st : State) :
  reachable d st →
  (∀ r, FillRect r ∈ renderPath (path st) ++ renderDestination st →
        ∃ c, inbP c ∧ within r (square c) ∧ within r window) ∧
  (∀ c, c ∈ path st →
        FillRect (mkRect (px c * GRID_SIZE + 13) (py c * GRID_SIZE + 13) 13 13)
        ∈ renderPath (path st)).
Proof.
  intros Hreach. pose proof (reachable_path_inb d st Hreach) as Hpath.
  pose proof (reachable_loop_inv d st Hreach) as [_ _ Hd _ _ _ _].
  assert (Hwrap : ∀ c k, inbP c → 0 ≤ k ≤ 13 →
            int_wrap (int_wrap (px c * GRID_SIZE) + k) = px c * GRID_SIZE + k ∧
            int_wrap (int_wrap (py c * GRID_SIZE) + k) = py c * GRID_SIZE + k).
  { intros c k [Hx Hy] Hk. unfold GRID_SIZE.
    pose proof ROWS_eq. pose proof COLS_eq.
    rewrite !(int_wrap_small (_ * 40)) by lia. rewrite !int_wrap_small by lia. done. }
  assert (Hin : ∀ c k w, inbP c → 0 ≤ k → 0 < w → k + w ≤ GRID_SIZE →
            within (mkRect (px c * GRID_SIZE + k) (py c * GRID_SIZE + k) w w) (square c)).
  { intros c k w _ Hk Hw Hkw. unfold within, square. cbn [rect_x rect_y rect_w rect_h]. lia. }
  split.
  - intros r [Hr|Hr]%elem_of_app.
    + unfold renderPath in Hr. destruct (path st) as [|c0 p] eqn:Hp; [by apply elem_of_nil in Hr|].
      apply elem_of_cons in Hr as [?|Hr]; [done|].
      apply list_elem_of_fmap in Hr as (c & [= ->] & Hc).
      assert (Hcin : inbP c) by (rewrite Forall_forall in Hpath; by apply Hpath).
      change (GRID_SIZE ÷ 3) with 13.
      destruct (Hwrap c 13 Hcin) as [-> ->]; [lia|].
      exists c. split; [done|].
      assert (within (mkRect (px c * GRID_SIZE + 13) (py c * GRID_SIZE + 13) 13 13) (square c))
        by (apply Hin; unfold GRID_SIZE; done || lia).
      split; [done|]. eapply within_trans; [done|]. by apply square_in_window.
    + unfold renderDestination in Hr. destruct (hasDestination st); [|by apply elem_of_nil in Hr].
      apply elem_of_cons in Hr as [?|Hr]; [done|].
      apply list_elem_of_singleton in Hr. injection Hr as ->.
      change (GRID_SIZE ÷ 4) with 10. change (GRID_SIZE ÷ 2) with 20.
      destruct (Hwrap (destination st) 10 Hd) as [-> ->]; [lia|].
      exists (destination st). split; [done|].
      assert (within (mkRect (px (destination st) * GRID_SIZE + 10)
                        (py (destination st) * GRID_SIZE + 10) 20 20)
                (square (destination st)))
        by (apply Hin; unfold GRID_SIZE; done || lia).
      split; [done|]. eapply within_trans; [done|]. by apply square_in_window.
  - intros c Hc. assert (Hcin : inbP c) by (rewrite Forall_forall in Hpath; by apply Hpath).
    unfold renderPath. destruct (path st) as [|c0 p] eqn:Hp; [by apply elem_of_nil in Hc|].
    right. apply list_elem_of_fmap. exists c. split; [|done].
    change (GRID_SIZE ÷ 3) with 13. by destruct (Hwrap c 13 Hcin) as [-> ->]; [lia|].
Qed.

End Markers.

Lemma markers_drawn_inside_cells_witness :
  let st := planned_state in
  (∀ r, FillRect r ∈ renderPath (path st) ++ renderDestination st →
        ∃ c, inbP c ∧ within r (square c) ∧ within r window) ∧
  (∀ c, c ∈ path st →
        FillRect (mkRect (px c * GRID_SIZE + 13) (py c * GRID_SIZE + 13) 13 13)
        ∈ renderPath (path st)).
Proof.
  cbv zeta.
  apply (markers_drawn_inside_cells (Q := HeapOpenList) (L := HeapLaws) (mkDisk None true)).
  apply planned_state_reachable.
Defined.

(** ** The test every search step makes *)

(** X17: on a grid of the fixed dimensions [isValidGridPosition] answers
    for every pair of integers without reading the grid out of range (the
    bounds are tested before the cell is read), and it answers true exactly
    for a cell of the grid that holds 0. *)
Theorem isValidGridPosition_in_bounds_and_free (g : Grid) (x y : Z) :
  shape g →
  ∃ b, isValidGridPosition g x y = Ok b ∧
       (b = true ↔ (0 ≤ x < COLS ∧ 0 ≤ y < ROWS) ∧ get2 g x y = Ok 0) ∧
       (¬ (0 ≤ x < COLS ∧ 0 ≤ y < ROWS) → b = false).
Proof.
  intros Hg. destruct (isValid_total g x y Hg) as [b Hb]. exists b.
  split; [done|]. pose proof (traversable_iff g (mkPoint x y)) as Hiff.
  unfold traversable, inbP, free in Hiff. cbn [px py] in Hiff. rewrite Hb in Hiff.
  split.
  - rewrite <- Hiff. split; [by intros ->|by intros [= ->]].
  - intros Hout. destruct b; [|done]. destruct Hout. by apply Hiff.
Qed.

Lemma isValidGridPosition_in_bounds_and_free_witness :
  ∃ b, isValidGridPosition cornerBlocked (-1) 15 = Ok b ∧
       (b = true ↔ (0 ≤ -1 < COLS ∧ 0 ≤ 15 < ROWS) ∧ get2 cornerBlocked (-1) 15 = Ok 0) ∧
       (¬ (0 ≤ -1 < COLS ∧ 0 ≤ 15 < ROWS) → b = false).
Proof.
  apply isValidGridPosition_in_bounds_and_free. apply cornerBlocked_shape.
Defined.

(** ** The loop without a destination *)

Section Idle.
Context {Q : OpenList}.

(** X18: while no destination is set, no event but a left click starts a
    search, sets a destination, installs a path or moves the robot, and the
    movement step changes nothing; obstacles can be toggled and layouts
    saved and loaded in that state without any search being run. *)
Theorem idle_loop_runs_no_search (st st' : State) (e : Event) :
  hasDestination st = false → (∀ x y, e ≠ LeftClick x y) →
  handle_event st e = Ok st' →
  hasDestination st' = false ∧ searches st' = searches st ∧
  gridPos st' = gridPos st ∧ destination st' = destination st ∧
  (path st' = path st ∨ path st' = []) ∧
  ∀ arrives, advance arrives st' = Ok st'.
Proof.
  intros Hidle Hnot Hev.
  assert (Hmain : hasDestination st' = false ∧ searches st' = searches st ∧
            gridPos st' = gridPos st ∧ destination st' = destination st ∧
            (path st' = path st ∨ path st' = [])).
  { destruct e; cbn [handle_event] in Hev.
    - injection Hev as <-. cbn. split_and!; auto.
    - by destruct (Hnot x y).
    - destruct (get2 _ _ _) as [v| |]; cbn [bind] in Hev; [|done..].
      destruct (set2 _ _ _ _) as [g'| |]; cbn [bind] in Hev; [|done..].
      rewrite Hidle in Hev. injection Hev as <-. cbn. split_and!; auto.
    - injection Hev as <-. split_and!; auto.
    - injection Hev as <-. cbn. split_and!; auto.
    - rewrite Hidle in Hev. injection Hev as <-. cbn. split_and!; auto.
    - destruct (saveLayout _ _) as [d' msg]. injection Hev as <-. cbn. split_and!; auto.
    - destruct (loadLayout _ _) as [r| |]; cbn [bind] in Hev; [|done..].
      rewrite Hidle in Hev. injection Hev as <-. cbn. split_and!; auto.
    - injection Hev as <-. split_and!; auto. }
  destruct Hmain as (Hd & Hs & Hp & Hdest & Hpath). split_and!; try done.
  intros arrives. unfold advance. by rewrite Hd.
Qed.

End Idle.

Lemma idle_loop_runs_no_search_witness :
  let st := initial (mkDisk None true) in
  let st' := toggled_state in
  hasDestination st' = false ∧ searches st' = searches st ∧
  gridPos st' = gridPos st ∧ destination st' = destination st ∧
  (path st' = path st ∨ path st' = []) ∧
  ∀ arrives, advance arrives st' = Ok st'.
Proof.
  cbv zeta.
  apply (idle_loop_runs_no_search (Q := HeapOpenList) _ _ (RightClick 60 20)).
  - reflexivity.
  - discriminate.
  - reflexivity.
Defined.

(** ** Path lengths across grids and directions *)

Lemma reach_mono g g' s n c :
  (∀ x, traversable g' x → traversable g x) → reach g' s n c → reach g s n c.
Proof.
  intros Hsub. induction 1 as [|n c c' _ IH Hadj Hc']; [constructor|].
  econstructor; [done..|]. by apply Hsub.
Qed.

Lemma reach_traversable g s n c : traversable g s → reach g s n c → traversable g c.
Proof. intros Hs. by induction 1. Qed.

Lemma adjacent_sym a b : adjacent a b → adjacent b a.
Proof. unfold adjacent. lia. Qed.

Lemma reach_sym g s n c : traversable g s → reach g s n c → reach g c n s.
Proof.
  intros Hs. induction 1 as [|n c c' Hr IH Hadj Hc']; [constructor|].
  apply (reach_cons g c' c n s); [by apply adjacent_sym| |done].
  exact (reach_traversable g s n c Hs Hr).
Qed.

Lemma search_post_reach g s e p : search_post g s e p → p ≠ [] → reach g s (length p) e.
Proof. intros [(_ & Hr & _)|[_ ->]] Hne; [by apply route_reach|done]. Qed.

Lemma search_post_least g s e p n : search_post g s e p → reach g s n e → (length p ≤ n)%nat.
Proof. intros [(_ & _ & _ & Hmin)|[Hno _]] Hn; [by apply Hmin|by destruct (Hno n)]. Qed.

Section Lengths.
Context {Q : OpenList} {L : OpenListLaws Q}.

(** Either search, from [s] to [e] on [g], returned [p]. *)
Definition found (g : Grid) (s e : Point) (p : list Point) : Prop :=
  findPath g s e = Ok p ∨ findPathA Q g s e = Ok p.

Lemma found_post g s e p :
  shape g → inbP s → inbP e → found g s e p → search_post g s e p.
Proof.
  intros Hg Hs He [Hf|Hf].
  - destruct (findPath_post g s e Hg Hs) as (p' & Hp' & Hpost). congruence.
  - destruct (findPathA_post g s e Hg Hs He) as (p' & Hp' & Hpost). congruence.
Qed.

(** X19: obstacles only lengthen paths.  When every cell free on [g'] is
    free on [g], a path found on [g'] (by either search) is never shorter
    than the one found on [g], and where [g'] has a path [g] has one. *)
Theorem more_obstacles_no_shorter_path (g g' : Grid) (s e : Point) (p p' : list Point) :
  shape g → shape g' → inbP s → inbP e →
  (∀ c, inbP c → free g' c → free g c) →
  found g s e p → found g' s e p' → p' ≠ [] →
  p ≠ [] ∧ (length p ≤ length p')%nat.
Proof.
  intros Hg Hg' Hs He Hsub Hp%found_post Hp'%found_post Hne; try done.
  assert (Htr : ∀ x, traversable g' x → traversable g x).
  { intros x [Hin Hfree]%traversable_iff. apply traversable_iff. auto. }
  pose proof (reach_mono g g' _ _ _ Htr (search_post_reach _ _ _ _ Hp' Hne)) as Hreach.
  split; [|by eapply search_post_least].
  intros ->. destruct Hp as [(_ & [_ [= ->]] & _)|[Hno _]].
  - by apply search_post_same in Hp'.
  - by destruct (Hno _ Hreach).
Qed.

(** X20: between two free cells the two directions give paths of the same
    length, whichever of the two searches computes each. *)
Theorem path_length_symmetric (g : Grid) (a b : Point) (p q : list Point) :
  shape g → inbP a → inbP b → free g a → free g b →
  found g a b p → found g b a q → length p = length q.
Proof.
  intros Hg Ha Hb Hfa Hfb Hp%found_post Hq%found_post; try done.
  assert (Hta : traversable g a) by (by apply traversable_iff).
  assert (Htb : traversable g b) by (by apply traversable_iff).
  assert (Hhalf : ∀ s e p q, traversable g s → search_post g s e p →
            search_post g e s q → p ≠ [] → (length q ≤ length p)%nat).
  { intros s e p0 q0 Hts Hp0 Hq0 Hne. eapply search_post_least; [done|].
    apply reach_sym; [done|]. by apply search_post_reach. }
  assert (Hnil : ∀ s e q, traversable g e → search_post g s e [] →
            search_post g e s q → q = []).
  { intros s e q0 Hte Hp0 Hq0. destruct Hp0 as [(_ & [_ [= ->]] & _)|[Hno _]].
    - by eapply search_post_same.
    - destruct q0 as [|c q0]; [done|]. destruct (Hno (length (c :: q0))).
      apply reach_sym; [done|]. by apply search_post_reach. }
  destruct p as [|c p], q as [|c' q]; [done|..].
  - by rewrite (Hnil a b (c' :: q) Htb Hp Hq).
  - by rewrite (Hnil b a (c :: p) Hta Hq Hp).
  - pose proof (Hhalf a b (c :: p) (c' :: q) Hta Hp Hq ltac:(done)).
    pose proof (Hhalf b a (c' :: q) (c :: p) Htb Hq Hp ltac:(done)). lia.
Qed.

End Lengths.

Lemma more_obstacles_no_shorter_path_witness :
  let p := [mkPoint 1 0; mkPoint 2 0] in
  let p' := [mkPoint 0 1; mkPoint 1 1; mkPoint 2 1; mkPoint 2 0] in
  p ≠ [] ∧ (length p ≤ length p')%nat.
Proof.
  cbv zeta.
  apply (more_obstacles_no_shorter_path (Q := HeapOpenList) (L := HeapLaws)
           emptyGrid (warehouseGrid toggled_state) (mkPoint 0 0) (mkPoint 2 0)).
  - apply emptyGrid_shape.
  - split; [reflexivity|]. vm_compute. repeat constructor.
  - solve_inb.
  - solve_inb.
  - intros c Hc _. unfold free. destruct (get2_inb emptyGrid (px c) (py c)) as [v Hv];
      [apply emptyGrid_shape|done|].
    rewrite Hv. f_equal. unfold emptyGrid in Hv. by rewrite get2_make2 in Hv; [injection Hv|].
  - left. vm_compute. reflexivity.
  - right. vm_compute. reflexivity.
  - discriminate.
Defined.

Lemma path_length_symmetric_witness :
  length [mkPoint 1 0; mkPoint 2 0; mkPoint 2 1]
  = length [mkPoint 2 0; mkPoint 1 0; mkPoint 0 0].
Proof.
  apply (path_length_symmetric (Q := HeapOpenList) (L := HeapLaws)
           emptyGrid (mkPoint 0 0) (mkPoint 2 1)).
  - apply emptyGrid_shape.
  - solve_inb.
  - solve_inb.
  - reflexivity.
  - reflexivity.
  - left. vm_compute. reflexivity.
  - left. vm_compute. reflexivity.
Defined.
